(** * Risk calculator: a shallow embedding of [src/risk_calculator.py]

    The engine of the repository computes Value-at-Risk figures and a few
    derived metrics from a table of returns and a weight vector.  Numbers
    are modelled as exact reals ([R]); what numpy and pandas signal through
    [nan] or [inf] (warnings are globally silenced at the top of the source
    file) is the outcome [NotFinite]; Python exceptions are [Raised].
    Rounding error of IEEE doubles is outside the model. *)

From Stdlib Require Import String.
From Stdlib Require DecimalString.
From Stdlib Require Import Reals Lra Lia ZArith Bool Arith List.
From Stdlib Require Import Sorting.Sorted Sorting.Permutation.
Import ListNotations.
Open Scope R_scope.

(** ** Outcomes *)

(** The exceptions.  [ValueError] and [IndexError] are what numpy and
    pandas raise (a percentile outside [0, 100], a negative sample size;
    the percentile of an empty sample, [iloc[-1]] on an empty table),
    [ZeroDivisionError] is Python's division of integers by zero.  The
    three others are the error taxonomy of the specification; no statement
    of the source raises them. *)
Inductive exn : Type :=
| ValueError
| IndexError
| ZeroDivisionError
| InsufficientDataError
| InvalidConfigurationError
| DegenerateInputError.

Inductive result (A : Type) : Type :=
| Num (a : A)
| NotFinite
| Raised (e : exn).

Arguments Num {A} a.
Arguments NotFinite {A}.
Arguments Raised {A} e.

Definition bind {A B : Type} (m : result A) (k : A -> result B) : result B :=
  match m with
  | Num a => k a
  | NotFinite => NotFinite
  | Raised e => Raised e
  end.

Notation "x <- m ;; k" := (bind m (fun x => k))
  (at level 61, m at next level, right associativity).

(** [np.sqrt]: [nan] on a negative argument. *)
Definition np_sqrt (x : R) : result R :=
  if Rlt_dec x 0 then NotFinite else Num (sqrt x).

(** Float division: a zero divisor gives [inf] or [nan], never an
    exception (numpy scalars and arrays). *)
Definition np_div (x y : R) : result R :=
  if Req_dec_T y 0 then NotFinite else Num (x / y).

(** ** Vectors and matrices (numpy arrays as lists) *)

Abbreviation vec := (list R) (only parsing).
Abbreviation matrix := (list (list R)) (only parsing).

Fixpoint sum (l : list R) : R :=
  match l with
  | [] => 0
  | x :: l' => x + sum l'
  end.

(** [np.dot] of two one-dimensional arrays of the same length. *)
Fixpoint dot (u v : vec) : R :=
  match u, v with
  | x :: u', y :: v' => x * y + dot u' v'
  | _, _ => 0
  end.

(** [np.dot(M, w)] for a two-dimensional [M]. *)
Definition mat_vec (M : matrix) (w : vec) : vec :=
  map (fun row => dot row w) M.

(** [np.dot(w.T, np.dot(M, w))]. *)
Definition quad_form (M : matrix) (w : vec) : R :=
  dot w (mat_vec M w).

(** [np.dot(r, r.T)] for a column vector [r]: the outer product. *)
Definition outer (r : vec) : matrix :=
  map (fun x => map (fun y => x * y) r) r.

Definition mat_scale (c : R) (M : matrix) : matrix :=
  map (map (fun x => c * x)) M.

Fixpoint vec_add (u v : vec) : vec :=
  match u, v with
  | x :: u', y :: v' => (x + y) :: vec_add u' v'
  | _, _ => []
  end.

Fixpoint mat_add (A B : matrix) : matrix :=
  match A, B with
  | a :: A', b :: B' => vec_add a b :: mat_add A' B'
  | _, _ => []
  end.

Definition entry (M : matrix) (i j : nat) : R := nth j (nth i M []) 0.

(** ** Data frames and series (pandas) *)

(** A [DataFrame] of returns: the column labels and the rows in
    chronological order.  Missing values are dropped upstream
    ([returns.dropna()] in [PortfolioManager._calculate_returns]), so the
    cells are plain reals and [dropna] is the identity. *)
Record DataFrame : Type := mkFrame {
  columns : list string;
  rows : list (list R)
}.

Definition n_cols (df : DataFrame) : nat := length (columns df).
Definition n_rows (df : DataFrame) : nat := length (rows df).

Definition well_formed (df : DataFrame) : Prop :=
  Forall (fun r => length r = n_cols df) (rows df).

Definition dropna (df : DataFrame) : DataFrame := df.

(** [df.iloc[i].values] *)
Definition iloc (df : DataFrame) (i : nat) : vec := nth i (rows df) [].

(** Column [j] as a series. *)
Definition column (df : DataFrame) (j : nat) : list R :=
  map (fun r => nth j r 0) (rows df).

Definition mean (s : list R) : R := sum s / INR (length s).

(** Sum of the products of deviations from the means. *)
Definition co_moment (x y : list R) : R :=
  sum (map (fun p => (fst p - mean x) * (snd p - mean y)) (combine x y)).

(** [DataFrame.cov()]: the sample covariance with [ddof = 1].  With fewer
    than two observations the divisor is zero and every cell is [nan]. *)
Definition cov_matrix_of (df : DataFrame) : matrix :=
  map (fun i =>
         map (fun j => co_moment (column df i) (column df j)
                       / INR (n_rows df - 1))
             (seq 0 (n_cols df)))
      (seq 0 (n_cols df)).

Definition cov (df : DataFrame) : result matrix :=
  if (n_rows df <=? 1)%nat then NotFinite else Num (cov_matrix_of df).

(** [Series.std()], [ddof = 1]. *)
Definition std (s : list R) : result R :=
  if (length s <=? 1)%nat then NotFinite
  else Num (sqrt (co_moment s s / INR (length s - 1))).

(** ** The portfolio (the part of [PortfolioManager] the engine reads) *)

Record Portfolio : Type := mkPortfolio {
  returns_data : DataFrame;
  weights : vec;
  value : R
}.

(** [_calculate_weights], default method ["equal"]:
    [np.array([1/n_assets] * n_assets)]. *)
Definition equal_weights (n_assets : nat) : vec :=
  repeat (1 / INR n_assets) n_assets.

Definition get_returns (p : Portfolio) : DataFrame := returns_data p.
Definition get_weights (p : Portfolio) : vec := weights p.

(** [(self.returns_data * self.weights).sum(axis=1)] *)
Definition get_portfolio_returns (p : Portfolio) : list R :=
  map (fun r => dot r (weights p)) (rows (returns_data p)).

(** ** The calculator *)

Record RiskCalculator : Type := mkCalc {
  portfolio : Portfolio;
  confidence_level : R;
  time_horizon : Z;
  simulations : Z;
  alpha : R
}.

(** [RiskCalculator.__init__]: stores its arguments; nothing is checked. *)
Definition init (p : Portfolio) (confidence_level : R) (time_horizon : Z)
           (simulations : Z) : result RiskCalculator :=
  Num (mkCalc p confidence_level time_horizon simulations
              (1 - confidence_level)).

(** *** EWMA covariance *)

Definition ewma_step (lambda_param : R) (C : matrix) (return_vec : vec)
  : matrix :=
  mat_add (mat_scale lambda_param C)
          (mat_scale (1 - lambda_param) (outer return_vec)).

(** [_calculate_ewma_covariance] with an explicit decay factor. *)
Definition calculate_ewma_covariance_with (lambda_param : R)
           (returns : DataFrame) : result matrix :=
  let returns_clean := dropna returns in
  let n_obs := n_rows returns_clean in
  C0 <- cov returns_clean ;;
  Num (fold_left
         (fun C i => ewma_step lambda_param C (iloc returns_clean i))
         (seq 1 (n_obs - 1))
         (mat_scale 252 C0)).

(** The default [lambda_param = 0.94]. *)
Definition calculate_ewma_covariance (returns : DataFrame) : result matrix :=
  calculate_ewma_covariance_with (94 / 100) returns.

(** ** Percentiles *)

Fixpoint insert_sorted (x : R) (l : list R) : list R :=
  match l with
  | [] => [x]
  | y :: l' => if Rle_dec x y then x :: l else y :: insert_sorted x l'
  end.

Fixpoint sort (l : list R) : list R :=
  match l with
  | [] => []
  | x :: l' => insert_sorted x (sort l')
  end.

(** Largest natural number below a non-negative real. *)
Definition floor_nat (x : R) : nat := Z.to_nat (Int_part x).

(** Linear interpolation between the two order statistics that surround
    a fractional index of the sorted sample; past the last index both
    neighbours are the maximum. *)
Definition interpolate (s : list R) (virtual_index : R) : R :=
  let previous := floor_nat virtual_index in
  let next := Nat.min (previous + 1) (length s - 1) in
  let gamma := virtual_index - INR previous in
  nth previous s 0 + (nth next s 0 - nth previous s 0) * gamma.

(** [np.percentile(a, q)] with the default linear method.  The range of
    [q] is checked first ([ValueError]); an empty sample then raises
    [IndexError]. *)
Definition percentile (a : list R) (q : R) : result R :=
  if Rle_dec 0 q then
    if Rle_dec q 100 then
      match a with
      | [] => Raised IndexError
      | _ :: _ =>
          let s := sort a in
          Num (interpolate s (q / 100 * INR (length s - 1)))
      end
    else Raised ValueError
  else Raised ValueError.

(** The percentile of a sample whose cells are all [nan]. *)
Definition percentile_of_nan (q : R) : result R :=
  if Rle_dec 0 q then
    if Rle_dec q 100 then NotFinite else Raised ValueError
  else Raised ValueError.

(** ** The random source *)

(** numpy's global generator: the stream of raw draws fixed by the seed,
    and a cursor into it.  Every variate drawn advances the cursor. *)
Definition Generator := nat -> nat.
Definition RandomState := nat.

(** [np.random.choice(a, size=size, replace=True)] *)
Definition random_choice (g : Generator) (st : RandomState) (a : list R)
           (size : nat) : list R * RandomState :=
  (map (fun k => nth (g (st + k)%nat mod length a) a 0) (seq 0 size),
   (st + size)%nat).

(** *** Historical VaR *)

(** The loop [for _ in range(iters): bootstrap_samples.extend(sample)]. *)
Fixpoint bootstrap (g : Generator) (iters : nat) (st : RandomState)
         (scaled_returns : list R) (bootstrap_samples : list R)
  : list R * RandomState :=
  match iters with
  | O => (bootstrap_samples, st)
  | S k =>
      let '(sample, st') :=
        random_choice g st scaled_returns (length scaled_returns) in
      bootstrap g k st' scaled_returns (bootstrap_samples ++ sample)
  end.

(** [_calculate_historical_var].  A negative horizon makes
    [np.sqrt(self.time_horizon)] a [nan], hence every scaled return; an
    empty series leaves the pool of resamples empty in either case. *)
Definition calculate_historical_var (rc : RiskCalculator) (g : Generator)
           (st : RandomState) (returns : list R)
  : result R * RandomState :=
  match np_sqrt (IZR (time_horizon rc)) with
  | Num s =>
      let scaled_returns := map (fun r => r * s) returns in
      let '(bootstrap_samples, st') :=
        bootstrap g 1000 st scaled_returns [] in
      (var_percentile <- percentile bootstrap_samples (alpha rc * 100) ;;
       Num (Rabs (var_percentile * value (portfolio rc))),
       st')
  | _ =>
      (match returns with
       | [] => percentile [] (alpha rc * 100)
       | _ :: _ => percentile_of_nan (alpha rc * 100)
       end,
       (st + 1000 * length returns)%nat)
  end.

(** *** Volatility, Sharpe ratio, maximum drawdown *)

Definition calculate_volatility (returns : list R) : result R :=
  s <- std returns ;;
  Num (s * sqrt 252).

Definition calculate_sharpe_ratio_with (risk_free_rate : R)
           (returns : list R) : result R :=
  let excess_returns := mean returns * 252 - risk_free_rate in
  v <- calculate_volatility returns ;;
  np_div excess_returns v.

(** The default [risk_free_rate = 0.02]. *)
Definition calculate_sharpe_ratio (returns : list R) : result R :=
  calculate_sharpe_ratio_with (2 / 100) returns.

(** [Series.cumprod()] *)
Fixpoint cumprod_from (acc : R) (l : list R) : list R :=
  match l with
  | [] => []
  | x :: l' => (acc * x) :: cumprod_from (acc * x) l'
  end.

Definition cumprod (l : list R) : list R := cumprod_from 1 l.

(** [Series.expanding().max()]: the running maximum. *)
Fixpoint expanding_max_from (m : R) (l : list R) : list R :=
  match l with
  | [] => []
  | x :: l' => Rmax m x :: expanding_max_from (Rmax m x) l'
  end.

Definition expanding_max (l : list R) : list R :=
  match l with
  | [] => []
  | x :: l' => x :: expanding_max_from x l'
  end.

(** A cell of a float series: a finite number, an infinity or [nan]. *)
Inductive cell : Type :=
| Finite (x : R)
| Infinite (negative : bool)
| NaN.

(** Elementwise float division of two finite cells (the sign of a zero
    divisor is not modelled). *)
Definition cell_div (x y : R) : cell :=
  if Req_dec_T y 0 then
    if Req_dec_T x 0 then NaN
    else Infinite (if Rlt_dec x 0 then true else false)
  else Finite (x / y).

Definition cell_min2 (a b : cell) : cell :=
  match a, b with
  | NaN, _ => b
  | _, NaN => a
  | Infinite true, _ => Infinite true
  | _, Infinite true => Infinite true
  | Infinite false, _ => b
  | _, Infinite false => a
  | Finite x, Finite y => Finite (Rmin x y)
  end.

(** [Series.min()]: [nan] cells are skipped; [nan] when nothing is left. *)
Definition series_min (s : list cell) : cell := fold_right cell_min2 NaN s.

Definition cell_abs (c : cell) : result R :=
  match c with
  | Finite x => Num (Rabs x)
  | _ => NotFinite
  end.

(** [(cumulative_returns - rolling_max) / rolling_max] *)
Definition drawdown_series (cumulative_returns rolling_max : list R)
  : list cell :=
  map (fun p => cell_div (fst p - snd p) (snd p))
      (combine cumulative_returns rolling_max).

Definition calculate_max_drawdown (returns : list R) : result R :=
  let cumulative_returns := cumprod (map (fun r => 1 + r) returns) in
  let rolling_max := expanding_max cumulative_returns in
  let drawdown := drawdown_series cumulative_returns rolling_max in
  cell_abs (series_min drawdown).

(** *** Component VaR *)

(** A Python [dict] keyed by asset label: assignment replaces the value of
    a key that is already present and appends a new key otherwise. *)
Definition dict := list (string * result R).

Fixpoint dict_set (d : dict) (k : string) (v : result R) : dict :=
  match d with
  | [] => [(k, v)]
  | (k', v') :: d' =>
      if String.eqb k' k then (k', v) :: d' else (k', v') :: dict_set d' k v
  end.

Definition dict_values (d : dict) : list (result R) := map snd d.

(** The body of the loop of [_calculate_component_var] for asset [i];
    [weights] holds one weight per column, as [PortfolioManager] builds
    it. *)
Definition component_var_of (rc : RiskCalculator) (returns : DataFrame)
           (i : nat) : result R :=
  let weights := get_weights (portfolio rc) in
  C <- cov returns ;;
  let cov_matrix := mat_scale 252 C in
  portfolio_var <- np_sqrt (quad_form cov_matrix weights) ;;
  marginal_var <- np_div (dot (nth i cov_matrix []) weights) portfolio_var ;;
  let component_var := nth i weights 0 * marginal_var in
  Num (component_var * value (portfolio rc)).

Definition calculate_component_var (rc : RiskCalculator)
           (returns : DataFrame) : dict :=
  fold_left
    (fun component_vars ia =>
       dict_set component_vars (snd ia) (component_var_of rc returns (fst ia)))
    (combine (seq 0 (n_cols returns)) (columns returns))
    [].

(** ** The methods that call scipy *)

Section Scipy.

(** [scipy.stats.norm.ppf] on the open interval (0, 1). *)
Variable norm_ppf : R -> R.

(** [scipy.stats.t.fit]: degrees of freedom, location and scale. *)
Variable t_fit : list R -> R * R * R.

(** [scipy.stats.t.rvs]: the variate produced for the given parameters
    at a position of the generator's stream.  The fit and the variates
    are taken to be finite numbers. *)
Variable t_rvs : R * R * R -> RandomState -> R.

(** [stats.norm.ppf(q)]: infinite at 0 and 1, [nan] outside. *)
Definition z_score_of (q : R) : result R :=
  if Rlt_dec 0 q then
    if Rlt_dec q 1 then Num (norm_ppf q) else NotFinite
  else NotFinite.

(** [_calculate_parametric_var] *)
Definition calculate_parametric_var (rc : RiskCalculator)
           (returns : DataFrame) : result R :=
  cov_matrix <- calculate_ewma_covariance returns ;;
  let weights := get_weights (portfolio rc) in
  let portfolio_variance := quad_form cov_matrix weights in
  portfolio_vol <- np_sqrt (portfolio_variance * IZR (time_horizon rc)) ;;
  z_score <- z_score_of (alpha rc) ;;
  Num (Rabs (z_score * portfolio_vol * value (portfolio rc))).

(** [stats.t.rvs] with the fitted parameters and [size] draws. *)
Definition draw_t (params : R * R * R) (st : RandomState) (size : nat)
  : list R * RandomState :=
  (map (fun k => t_rvs params (st + k)%nat) (seq 0 size), (st + size)%nat).

(** The scenario loop of [_calculate_monte_carlo_var]. *)
Fixpoint scenarios_loop (params : R * R * R) (trials : nat)
         (st : RandomState) (size : nat) (v : R) (scenarios : list R)
  : list R * RandomState :=
  match trials with
  | O => (scenarios, st)
  | S k =>
      let '(random_returns, st') := draw_t params st size in
      let scenario_return := sum random_returns in
      scenarios_loop params k st' size v (scenarios ++ [scenario_return * v])
  end.

(** [_calculate_monte_carlo_var].  The argument [returns] is not read: the
    series is fetched from the portfolio.  [range(self.simulations)] is
    empty for a non-positive count, and the percentile is then taken of
    an empty list; a negative [size] makes [rvs] raise. *)
Definition calculate_monte_carlo_var (rc : RiskCalculator)
           (returns : DataFrame) (st : RandomState)
  : result R * RandomState :=
  let portfolio_returns := get_portfolio_returns (portfolio rc) in
  let params := t_fit portfolio_returns in
  if (0 <? simulations rc)%Z && (time_horizon rc <? 0)%Z
  then (Raised ValueError, st)
  else
    let '(scenarios, st') :=
      scenarios_loop params (Z.to_nat (simulations rc)) st
                     (Z.to_nat (time_horizon rc))
                     (value (portfolio rc)) [] in
    (p <- percentile scenarios (alpha rc * 100) ;; Num (Rabs p), st').

(** The result mapping.  A metric is a float (possibly [nan] or [inf]);
    an exception in any method aborts the whole assembly. *)
Record Results : Type := mkResults {
  historical : result R;
  parametric : result R;
  monte_carlo : result R;
  volatility : result R;
  sharpe_ratio : result R;
  max_drawdown : result R;
  var_breakdown : dict
}.

Definition or_abort {B : Type} (m : result R)
           (k : result R -> result B) : result B :=
  match m with
  | Raised e => Raised e
  | _ => k m
  end.

(** [calculate_all_var_methods] *)
Definition calculate_all_var_methods (rc : RiskCalculator) (g : Generator)
           (st : RandomState) : result Results :=
  let returns := get_returns (portfolio rc) in
  let portfolio_returns := get_portfolio_returns (portfolio rc) in
  let '(h, st1) := calculate_historical_var rc g st portfolio_returns in
  or_abort h (fun h =>
  or_abort (calculate_parametric_var rc returns) (fun p =>
  let '(m, st2) := calculate_monte_carlo_var rc returns st1 in
  or_abort m (fun m =>
  or_abort (calculate_volatility portfolio_returns) (fun v =>
  or_abort (calculate_sharpe_ratio portfolio_returns) (fun s =>
  or_abort (calculate_max_drawdown portfolio_returns) (fun d =>
  Num (mkResults h p m v s d
                 (calculate_component_var rc returns)))))))).

End Scipy.

(** ** Float cells: sums, quotients and logarithms *)

Definition is_nan (c : cell) : bool :=
  match c with
  | NaN => true
  | _ => false
  end.

Definition cell_add (a b : cell) : cell :=
  match a, b with
  | NaN, _ => NaN
  | _, NaN => NaN
  | Infinite s, Infinite t => if Bool.eqb s t then Infinite s else NaN
  | Infinite s, Finite _ => Infinite s
  | Finite _, Infinite t => Infinite t
  | Finite x, Finite y => Finite (x + y)
  end.

(** [Series.sum()]: [nan] cells are skipped. *)
Definition series_sum (s : list cell) : cell :=
  fold_left cell_add (filter (fun c => negb (is_nan c)) s) (Finite 0).

(** Elementwise division of two cells (the sign of a zero is not
    modelled). *)
Definition cell_quot (a b : cell) : cell :=
  match a, b with
  | NaN, _ => NaN
  | _, NaN => NaN
  | Infinite _, Infinite _ => NaN
  | Finite _, Infinite _ => Finite 0
  | Infinite s, Finite y =>
      Infinite (xorb s (if Rlt_dec y 0 then true else false))
  | Finite x, Finite y => cell_div x y
  end.

(** [np.log]: minus infinity at 0, [nan] on a negative argument. *)
Definition cell_log (a : cell) : cell :=
  match a with
  | Finite x =>
      if Rlt_dec 0 x then Finite (ln x)
      else if Req_dec_T x 0 then Infinite true else NaN
  | Infinite false => Infinite false
  | _ => NaN
  end.

(** ** The portfolio manager *)

(** [price / price.shift(1)]: the first row has no predecessor and is all
    [nan]; every later row is divided cell by cell by the row before. *)
Fixpoint ratios_from (previous : list R) (rest : list (list R))
  : list (list cell) :=
  match rest with
  | [] => []
  | current :: rest' =>
      map (fun p => cell_div (fst p) (snd p)) (combine current previous)
      :: ratios_from current rest'
  end.

Definition price_ratios (price_rows : list (list R)) : list (list cell) :=
  match price_rows with
  | [] => []
  | first :: rest => map (fun _ => NaN) first :: ratios_from first rest
  end.

(** [DataFrame.dropna()] on a table of float cells: the rows that hold a
    [nan] are removed. *)
Definition dropna_rows (cells : list (list cell)) : list (list cell) :=
  filter (fun r => negb (existsb is_nan r)) cells.

(** [_calculate_returns]: [np.log(price / price.shift(1)).dropna()]. *)
Definition calculate_returns (price_data : DataFrame) : list (list cell) :=
  let returns := map (map cell_log) (price_ratios (rows price_data)) in
  dropna_rows returns.

(** [_calculate_weights].  The returns are the finite table the engine
    reads.  [1/n_assets] is a division of Python integers and raises on
    zero; [iloc[-1]] raises on an empty price table. *)
Definition calculate_weights (assets : list string)
           (price_data returns_data : DataFrame) (method : string)
  : exn + list cell :=
  let n_assets := length assets in
  let equal :=
    if (n_assets =? 0)%nat then inl ZeroDivisionError
    else inr (repeat (Finite (1 / INR n_assets)) n_assets) in
  if String.eqb method "equal" then equal
  else if String.eqb method "market_cap" then
    match rows price_data with
    | [] => inl IndexError
    | _ :: _ =>
        let recent_prices := last (rows price_data) [] in
        let total := sum recent_prices in
        inr (map (fun p => cell_div p total) recent_prices)
    end
  else if String.eqb method "risk_parity" then
    let inv_vol :=
      map (fun j =>
             match std (column returns_data j) with
             | Num s => cell_div 1 s
             | _ => NaN
             end)
          (seq 0 (n_cols returns_data)) in
    let total := series_sum inv_vol in
    inr (map (fun c => cell_quot c total) inv_vol)
  else equal.

(** One cell of [DataFrame.corr()] (Pearson): the co-moment over the
    square root of the product of the two sums of squared deviations,
    [nan] when that divisor is zero. *)
Definition correlation (x y : list R) : cell :=
  let divisor := sqrt (co_moment x x * co_moment y y) in
  if Req_dec_T divisor 0 then NaN else Finite (co_moment x y / divisor).

(** [get_correlation_matrix] *)
Definition get_correlation_matrix (returns_data : DataFrame)
  : list (list cell) :=
  map (fun i =>
         map (fun j => correlation (column returns_data i)
                                   (column returns_data j))
             (seq 0 (n_cols returns_data)))
      (seq 0 (n_cols returns_data)).

(** Lookup in a Python [dict]. *)
Fixpoint dict_get (d : dict) (k : string) : option (result R) :=
  match d with
  | [] => None
  | (k', v) :: d' => if String.eqb k' k then Some v else dict_get d' k
  end.

(** ** The data handler ([src/utils/data_handler.py]) *)

Module DataHandler.

(** A table whose cells may be missing ([nan]). *)
Record Table : Type := mkTable {
  labels : list string;
  cells : list (list cell)
}.

(** [DataFrame.empty]: no row or no column. *)
Definition empty (data : Table) : bool :=
  (length (labels data) =? 0)%nat || (length (cells data) =? 0)%nat.

Definition Rltb (a b : R) : bool := if Rlt_dec a b then true else false.

(** Column [j] of a table. *)
Definition column_cells (data : Table) (j : nat) : list cell :=
  map (fun r => nth j r NaN) (cells data).

(** [data.isnull().sum()] for one column. *)
Definition missing_count (col : list cell) : nat :=
  length (filter is_nan col).

Definition str_of_int (z : Z) : string :=
  DecimalString.NilZero.string_of_int (Z.to_int z).

(** [validate_data].  [data.std() == 0] compares floats for equality; the
    outcome of that test on a column is the parameter [zero_std]. *)
Definition validate_data (zero_std : list cell -> bool) (data : Table)
           (min_observations : Z) : bool * string :=
  if empty data then (false, "Data is empty"%string)
  else if (Z.of_nat (length (cells data)) <? min_observations)%Z then
    (false,
     ("Insufficient data: " ++ str_of_int (Z.of_nat (length (cells data)))
      ++ " observations (minimum: " ++ str_of_int min_observations
      ++ ")")%string)
  else
    let missing_pct :=
      map (fun j => INR (missing_count (column_cells data j))
                    / INR (length (cells data)))
          (seq 0 (length (labels data))) in
    if existsb (fun pct => Rltb (1 / 10) pct) missing_pct then
      (false, "Excessive missing values detected"%string)
    else if existsb (fun j => zero_std (column_cells data j))
                    (seq 0 (length (labels data))) then
      (false, "Constant values detected in data"%string)
    else (true, "Data validation passed"%string).

(** A missing cell of a row takes the value of the cell above it. *)
Definition fill_row (r above : list cell) : list cell :=
  map (fun p => if is_nan (fst p) then snd p else fst p) (combine r above).

(** [fillna(method='ffill')]: every row is filled from the filled row
    above it; [carry] is that row. *)
Fixpoint forward_fill_from (carry : list cell) (rows : list (list cell))
  : list (list cell) :=
  match rows with
  | [] => []
  | r :: rest =>
      let filled := fill_row r carry in
      filled :: forward_fill_from filled rest
  end.

Definition forward_fill (rows : list (list cell)) : list (list cell) :=
  match rows with
  | [] => []
  | first :: _ => forward_fill_from (map (fun _ => NaN) first) rows
  end.

(** [clean_data]; pandas' [interpolate] is a parameter. *)
Definition clean_data (pandas_interpolate : Table -> Table) (data : Table)
           (method : string) : Table :=
  if String.eqb method "drop" then
    mkTable (labels data) (dropna_rows (cells data))
  else if String.eqb method "forward_fill" then
    mkTable (labels data) (forward_fill (cells data))
  else if String.eqb method "interpolate" then pandas_interpolate data
  else mkTable (labels data) (dropna_rows (cells data)).

(** [Series.quantile(q)] on a series without missing values: linear
    interpolation between order statistics, [nan] on an empty series. *)
Definition quantile (data : list R) (q : R) : result R :=
  match data with
  | [] => NotFinite
  | _ :: _ =>
      let s := sort data in
      Num (interpolate s (q * INR (length s - 1)))
  end.

(** One cell of [np.abs((data - data.mean()) / data.std())]. *)
Definition z_score (data : list R) (x : R) : cell :=
  match std data with
  | Num s =>
      match cell_div (x - mean data) s with
      | Finite z => Finite (Rabs z)
      | Infinite _ => Infinite false
      | NaN => NaN
      end
  | _ => NaN
  end.

(** [cell > threshold]: false on [nan]. *)
Definition exceeds (c : cell) (threshold : R) : bool :=
  match c with
  | Finite z => Rltb threshold z
  | Infinite negative => negb negative
  | NaN => false
  end.

(** [detect_outliers] on a series without missing values. *)
Definition detect_outliers (data : list R) (method : string)
           (threshold : R) : list bool :=
  if String.eqb method "iqr" then
    match quantile data (25 / 100), quantile data (75 / 100) with
    | Num Q1, Num Q3 =>
        let IQR := Q3 - Q1 in
        let lower := Q1 - 15 / 10 * IQR in
        let upper := Q3 + 15 / 10 * IQR in
        map (fun x => Rltb x lower || Rltb upper x) data
    | _, _ => map (fun _ => false) data
    end
  else if String.eqb method "zscore" then
    map (fun x => exceeds (z_score data x) threshold) data
  else map (fun _ => false) data.

(** [prices.pct_change()] needs [ratio - 1] on a cell. *)
Definition cell_minus_one (c : cell) : cell :=
  match c with
  | Finite x => Finite (x - 1)
  | other => other
  end.

(** [calculate_returns] on a price table without missing values; unlike
    [PortfolioManager._calculate_returns] the first row stays. *)
Definition calculate_returns (prices : DataFrame) (method : string)
  : list (list cell) :=
  let log_returns := map (map cell_log) (price_ratios (rows prices)) in
  if String.eqb method "log" then log_returns
  else if String.eqb method "simple" then
    map (map cell_minus_one) (price_ratios (rows prices))
  else if String.eqb method "continuous" then log_returns
  else log_returns.

End DataHandler.

(** ** Predicates used to state the properties *)

(** Shapes: [n] rows of [n] cells. *)
Definition square (n : nat) (M : matrix) : Prop :=
  length M = n /\ Forall (fun row => length row = n) M.

Definition symmetric (M : matrix) : Prop :=
  forall i j, entry M i j = entry M j i.

Definition positive_semi_definite (n : nat) (M : matrix) : Prop :=
  forall w : vec, length w = n -> 0 <= quad_form M w.

Definition covariance_like (n : nat) (M : matrix) : Prop :=
  square n M /\ symmetric M /\ positive_semi_definite n M.

(** Deviation of cell [j] of a row from the mean of its column. *)
Definition deviation (df : DataFrame) (r : list R) (j : nat) : R :=
  nth j r 0 - mean (column df j).

Definition dict_keys (d : dict) : list string := map fst d.

(** The table and the weights fit together as [PortfolioManager] builds
    them: every row has one cell per asset and there is one weight per
    asset. *)
Definition consistent (p : Portfolio) : Prop :=
  well_formed (returns_data p)
  /\ length (weights p) = n_cols (returns_data p).

(** The configurations the specification calls valid. *)
Definition valid_configuration (confidence_level : R)
           (time_horizon simulations : Z) : Prop :=
  0 < confidence_level < 1 /\ (0 < time_horizon)%Z /\ (0 < simulations)%Z.

(** The action of a function on an outcome that is a number. *)
Definition result_map {A B : Type} (f : A -> B) (m : result A) : result B :=
  match m with
  | Num a => Num (f a)
  | NotFinite => NotFinite
  | Raised e => Raised e
  end.

Definition raises {A : Type} (m : result A) : Prop := exists e, m = Raised e.

(** The variant that measures every point against the maximum of the whole
    wealth curve; the source does not use it. *)
Definition max_drawdown_global (returns : list R) : result R :=
  let cumulative_returns := cumprod (map (fun r => 1 + r) returns) in
  let global_max :=
    fold_right Rmax (hd 0 cumulative_returns) cumulative_returns in
  let drawdown :=
    map (fun c => cell_div (c - global_max) global_max) cumulative_returns in
  cell_abs (series_min drawdown).

(** The logarithms of the ratios of consecutive price rows, as reals. *)
Fixpoint log_ratios (previous : list R) (rest : list (list R))
  : list (list R) :=
  match rest with
  | [] => []
  | current :: rest' =>
      map (fun p => ln (fst p / snd p)) (combine current previous)
      :: log_ratios current rest'
  end.

(** ** Worked inputs *)

(** Two assets moving against each other, held with equal weights. *)
Definition hedged_frame : DataFrame :=
  mkFrame ["A"%string; "B"%string]
          [[1 / 100; - 3 / 100]; [- 1 / 100; 3 / 100]].

Definition hedged_portfolio : Portfolio :=
  mkPortfolio hedged_frame (equal_weights 2) 100000.

Definition hedged_calculator : RiskCalculator :=
  mkCalc hedged_portfolio (95 / 100) 1 10000 (1 - 95 / 100).

(** One asset whose return never changes. *)
Definition flat_frame : DataFrame :=
  mkFrame ["A"%string] [[1 / 100]; [1 / 100]].

Definition flat_portfolio : Portfolio :=
  mkPortfolio flat_frame (equal_weights 1) 100000.

Definition flat_calculator : RiskCalculator :=
  mkCalc flat_portfolio (95 / 100) 1 10000 (1 - 95 / 100).

(** One asset with two gains, 1% and then 3%. *)
Definition rising_frame : DataFrame :=
  mkFrame ["A"%string] [[1 / 100]; [3 / 100]].

Definition rising_portfolio : Portfolio :=
  mkPortfolio rising_frame (equal_weights 1) 100000.

(** A table with a single observation of one asset. *)
Definition single_observation_frame : DataFrame :=
  mkFrame ["A"%string] [[1 / 100]].

Definition single_observation_portfolio : Portfolio :=
  mkPortfolio single_observation_frame (equal_weights 1) 100000.

(** A generator whose raw draws count upwards. *)
Definition counting_generator : Generator := fun k => k.

(** A generator whose first thousand raw draws are 0 and whose later
    draws are 1. *)
Definition block_generator : Generator :=
  fun k => if (k <? 1000)%nat then 0%nat else 1%nat.

(** Concrete stand-ins for the scipy functions, used where a statement
    is instantiated: an increasing function that vanishes at 1/2, a fit
    that always answers (3, 0, 1) and draws that are all 0. *)
Definition sample_ppf : R -> R := fun q => q - 1 / 2.
Definition sample_t_fit : list R -> R * R * R := fun _ => (3, 0, 1).
Definition sample_t_rvs : R * R * R -> RandomState -> R := fun _ _ => 0.

(** Three daily prices of one asset. *)
Definition sample_prices : DataFrame :=
  mkFrame ["A"%string] [[100]; [110]; [99]].

(** The standard deviations of the two columns of the hedged table. *)
Definition hedged_sigma (j : nat) : R :=
  sqrt (co_moment (column hedged_frame j) (column hedged_frame j) / INR 1).

(** A table of two columns with missing cells below the first row. *)
Definition sample_table : DataHandler.Table :=
  DataHandler.mkTable ["A"%string; "B"%string]
    [[Finite 1; Finite 5]; [NaN; Finite 2]; [Finite 3; NaN]].

(** * Properties *)

(** ** Maximum drawdown *)

Lemma expanding_max_from_nth (pre post : list R) (m x : R) :
  nth (length pre) (expanding_max_from m (pre ++ x :: post)) 0
  = Rmax m (fold_right Rmax x pre).
Proof.
  revert m; induction pre as [|a pre IH]; intro m; simpl.
  - reflexivity.
  - rewrite IH. rewrite Rmax_assoc. reflexivity.
Qed.

Lemma expanding_max_nth (pre post : list R) (x : R) :
  nth (length pre) (expanding_max (pre ++ x :: post)) 0
  = fold_right Rmax x pre.
Proof.
  destruct pre as [|a pre]; simpl.
  - reflexivity.
  - apply expanding_max_from_nth.
Qed.

Lemma cumprod_from_app (acc : R) (l1 l2 : list R) :
  cumprod_from acc (l1 ++ l2)
  = cumprod_from acc l1 ++ cumprod_from (fold_left Rmult l1 acc) l2.
Proof.
  revert acc; induction l1 as [|a l1 IH]; intro acc; simpl.
  - reflexivity.
  - rewrite IH. reflexivity.
Qed.

Lemma cumprod_from_length (acc : R) (l : list R) :
  length (cumprod_from acc l) = length l.
Proof.
  revert acc; induction l as [|x l IH]; intro acc; simpl;
    [|rewrite IH]; reflexivity.
Qed.

Lemma cell_div_finite (x y : R) : y <> 0 -> cell_div x y = Finite (x / y).
Proof.
  intro H. unfold cell_div. destruct (Req_dec_T y 0); [contradiction|reflexivity].
Qed.

Lemma max_drawdown_scenario :
  calculate_max_drawdown [10 / 100; - 20 / 100; 5 / 100] = Num (20 / 100).
Proof.
  unfold calculate_max_drawdown, cumprod, expanding_max, drawdown_series.
  simpl.
  replace (1 * (1 + 10 / 100)) with (11 / 10) by lra.
  replace (11 / 10 * (1 + - 20 / 100)) with (88 / 100) by lra.
  replace (88 / 100 * (1 + 5 / 100)) with (924 / 1000) by lra.
  rewrite (Rmax_left (11 / 10) (88 / 100)) by lra.
  rewrite (Rmax_left (11 / 10) (924 / 1000)) by lra.
  rewrite !cell_div_finite by lra. simpl.
  rewrite (Rmin_left ((88 / 100 - 11 / 10) / (11 / 10))) by lra.
  rewrite Rmin_right by lra.
  rewrite Rabs_left by lra. f_equal. lra.
Qed.

(** ** Sums and dot products *)

Lemma sum_map_zero {T : Type} (l : list T) : sum (map (fun _ => 0) l) = 0.
Proof. induction l as [|a l IH]; simpl; [|rewrite IH]; lra. Qed.

Lemma sum_map_ext {T : Type} (f g : T -> R) (l : list T) :
  (forall x, In x l -> f x = g x) -> sum (map f l) = sum (map g l).
Proof.
  induction l as [|a l IH]; intro H; simpl.
  - reflexivity.
  - rewrite (H a) by (left; reflexivity).
    rewrite IH by (intros; apply H; right; assumption).
    reflexivity.
Qed.

Lemma sum_map_plus {T : Type} (f g : T -> R) (l : list T) :
  sum (map (fun x => f x + g x) l) = sum (map f l) + sum (map g l).
Proof. induction l as [|a l IH]; simpl; [|rewrite IH]; lra. Qed.

Lemma sum_map_scale {T : Type} (c : R) (f : T -> R) (l : list T) :
  sum (map (fun x => c * f x) l) = c * sum (map f l).
Proof. induction l as [|a l IH]; simpl; [|rewrite IH]; lra. Qed.

Lemma sum_map_swap {A B : Type} (F : A -> B -> R) (la : list A)
      (lb : list B) :
  sum (map (fun a => sum (map (fun b => F a b) lb)) la)
  = sum (map (fun b => sum (map (fun a => F a b) la)) lb).
Proof.
  induction la as [|a la IH]; simpl.
  - rewrite sum_map_zero. reflexivity.
  - rewrite IH. symmetry.
    apply (sum_map_plus (fun b => F a b)
                        (fun b => sum (map (fun a' => F a' b) la))).
Qed.

Lemma sum_map_nonneg {T : Type} (f : T -> R) (l : list T) :
  (forall x, 0 <= f x) -> 0 <= sum (map f l).
Proof.
  intro H. induction l as [|a l IH]; simpl; [lra|].
  specialize (H a). lra.
Qed.

Lemma dot_comm (u v : vec) : dot u v = dot v u.
Proof.
  revert v; induction u as [|x u IH]; intros [|y v]; simpl; try reflexivity.
  rewrite IH. lra.
Qed.

Lemma dot_map_seq_l (f : nat -> R) (w : vec) :
  dot (map f (seq 0 (length w))) w
  = sum (map (fun j => f j * nth j w 0) (seq 0 (length w))).
Proof.
  revert f; induction w as [|x w IH]; intro f; simpl.
  - reflexivity.
  - rewrite <- seq_shift, !map_map. rewrite IH. reflexivity.
Qed.

Lemma dot_map_seq_r (g : nat -> R) (w : vec) :
  dot w (map g (seq 0 (length w)))
  = sum (map (fun i => nth i w 0 * g i) (seq 0 (length w))).
Proof.
  rewrite dot_comm, dot_map_seq_l.
  apply sum_map_ext; intros; lra.
Qed.

Lemma dot_as_sum (u w : vec) :
  length u = length w ->
  dot u w = sum (map (fun j => nth j u 0 * nth j w 0) (seq 0 (length w))).
Proof.
  revert w; induction u as [|x u IH]; intros [|y w] H; simpl in *;
    try discriminate; try reflexivity.
  rewrite <- seq_shift, map_map. rewrite IH by lia. reflexivity.
Qed.

Lemma dot_scale_l (c : R) (u w : vec) :
  dot (map (fun x => c * x) u) w = c * dot u w.
Proof.
  revert w; induction u as [|x u IH]; intros [|y w]; simpl; try lra.
  rewrite IH. lra.
Qed.

Lemma dot_scale_r (c : R) (u w : vec) :
  dot w (map (fun x => c * x) u) = c * dot w u.
Proof. rewrite dot_comm, dot_scale_l, dot_comm. reflexivity. Qed.

Lemma dot_vec_add_l (a b w : vec) :
  length a = length b -> dot (vec_add a b) w = dot a w + dot b w.
Proof.
  revert b w; induction a as [|x a IH]; intros [|y b] w H; simpl in *;
    try discriminate; try lra.
  destruct w as [|z w]; [lra|]. rewrite IH by lia. lra.
Qed.

Lemma dot_vec_add_r (a b w : vec) :
  length a = length b -> dot w (vec_add a b) = dot w a + dot w b.
Proof.
  intro H. rewrite dot_comm, dot_vec_add_l by assumption.
  rewrite (dot_comm a), (dot_comm b). reflexivity.
Qed.

(** ** Quadratic forms *)

Lemma quad_form_scale (c : R) (M : matrix) (w : vec) :
  quad_form (mat_scale c M) w = c * quad_form M w.
Proof.
  unfold quad_form, mat_vec, mat_scale. rewrite map_map.
  rewrite <- dot_scale_r, map_map.
  f_equal. apply map_ext. intro row. apply dot_scale_l.
Qed.

Lemma quad_form_outer (r w : vec) :
  quad_form (outer r) w = dot r w * dot r w.
Proof.
  unfold quad_form, mat_vec, outer. rewrite map_map.
  rewrite (map_ext _ (fun x => dot r w * x))
    by (intro x; rewrite dot_scale_l; lra).
  rewrite dot_scale_r, (dot_comm w r). reflexivity.
Qed.

Lemma mat_vec_add (n : nat) (A B : matrix) (w : vec) :
  Forall (fun row => length row = n) A ->
  Forall (fun row => length row = n) B ->
  mat_vec (mat_add A B) w = vec_add (mat_vec A w) (mat_vec B w).
Proof.
  intros HA; revert B; induction HA as [|a A Ha HA IH]; intros B HB; simpl.
  - reflexivity.
  - destruct HB as [|b B Hb HB]; simpl; [reflexivity|].
    rewrite dot_vec_add_l by congruence. f_equal. apply IH; assumption.
Qed.

Lemma quad_form_add (n : nat) (A B : matrix) (w : vec) :
  square n A -> square n B ->
  quad_form (mat_add A B) w = quad_form A w + quad_form B w.
Proof.
  intros [LA HA] [LB HB]. unfold quad_form.
  rewrite (mat_vec_add n) by assumption.
  apply dot_vec_add_r. unfold mat_vec. rewrite !length_map.
  transitivity n; [exact LA | symmetry; exact LB].
Qed.

(** ** The sample covariance *)

Lemma combine_map_same {T : Type} (f g : T -> R) (l : list T) :
  combine (map f l) (map g l) = map (fun x => (f x, g x)) l.
Proof. induction l as [|a l IH]; simpl; [|rewrite IH]; reflexivity. Qed.

Lemma co_moment_columns (df : DataFrame) (i j : nat) :
  co_moment (column df i) (column df j)
  = sum (map (fun r => deviation df r i * deviation df r j) (rows df)).
Proof.
  unfold co_moment, column at 3 4. rewrite combine_map_same, map_map.
  reflexivity.
Qed.

Lemma co_moment_sym (x y : list R) : co_moment x y = co_moment y x.
Proof.
  unfold co_moment. generalize (mean x) (mean y). intros mx my.
  revert y; induction x as [|a x IH]; intros [|b y]; simpl; try reflexivity.
  rewrite IH. lra.
Qed.

Lemma sum_map_scale_r {T : Type} (c : R) (f : T -> R) (l : list T) :
  sum (map f l) * c = sum (map (fun x => f x * c) l).
Proof. induction l as [|a l IH]; simpl; [|rewrite <- IH]; lra. Qed.

(** The quadratic form of the sample covariance is a sum of squares. *)
Lemma cov_quad_form (df : DataFrame) (w : vec) :
  length w = n_cols df ->
  quad_form (cov_matrix_of df) w
  = / INR (n_rows df - 1)
    * sum (map (fun r =>
                  Rsqr (sum (map (fun j => deviation df r j * nth j w 0)
                                 (seq 0 (n_cols df)))))
               (rows df)).
Proof.
  intro Hw. unfold quad_form, mat_vec, cov_matrix_of. rewrite map_map.
  rewrite <- Hw. rewrite dot_map_seq_r.
  set (k := / INR (n_rows df - 1)).
  set (idx := seq 0 (length w)).
  set (proj := fun r => sum (map (fun j => deviation df r j * nth j w 0) idx)).
  transitivity
    (sum (map (fun i =>
                 sum (map (fun r => k * (nth i w 0 * deviation df r i) * proj r)
                          (rows df))) idx)).
  - apply sum_map_ext. intros i _. fold idx. unfold idx at 1.
    rewrite dot_map_seq_l. fold idx.
    rewrite <- sum_map_scale.
    rewrite (sum_map_ext _
               (fun j => sum (map (fun r => nth i w 0 * k * deviation df r i
                                            * (deviation df r j * nth j w 0))
                                  (rows df)))).
    + rewrite sum_map_swap. apply sum_map_ext. intros r _.
      unfold proj. rewrite <- sum_map_scale.
      apply sum_map_ext. intros j _. lra.
    + intros j _. rewrite co_moment_columns. fold k.
      unfold Rdiv. fold k.
      match goal with
      | |- _ * (?S * _ * _) = _ =>
          transitivity (S * (nth i w 0 * k * nth j w 0)); [ring|]
      end.
      rewrite sum_map_scale_r. apply sum_map_ext. intros r _. ring.
  - rewrite sum_map_swap. rewrite <- sum_map_scale.
    apply sum_map_ext. intros r _.
    rewrite (sum_map_ext _ (fun i => (k * proj r)
                                     * (deviation df r i * nth i w 0)))
      by (intros; lra).
    rewrite sum_map_scale. fold (proj r). unfold Rsqr. lra.
Qed.

(** ** Shapes and symmetry *)

Lemma nth_nil_R (j : nat) : nth j (@nil R) 0 = 0.
Proof. destruct j; reflexivity. Qed.

Lemma nth_map_seq {T : Type} (f : nat -> T) (n i : nat) (d : T) :
  (i < n)%nat -> nth i (map f (seq 0 n)) d = f i.
Proof.
  intro H. rewrite (nth_indep _ d (f 0%nat)) by (rewrite length_map, length_seq; lia).
  rewrite map_nth, seq_nth by lia. reflexivity.
Qed.

Lemma nth_map_scale (c : R) (row : list R) (j : nat) :
  nth j (map (fun x => c * x) row) 0 = c * nth j row 0.
Proof.
  revert j; induction row as [|x row IH]; intros [|j]; simpl; try lra.
  apply IH.
Qed.

Lemma entry_scale (c : R) (M : matrix) (i j : nat) :
  entry (mat_scale c M) i j = c * entry M i j.
Proof.
  unfold entry, mat_scale.
  change (@nil R) with (map (fun x => c * x) (@nil R)) at 1.
  rewrite map_nth. apply nth_map_scale.
Qed.

Lemma nth_vec_add (a b : vec) (j : nat) :
  length a = length b ->
  nth j (vec_add a b) 0 = nth j a 0 + nth j b 0.
Proof.
  revert b j; induction a as [|x a IH]; intros [|y b] j H; simpl in *;
    try discriminate.
  - destruct j; lra.
  - destruct j; [reflexivity|]. apply IH. lia.
Qed.

Lemma nth_mat_add (A B : matrix) (i : nat) :
  length A = length B ->
  nth i (mat_add A B) [] = vec_add (nth i A []) (nth i B []).
Proof.
  revert B i; induction A as [|a A IH]; intros [|b B] i H; simpl in *;
    try discriminate.
  - destruct i; reflexivity.
  - destruct i; [reflexivity|]. apply IH. lia.
Qed.

Lemma square_row (n : nat) (M : matrix) (i : nat) :
  square n M -> (i < n)%nat -> length (nth i M []) = n.
Proof.
  intros [L H] Hi. rewrite Forall_forall in H. apply H.
  apply nth_In. rewrite L. exact Hi.
Qed.

Lemma entry_add (n : nat) (A B : matrix) (i j : nat) :
  square n A -> square n B ->
  entry (mat_add A B) i j = entry A i j + entry B i j.
Proof.
  intros HA HB. unfold entry.
  rewrite nth_mat_add
    by (destruct HA as [LA _], HB as [LB _];
        transitivity n; [exact LA | symmetry; exact LB]).
  apply nth_vec_add.
  destruct (lt_dec i n) as [Hi|Hi].
  - rewrite (square_row n A), (square_row n B) by assumption. reflexivity.
  - destruct HA as [LA _], HB as [LB _].
    rewrite !nth_overflow by lia. reflexivity.
Qed.

Lemma entry_outer (r : vec) (i j : nat) :
  entry (outer r) i j = nth i r 0 * nth j r 0.
Proof.
  unfold entry, outer.
  destruct (lt_dec i (length r)) as [Hi|Hi].
  - rewrite (nth_indep _ [] (map (fun y => 0 * y) r))
      by (rewrite length_map; exact Hi).
    rewrite (map_nth (fun x => map (fun y => x * y) r)).
    apply nth_map_scale.
  - rewrite (nth_overflow (map _ r)) by (rewrite length_map; lia).
    rewrite (nth_overflow r (n := i)) by lia.
    rewrite nth_nil_R. lra.
Qed.

Lemma entry_cov (df : DataFrame) (i j : nat) :
  entry (cov_matrix_of df) i j
  = if (i <? n_cols df)%nat && (j <? n_cols df)%nat
    then co_moment (column df i) (column df j) / INR (n_rows df - 1)
    else 0.
Proof.
  unfold entry, cov_matrix_of.
  destruct (Nat.ltb_spec i (n_cols df)) as [Hi|Hi]; simpl.
  - rewrite nth_map_seq by exact Hi.
    destruct (Nat.ltb_spec j (n_cols df)) as [Hj|Hj].
    + apply (nth_map_seq
               (fun j => co_moment (column df i) (column df j)
                         / INR (n_rows df - 1))).
      exact Hj.
    + apply nth_overflow. rewrite length_map, length_seq. exact Hj.
  - rewrite (nth_overflow (map _ _)) by (rewrite length_map, length_seq; lia).
    apply nth_nil_R.
Qed.

Lemma square_cov (df : DataFrame) : square (n_cols df) (cov_matrix_of df).
Proof.
  unfold square, cov_matrix_of. split.
  - rewrite length_map, length_seq. reflexivity.
  - apply Forall_forall. intros row Hrow.
    apply in_map_iff in Hrow. destruct Hrow as [i [<- _]].
    rewrite length_map, length_seq. reflexivity.
Qed.

Lemma square_scale (c : R) (n : nat) (M : matrix) :
  square n M -> square n (mat_scale c M).
Proof.
  intros [L H]. unfold square, mat_scale. split.
  - rewrite length_map. exact L.
  - apply Forall_forall. intros row Hrow.
    apply in_map_iff in Hrow. destruct Hrow as [row' [<- Hin]].
    rewrite length_map. rewrite Forall_forall in H. apply H. exact Hin.
Qed.

Lemma square_outer (r : vec) : square (length r) (outer r).
Proof.
  unfold square, outer. split.
  - apply length_map.
  - apply Forall_forall. intros row Hrow.
    apply in_map_iff in Hrow. destruct Hrow as [x [<- _]].
    apply length_map.
Qed.

Lemma length_vec_add (a b : vec) :
  length a = length b -> length (vec_add a b) = length a.
Proof.
  revert b; induction a as [|x a IH]; intros [|y b] H; simpl in *;
    try discriminate; try reflexivity.
  f_equal. apply IH. lia.
Qed.

Lemma length_mat_add (A B : matrix) :
  length A = length B -> length (mat_add A B) = length A.
Proof.
  revert B; induction A as [|a A IH]; intros [|b B] H; simpl in *;
    try discriminate; try reflexivity.
  f_equal. apply IH. lia.
Qed.

Lemma rows_mat_add (n : nat) (A B : matrix) :
  Forall (fun row => length row = n) A ->
  Forall (fun row => length row = n) B ->
  Forall (fun row => length row = n) (mat_add A B).
Proof.
  intro HA; revert B; induction HA as [|a A Ha HA IH]; intros B HB; simpl.
  - constructor.
  - destruct HB as [|b B Hb HB]; constructor.
    + rewrite length_vec_add; [exact Ha|]. rewrite Ha, Hb. reflexivity.
    + apply IH. exact HB.
Qed.

Lemma square_add (n : nat) (A B : matrix) :
  square n A -> square n B -> square n (mat_add A B).
Proof.
  intros [LA HA] [LB HB]. split.
  - rewrite length_mat_add; [exact LA|].
    transitivity n; [exact LA | symmetry; exact LB].
  - apply rows_mat_add; assumption.
Qed.

(** ** EWMA covariance: symmetric and positive semi-definite *)

Lemma covariance_like_sample (df : DataFrame) :
  (2 <= n_rows df)%nat -> covariance_like (n_cols df) (cov_matrix_of df).
Proof.
  intro Hn. split; [apply square_cov|split].
  - intros i j. rewrite !entry_cov, (co_moment_sym (column df i)).
    rewrite (andb_comm (i <? n_cols df)%nat). reflexivity.
  - intros w Hw. rewrite cov_quad_form by exact Hw.
    apply Rmult_le_pos.
    + left. apply Rinv_0_lt_compat. apply lt_0_INR. lia.
    + apply sum_map_nonneg. intro r. apply Rle_0_sqr.
Qed.

Lemma covariance_like_scale (c : R) (n : nat) (M : matrix) :
  0 <= c -> covariance_like n M -> covariance_like n (mat_scale c M).
Proof.
  intros Hc [Hsq [Hsym Hpsd]]. split; [apply square_scale; exact Hsq|split].
  - intros i j. rewrite !entry_scale, Hsym. reflexivity.
  - intros w Hw. rewrite quad_form_scale.
    apply Rmult_le_pos; [exact Hc|apply Hpsd; exact Hw].
Qed.

Lemma covariance_like_outer (r : vec) : covariance_like (length r) (outer r).
Proof.
  split; [apply square_outer|split].
  - intros i j. rewrite !entry_outer. apply Rmult_comm.
  - intros w _. rewrite quad_form_outer.
    apply Rle_0_sqr.
Qed.

Lemma covariance_like_add (n : nat) (A B : matrix) :
  covariance_like n A -> covariance_like n B ->
  covariance_like n (mat_add A B).
Proof.
  intros [SA [YA PA]] [SB [YB PB]].
  split; [apply square_add; assumption|split].
  - intros i j. rewrite !(entry_add n) by assumption.
    rewrite YA, YB. reflexivity.
  - intros w Hw. rewrite (quad_form_add n) by assumption.
    specialize (PA w Hw). specialize (PB w Hw). lra.
Qed.

Lemma covariance_like_step (lambda_param : R) (n : nat) (C : matrix)
      (r : vec) :
  0 <= lambda_param <= 1 -> length r = n ->
  covariance_like n C -> covariance_like n (ewma_step lambda_param C r).
Proof.
  intros [H0 H1] Hr HC. unfold ewma_step. apply covariance_like_add.
  - apply covariance_like_scale; assumption.
  - apply covariance_like_scale; [lra|].
    rewrite <- Hr. apply covariance_like_outer.
Qed.

(** The loop over [range(1, n_obs)] with [iloc[i]] visits the rows after
    the first one in chronological order. *)
Lemma fold_iloc {T : Type} (f : T -> list R -> T) (pre l : list (list R))
      (c : T) :
  fold_left (fun C i => f C (nth i (pre ++ l) []))
            (seq (length pre) (length l)) c
  = fold_left f l c.
Proof.
  revert pre c; induction l as [|r l IH]; intros pre c; simpl.
  - reflexivity.
  - rewrite app_nth2, Nat.sub_diag by lia. simpl.
    specialize (IH (pre ++ [r]) (f c r)).
    rewrite length_app, <- app_assoc in IH. simpl in IH.
    rewrite Nat.add_1_r in IH. exact IH.
Qed.

Lemma ewma_loop_rows (lambda_param : R) (df : DataFrame) (C0 : matrix) :
  fold_left (fun C i => ewma_step lambda_param C (iloc df i))
            (seq 1 (n_rows df - 1)) C0
  = fold_left (ewma_step lambda_param) (tl (rows df)) C0.
Proof.
  unfold iloc, n_rows. destruct (rows df) as [|r0 l]; simpl.
  - reflexivity.
  - rewrite Nat.sub_0_r. apply (fold_iloc (ewma_step lambda_param) [r0] l).
Qed.

Lemma covariance_like_fold (lambda_param : R) (n : nat) (l : list (list R))
      (C : matrix) :
  0 <= lambda_param <= 1 ->
  Forall (fun r => length r = n) l ->
  covariance_like n C ->
  covariance_like n (fold_left (ewma_step lambda_param) l C).
Proof.
  intros Hl Hrows; revert C; induction Hrows as [|r l Hr Hrows IH];
    intros C HC; simpl.
  - exact HC.
  - apply IH. apply covariance_like_step; assumption.
Qed.

(** C8: on a table of N columns with at least two observations, the EWMA
    estimator starts from the sample covariance times 252, folds the update
    [Cov <- 0.94 Cov + (1 - 0.94) r r^T] over the observations after the
    first in chronological order, with [r] the raw return row, and the
    resulting N x N matrix is symmetric and positive semi-definite. *)
Theorem ewma_covariance_contract (df : DataFrame) :
  well_formed df ->
  (2 <= n_rows df)%nat ->
  exists M : matrix,
    calculate_ewma_covariance df = Num M
    /\ M = fold_left
             (fun C r =>
                mat_add (mat_scale (94 / 100) C)
                        (mat_scale (1 - 94 / 100) (outer r)))
             (tl (rows df))
             (mat_scale 252 (cov_matrix_of df))
    /\ cov df = Num (cov_matrix_of df)
    /\ square (n_cols df) M
    /\ symmetric M
    /\ positive_semi_definite (n_cols df) M.
Proof.
  intros Hwf Hn.
  assert (Hcov : cov df = Num (cov_matrix_of df)).
  { unfold cov. destruct (Nat.leb_spec (n_rows df) 1); [lia|reflexivity]. }
  eexists. split; [|split; [reflexivity|split; [exact Hcov|]]].
  - unfold calculate_ewma_covariance, calculate_ewma_covariance_with, dropna.
    rewrite Hcov. simpl. rewrite ewma_loop_rows. reflexivity.
  - apply (covariance_like_fold (94 / 100)).
    + lra.
    + unfold well_formed in Hwf. destruct (rows df); simpl;
        [constructor|inversion Hwf; assumption].
    + apply covariance_like_scale; [lra|].
      apply covariance_like_sample. exact Hn.
Qed.

(** ** Component VaR *)

Lemma dict_set_fresh (d : dict) (k : string) (v : result R) :
  ~ In k (dict_keys d) -> dict_set d k v = d ++ [(k, v)].
Proof.
  induction d as [|[k' v'] d IH]; intro H; simpl in *.
  - reflexivity.
  - destruct (String.eqb_spec k' k) as [->|Hne].
    + exfalso. apply H. left. reflexivity.
    + rewrite IH; [reflexivity|]. intro Hin. apply H. right. exact Hin.
Qed.

Lemma fold_dict_set_fresh (f : nat -> result R) (l : list (nat * string))
      (d : dict) :
  NoDup (dict_keys d ++ map snd l) ->
  fold_left (fun acc ia => dict_set acc (snd ia) (f (fst ia))) l d
  = d ++ map (fun ia => (snd ia, f (fst ia))) l.
Proof.
  revert d; induction l as [|[i a] l IH]; intros d H; simpl.
  - rewrite app_nil_r. reflexivity.
  - simpl in H. rewrite dict_set_fresh.
    + rewrite IH.
      * rewrite <- app_assoc. reflexivity.
      * unfold dict_keys. rewrite map_app. simpl.
        rewrite <- app_assoc. simpl. exact H.
    + apply NoDup_remove_2 in H. intro Hin. apply H.
      apply in_or_app. left. exact Hin.
Qed.

Lemma combine_seq_columns (cols : list string) (s : nat) :
  map fst (combine (seq s (length cols)) cols) = seq s (length cols)
  /\ map snd (combine (seq s (length cols)) cols) = cols.
Proof.
  revert s; induction cols as [|c cols IH]; intro s; simpl.
  - split; reflexivity.
  - destruct (IH (S s)) as [H1 H2]. rewrite H1, H2. split; reflexivity.
Qed.

(** With distinct labels the mapping has one entry per column, in the
    order of the columns. *)
Lemma component_var_dict (rc : RiskCalculator) (df : DataFrame) :
  NoDup (columns df) ->
  calculate_component_var rc df
  = map (fun ia => (snd ia, component_var_of rc df (fst ia)))
        (combine (seq 0 (n_cols df)) (columns df)).
Proof.
  intro Hnd. unfold calculate_component_var, n_cols.
  destruct (combine_seq_columns (columns df) 0) as [H1 H2].
  rewrite fold_dict_set_fresh by (simpl; rewrite H2; exact Hnd).
  reflexivity.
Qed.

Lemma component_var_entries (rc : RiskCalculator) (df : DataFrame) :
  NoDup (columns df) ->
  dict_keys (calculate_component_var rc df) = columns df
  /\ dict_values (calculate_component_var rc df)
     = map (component_var_of rc df) (seq 0 (n_cols df)).
Proof.
  intro Hnd. rewrite component_var_dict by exact Hnd.
  destruct (combine_seq_columns (columns df) 0) as [H1 H2].
  unfold dict_keys, dict_values, n_cols. rewrite !map_map. simpl.
  split.
  - exact H2.
  - rewrite <- H1 at 2. rewrite map_map. reflexivity.
Qed.

Lemma cov_two_rows (df : DataFrame) :
  (2 <= n_rows df)%nat -> cov df = Num (cov_matrix_of df).
Proof.
  intro Hn. unfold cov.
  destruct (Nat.leb_spec (n_rows df) 1); [lia|reflexivity].
Qed.

Lemma np_sqrt_nonneg (x : R) : 0 <= x -> np_sqrt x = Num (sqrt x).
Proof.
  intro H. unfold np_sqrt. destruct (Rlt_dec x 0); [lra|reflexivity].
Qed.

Lemma np_div_nonzero (x y : R) : y <> 0 -> np_div x y = Num (x / y).
Proof.
  intro H. unfold np_div. destruct (Req_dec_T y 0); [contradiction|reflexivity].
Qed.

Lemma np_div_zero (x : R) : np_div x 0 = NotFinite.
Proof.
  unfold np_div. destruct (Req_dec_T 0 0); [reflexivity|contradiction].
Qed.

Lemma component_var_of_positive (rc : RiskCalculator) (df : DataFrame)
      (i : nat) :
  (2 <= n_rows df)%nat ->
  0 < quad_form (mat_scale 252 (cov_matrix_of df)) (weights (portfolio rc)) ->
  component_var_of rc df i
  = Num (nth i (weights (portfolio rc)) 0
         * (dot (nth i (mat_scale 252 (cov_matrix_of df)) [])
                (weights (portfolio rc))
            / sqrt (quad_form (mat_scale 252 (cov_matrix_of df))
                              (weights (portfolio rc))))
         * value (portfolio rc)).
Proof.
  intros Hn Hq. unfold component_var_of, get_weights.
  rewrite cov_two_rows by exact Hn. simpl.
  rewrite np_sqrt_nonneg by lra. simpl.
  rewrite np_div_nonzero; [reflexivity|].
  apply Rgt_not_eq. apply sqrt_lt_R0. exact Hq.
Qed.

Lemma quad_form_as_sum (n : nat) (M : matrix) (w : vec) :
  length M = n -> length w = n ->
  quad_form M w
  = sum (map (fun i => nth i w 0 * dot (nth i M []) w) (seq 0 n)).
Proof.
  intros LM Lw. unfold quad_form.
  rewrite dot_as_sum
    by (unfold mat_vec; rewrite length_map;
        transitivity n; [exact Lw | symmetry; exact LM]).
  unfold mat_vec. rewrite length_map, LM.
  apply sum_map_ext. intros i _. f_equal.
  apply (map_nth (fun row => dot row w) M []).
Qed.

(** Euler's identity for the decomposition. *)
Lemma component_var_sum (rc : RiskCalculator) (df : DataFrame) :
  length (weights (portfolio rc)) = n_cols df ->
  NoDup (columns df) ->
  (2 <= n_rows df)%nat ->
  0 < quad_form (mat_scale 252 (cov_matrix_of df)) (weights (portfolio rc)) ->
  exists component_vars : list R,
    dict_values (calculate_component_var rc df) = map Num component_vars
    /\ sum component_vars
       = sqrt (quad_form (mat_scale 252 (cov_matrix_of df))
                         (weights (portfolio rc)))
         * value (portfolio rc).
Proof.
  intros Hw Hnd Hn Hq.
  set (w := weights (portfolio rc)) in *.
  set (C := mat_scale 252 (cov_matrix_of df)) in *.
  set (pv := sqrt (quad_form C w)).
  destruct (component_var_entries rc df Hnd) as [_ Hv].
  exists (map (fun i => nth i w 0 * (dot (nth i C []) w / pv)
                        * value (portfolio rc))
              (seq 0 (n_cols df))).
  split.
  - rewrite Hv, map_map. apply map_ext. intro i.
    apply component_var_of_positive; assumption.
  - rewrite (sum_map_ext _
               (fun i => (/ pv * value (portfolio rc))
                         * (nth i w 0 * dot (nth i C []) w)))
      by (intros; unfold Rdiv; ring).
    rewrite sum_map_scale.
    rewrite <- (quad_form_as_sum (n_cols df) C w).
    + assert (Hpv : 0 < pv) by (apply sqrt_lt_R0; exact Hq).
      rewrite <- (sqrt_sqrt (quad_form C w)) by lra. fold pv.
      field. lra.
    + unfold C, mat_scale. rewrite length_map.
      apply (proj1 (square_cov df)).
    + exact Hw.
Qed.

(** C6 (amended): with strictly positive portfolio volatility, distinct
    asset labels and at least two observations, the component VaR values
    sum exactly to [portfolioVol * portfolioValue], where [portfolioVol] is
    the square root of the quadratic form of the annualized sample
    covariance (Euler's identity); the sum is therefore within every
    relative tolerance of that total, which carries no quantile, horizon or
    EWMA factor. *)
Theorem component_var_sums_to_total (rc : RiskCalculator) (df : DataFrame) :
  length (weights (portfolio rc)) = n_cols df ->
  NoDup (columns df) ->
  (2 <= n_rows df)%nat ->
  0 < quad_form (mat_scale 252 (cov_matrix_of df)) (weights (portfolio rc)) ->
  let portfolio_vol :=
    sqrt (quad_form (mat_scale 252 (cov_matrix_of df))
                    (weights (portfolio rc))) in
  let total := portfolio_vol * value (portfolio rc) in
  exists component_vars : list R,
    dict_keys (calculate_component_var rc df) = columns df
    /\ dict_values (calculate_component_var rc df) = map Num component_vars
    /\ sum component_vars = total
    /\ forall tol, 0 <= tol ->
         Rabs (sum component_vars - total) <= tol * Rabs total.
Proof.
  intros Hw Hnd Hn Hq pv total.
  destruct (component_var_sum rc df Hw Hnd Hn Hq) as [xs [Hv Hsum]].
  destruct (component_var_entries rc df Hnd) as [Hk _].
  exists xs. fold pv in Hsum. fold total in Hsum.
  split; [exact Hk|split; [exact Hv|split; [exact Hsum|]]].
  intros tol Htol. rewrite Hsum.
  replace (total - total) with 0 by ring. rewrite Rabs_R0.
  apply Rmult_le_pos; [exact Htol|apply Rabs_pos].
Qed.

(** ** A worked portfolio *)

Lemma hedged_cov :
  mat_scale 252 (cov_matrix_of hedged_frame)
  = [[504 / 10000; - 1512 / 10000]; [- 1512 / 10000; 4536 / 10000]].
Proof.
  unfold mat_scale, cov_matrix_of, co_moment, column, mean, hedged_frame.
  simpl. repeat (f_equal; try lra).
Qed.

Lemma hedged_weights : weights hedged_portfolio = [1 / 2; 1 / 2].
Proof.
  unfold hedged_portfolio, equal_weights. simpl.
  replace (1 / (1 + 1)) with (1 / 2) by lra. reflexivity.
Qed.

Lemma hedged_quad_form :
  quad_form (mat_scale 252 (cov_matrix_of hedged_frame))
            (weights (portfolio hedged_calculator))
  = 504 / 10000.
Proof.
  rewrite hedged_cov. unfold hedged_calculator. simpl portfolio.
  rewrite hedged_weights. unfold quad_form, mat_vec. simpl. lra.
Qed.

Lemma hedged_columns_distinct : NoDup (columns hedged_frame).
Proof.
  simpl. constructor.
  - intros [H|[]]. discriminate.
  - constructor; [intros []|constructor].
Qed.

Lemma hedged_consistent : consistent hedged_portfolio.
Proof.
  split.
  - unfold well_formed. simpl. repeat constructor.
  - reflexivity.
Defined.

Lemma hedged_two_rows : (2 <= n_rows (returns_data hedged_portfolio))%nat.
Proof. unfold n_rows. simpl. lia. Defined.


(** ** Sorting and percentiles *)

Lemma floor_nat_spec (x : R) :
  0 <= x -> INR (floor_nat x) <= x < INR (floor_nat x) + 1.
Proof.
  intro Hx. unfold floor_nat.
  destruct (base_Int_part x) as [H1 H2].
  assert (Hz : (0 <= Int_part x)%Z).
  { apply Z.lt_succ_r. apply lt_IZR. rewrite succ_IZR. lra. }
  rewrite INR_IZR_INZ, Z2Nat.id by exact Hz. lra.
Qed.

Lemma floor_nat_unique (x : R) (k : nat) :
  INR k <= x < INR k + 1 -> floor_nat x = k.
Proof.
  intros [H1 H2].
  assert (Hx : 0 <= x) by (pose proof (pos_INR k); lra).
  destruct (floor_nat_spec x Hx) as [F1 F2].
  apply Nat.le_antisymm.
  - apply Nat.lt_succ_r. apply INR_lt. rewrite S_INR. lra.
  - apply Nat.lt_succ_r. apply INR_lt. rewrite S_INR. lra.
Qed.

Lemma floor_nat_le (x : R) (k : nat) :
  0 <= x <= INR k -> (floor_nat x <= k)%nat.
Proof.
  intros [H0 H1]. destruct (floor_nat_spec x H0) as [F1 _].
  apply INR_le. lra.
Qed.

Lemma floor_nat_mono (x y : R) :
  0 <= x <= y -> (floor_nat x <= floor_nat y)%nat.
Proof.
  intros [H0 H1].
  destruct (floor_nat_spec x H0) as [F1 _].
  destruct (floor_nat_spec y) as [_ G2]; [lra|].
  apply Nat.lt_succ_r. apply INR_lt. rewrite S_INR. lra.
Qed.

Lemma length_insert_sorted (x : R) (l : list R) :
  length (insert_sorted x l) = S (length l).
Proof.
  induction l as [|y l IH]; simpl; [reflexivity|].
  destruct (Rle_dec x y); simpl; [reflexivity|rewrite IH; reflexivity].
Qed.

Lemma length_sort (l : list R) : length (sort l) = length l.
Proof.
  induction l as [|x l IH]; simpl; [reflexivity|].
  rewrite length_insert_sorted, IH. reflexivity.
Qed.

Lemma insert_sorted_perm (x : R) (l : list R) :
  Permutation (x :: l) (insert_sorted x l).
Proof.
  induction l as [|y l IH]; simpl; [apply Permutation_refl|].
  destruct (Rle_dec x y); [apply Permutation_refl|].
  eapply Permutation_trans; [apply perm_swap|].
  apply perm_skip. exact IH.
Qed.

Lemma sort_perm (l : list R) : Permutation l (sort l).
Proof.
  induction l as [|x l IH]; simpl; [constructor|].
  eapply Permutation_trans; [|apply insert_sorted_perm].
  apply perm_skip. exact IH.
Qed.

Lemma insert_sorted_sorted (x : R) (l : list R) :
  StronglySorted Rle l -> StronglySorted Rle (insert_sorted x l).
Proof.
  induction 1 as [|y l Hs IH Hy]; simpl.
  - constructor; constructor.
  - destruct (Rle_dec x y) as [Hxy|Hxy].
    + constructor; [constructor; assumption|].
      constructor; [exact Hxy|].
      eapply Forall_impl; [|exact Hy]. intros z Hz. simpl in Hz. lra.
    + constructor; [exact IH|].
      eapply Permutation_Forall; [apply insert_sorted_perm|].
      constructor; [lra|exact Hy].
Qed.

Lemma sort_sorted (l : list R) : StronglySorted Rle (sort l).
Proof.
  induction l as [|x l IH]; simpl; [constructor|].
  apply insert_sorted_sorted. exact IH.
Qed.

Lemma insert_sorted_head (x : R) (l : list R) :
  Forall (Rle x) l -> insert_sorted x l = x :: l.
Proof.
  intro H. destruct H as [|y l Hy H]; simpl; [reflexivity|].
  destruct (Rle_dec x y); [reflexivity|contradiction].
Qed.

(** Sorting leaves a sorted sample as it is. *)
Lemma sort_of_sorted (l : list R) : StronglySorted Rle l -> sort l = l.
Proof.
  induction 1 as [|x l Hs IH Hx]; simpl; [reflexivity|].
  rewrite IH. apply insert_sorted_head. exact Hx.
Qed.

Lemma sorted_nth_le (s : list R) (i j : nat) :
  StronglySorted Rle s -> (i <= j < length s)%nat ->
  nth i s 0 <= nth j s 0.
Proof.
  intro Hs; revert i j; induction Hs as [|x s Hs IH Hx]; intros i j [Hij Hj];
    simpl in *; [lia|].
  destruct i as [|i], j as [|j]; try lia; try lra.
  - rewrite Forall_forall in Hx. apply Hx. apply nth_In. lia.
  - apply IH. lia.
Qed.

Lemma percentile_in_range (a : list R) (q : R) :
  a <> [] -> 0 <= q <= 100 ->
  percentile a q = Num (interpolate (sort a) (q / 100 * INR (length a - 1))).
Proof.
  intros Ha [H0 H1]. unfold percentile.
  destruct (Rle_dec 0 q); [|contradiction].
  destruct (Rle_dec q 100); [|contradiction].
  destruct a as [|x a]; [contradiction|].
  rewrite length_sort. reflexivity.
Qed.

Lemma percentile_out_of_range (a : list R) (q : R) :
  q < 0 \/ 100 < q -> percentile a q = Raised ValueError.
Proof.
  intros H. unfold percentile.
  destruct (Rle_dec 0 q); [|reflexivity].
  destruct (Rle_dec q 100); [lra|reflexivity].
Qed.

Lemma virtual_index_bounds (q : R) (n : nat) :
  0 <= q <= 100 -> 0 <= q / 100 * INR n <= INR n.
Proof.
  intros [H0 H1]. pose proof (pos_INR n). split.
  - apply Rmult_le_pos; lra.
  - replace (INR n) with (1 * INR n) at 2 by ring.
    apply Rmult_le_compat_r; lra.
Qed.

(** Interpolating in a sample whose cells all equal [c] gives [c]. *)
Lemma interpolate_constant (c : R) (s : list R) (v : R) :
  Forall (eq c) s -> 0 <= v <= INR (length s - 1) -> s <> [] ->
  interpolate s v = c.
Proof.
  intros Hc Hv Hs. unfold interpolate.
  assert (Hlen : (0 < length s)%nat) by (destruct s; simpl; [contradiction|lia]).
  pose proof (floor_nat_le v (length s - 1) Hv) as Hf.
  rewrite Forall_forall in Hc.
  rewrite <- (Hc (nth (floor_nat v) s 0)) by (apply nth_In; lia).
  rewrite <- (Hc (nth (Nat.min (floor_nat v + 1) (length s - 1)) s 0))
    by (apply nth_In; lia).
  ring.
Qed.

(** On a sorted sample the interpolated value lies between the order
    statistics at the floor of the index and at the next index. *)
Lemma interpolate_between (s : list R) (v : R) :
  StronglySorted Rle s -> 0 <= v <= INR (length s - 1) -> s <> [] ->
  nth (floor_nat v) s 0 <= interpolate s v
  <= nth (Nat.min (floor_nat v + 1) (length s - 1)) s 0.
Proof.
  intros Hs Hv Hne. unfold interpolate.
  assert (Hlen : (0 < length s)%nat) by (destruct s; simpl; [contradiction|lia]).
  pose proof (floor_nat_le v (length s - 1) Hv) as Hf.
  destruct (floor_nat_spec v (proj1 Hv)) as [F1 F2].
  assert (Hle : nth (floor_nat v) s 0
                <= nth (Nat.min (floor_nat v + 1) (length s - 1)) s 0)
    by (apply sorted_nth_le; [exact Hs|lia]).
  split; nra.
Qed.

(** The interpolated order statistic is weakly increasing in the index. *)
Lemma interpolate_mono (s : list R) (v1 v2 : R) :
  StronglySorted Rle s -> s <> [] ->
  0 <= v1 -> v1 <= v2 -> v2 <= INR (length s - 1) ->
  interpolate s v1 <= interpolate s v2.
Proof.
  intros Hs Hne H0 H12 H2.
  assert (Hlen : (0 < length s)%nat) by (destruct s; simpl; [contradiction|lia]).
  assert (Hv1 : 0 <= v1 <= INR (length s - 1)) by lra.
  assert (Hv2 : 0 <= v2 <= INR (length s - 1)) by lra.
  pose proof (floor_nat_mono v1 v2 (conj H0 H12)) as Hm.
  pose proof (floor_nat_le v2 (length s - 1) Hv2) as Hf2.
  destruct (Nat.eq_dec (floor_nat v1) (floor_nat v2)) as [He|Hne12].
  - unfold interpolate. rewrite He.
    assert (Hle : nth (floor_nat v2) s 0
                  <= nth (Nat.min (floor_nat v2 + 1) (length s - 1)) s 0)
      by (apply sorted_nth_le; [exact Hs|lia]).
    nra.
  - apply Rle_trans
      with (nth (Nat.min (floor_nat v1 + 1) (length s - 1)) s 0).
    + apply (interpolate_between s v1 Hs Hv1 Hne).
    + apply Rle_trans with (nth (floor_nat v2) s 0).
      * apply sorted_nth_le; [exact Hs|lia].
      * apply (interpolate_between s v2 Hs Hv2 Hne).
Qed.

(** [np.percentile] is weakly increasing in [q]. *)
Lemma percentile_mono (a : list R) (q1 q2 : R) :
  a <> [] -> 0 <= q1 -> q1 <= q2 -> q2 <= 100 ->
  exists p1 p2,
    percentile a q1 = Num p1 /\ percentile a q2 = Num p2 /\ p1 <= p2.
Proof.
  intros Ha H0 H12 H2.
  rewrite !percentile_in_range by (try exact Ha; lra).
  do 2 eexists. split; [reflexivity|split; [reflexivity|]].
  assert (Hne : sort a <> []).
  { intro E. apply Ha. apply length_zero_iff_nil.
    rewrite <- length_sort, E. reflexivity. }
  pose proof (pos_INR (length a - 1)) as Hpos.
  apply interpolate_mono; try (apply sort_sorted); try exact Hne.
  - apply Rmult_le_pos; lra.
  - apply Rmult_le_compat_r; lra.
  - rewrite length_sort. apply virtual_index_bounds. lra.
Qed.

(** ** The bootstrap ensemble *)

Lemma random_choice_from (P : R -> Prop) (g : Generator) (st : RandomState)
      (a : list R) :
  Forall P a -> Forall P (fst (random_choice g st a (length a))).
Proof.
  intro Ha. unfold random_choice. simpl.
  apply Forall_forall. intros x Hx.
  apply in_map_iff in Hx. destruct Hx as [k [<- Hk]].
  apply in_seq in Hk.
  rewrite Forall_forall in Ha. apply Ha. apply nth_In.
  apply Nat.mod_upper_bound. lia.
Qed.

Lemma length_random_choice (g : Generator) (st : RandomState) (a : list R)
      (size : nat) :
  length (fst (random_choice g st a size)) = size.
Proof. unfold random_choice. simpl. rewrite length_map, length_seq. reflexivity. Qed.

(** Every pooled value is one of the scaled returns. *)
Lemma bootstrap_from (P : R -> Prop) (g : Generator) (iters : nat)
      (st : RandomState) (scaled acc : list R) :
  Forall P scaled -> Forall P acc ->
  Forall P (fst (bootstrap g iters st scaled acc)).
Proof.
  intro Hs. revert st acc; induction iters as [|k IH]; intros st acc Hacc;
    simpl.
  - exact Hacc.
  - apply IH. apply Forall_app. split; [exact Hacc|].
    apply (random_choice_from P g st scaled Hs).
Qed.

Lemma bootstrap_length (g : Generator) (iters : nat) (st : RandomState)
      (scaled acc : list R) :
  length (fst (bootstrap g iters st scaled acc))
  = (length acc + iters * length scaled)%nat.
Proof.
  revert st acc; induction iters as [|k IH]; intros st acc; simpl.
  - lia.
  - rewrite IH, length_app, length_map, length_seq. lia.
Qed.

(** The loop leaves the cursor of the generator [iters * len] draws on. *)
Lemma bootstrap_state (g : Generator) (iters : nat) (st : RandomState)
      (scaled acc : list R) :
  snd (bootstrap g iters st scaled acc) = (st + iters * length scaled)%nat.
Proof.
  revert st acc; induction iters as [|k IH]; intros st acc; simpl.
  - lia.
  - rewrite IH. lia.
Qed.

Lemma bootstrap_nonempty (g : Generator) (st : RandomState)
      (scaled : list R) :
  scaled <> [] -> fst (bootstrap g 1000 st scaled []) <> [].
Proof.
  intros Hs E. apply (f_equal (@length R)) in E.
  rewrite bootstrap_length in E. simpl length in E.
  destruct scaled; [contradiction|]. simpl in E. lia.
Qed.

(** ** Historical VaR *)

(** The pooled bootstrap sample of the scaled returns. *)
Lemma historical_var_unfold (rc : RiskCalculator) (g : Generator)
      (st : RandomState) (returns : list R) :
  (0 <= time_horizon rc)%Z ->
  calculate_historical_var rc g st returns
  = (var_percentile <-
       percentile
         (fst (bootstrap g 1000 st
                 (map (fun r => r * sqrt (IZR (time_horizon rc))) returns)
                 []))
         (alpha rc * 100) ;;
     Num (Rabs (var_percentile * value (portfolio rc))),
     (st + 1000 * length returns)%nat).
Proof.
  intro Hh. unfold calculate_historical_var.
  rewrite np_sqrt_nonneg by (apply IZR_le in Hh; exact Hh).
  pose proof (bootstrap_state g 1000 st
                (map (fun r => r * sqrt (IZR (time_horizon rc))) returns) [])
    as Hst.
  destruct (bootstrap g 1000 st _ []) as [samples st'].
  simpl in Hst. rewrite length_map in Hst. rewrite Hst. reflexivity.
Qed.

Lemma percentile_constant (c : R) (a : list R) (q : R) :
  a <> [] -> Forall (eq c) a -> 0 <= q <= 100 -> percentile a q = Num c.
Proof.
  intros Ha Hc Hq. rewrite percentile_in_range by assumption.
  f_equal. apply interpolate_constant.
  - eapply Permutation_Forall; [apply sort_perm|exact Hc].
  - rewrite length_sort. apply virtual_index_bounds. exact Hq.
  - intro E. apply Ha. apply length_zero_iff_nil.
    rewrite <- length_sort, E. reflexivity.
Qed.

Lemma historical_var_constant (rc : RiskCalculator) (g : Generator)
      (st : RandomState) (c : R) (returns : list R) :
  returns <> [] -> Forall (eq c) returns ->
  (0 <= time_horizon rc)%Z -> 0 <= alpha rc * 100 <= 100 ->
  fst (calculate_historical_var rc g st returns)
  = Num (Rabs (c * sqrt (IZR (time_horizon rc)) * value (portfolio rc))).
Proof.
  intros Hne Hc Hh Hq. rewrite historical_var_unfold by exact Hh. cbn [fst].
  set (s := sqrt (IZR (time_horizon rc))).
  assert (Hscaled : Forall (eq (c * s)) (map (fun r => r * s) returns)).
  { apply Forall_forall. intros x Hx. apply in_map_iff in Hx.
    destruct Hx as [r [<- Hr]]. rewrite Forall_forall in Hc.
    rewrite <- (Hc r Hr). reflexivity. }
  rewrite (percentile_constant (c * s)).
  - reflexivity.
  - apply bootstrap_nonempty. destruct returns; [contradiction|discriminate].
  - apply bootstrap_from; [exact Hscaled|constructor].
  - exact Hq.
Qed.

(** C1 (amended): on a non-empty constant return series with value [c],
    for a non-negative horizon and a confidence level in [0, 1], historical
    VaR raises no error and returns [|c| * sqrt(timeHorizon) * |value|],
    whatever the random draws; this is 0 when [c = 0]. *)
Theorem historical_var_constant_series (rc : RiskCalculator) (g : Generator)
        (st : RandomState) (c : R) (returns : list R) :
  returns <> [] -> Forall (eq c) returns ->
  (0 <= time_horizon rc)%Z -> 0 <= confidence_level rc <= 1 ->
  alpha rc = 1 - confidence_level rc ->
  fst (calculate_historical_var rc g st returns)
  = Num (Rabs c * sqrt (IZR (time_horizon rc)) * Rabs (value (portfolio rc)))
  /\ (c = 0 -> fst (calculate_historical_var rc g st returns) = Num 0).
Proof.
  intros Hne Hc Hh Hconf Ha.
  assert (Hq : 0 <= alpha rc * 100 <= 100) by (rewrite Ha; lra).
  rewrite (historical_var_constant rc g st c) by assumption.
  assert (E : Rabs (c * sqrt (IZR (time_horizon rc)) * value (portfolio rc))
              = Rabs c * sqrt (IZR (time_horizon rc))
                * Rabs (value (portfolio rc))).
  { rewrite !Rabs_mult. rewrite (Rabs_pos_eq (sqrt _)) by apply sqrt_pos.
    reflexivity. }
  split.
  - rewrite E. reflexivity.
  - intros ->. rewrite E, Rabs_R0. f_equal. ring.
Qed.

(** C1 (as stated) fails: on the constant series 0.01, 0.01 with a
    portfolio value of 100000 and a one-period horizon, historical VaR is
    1000, one percent of the portfolio value, not approximately 0. *)
Lemma historical_var_constant_series_not_zero :
  Forall (eq (1 / 100)) [1 / 100; 1 / 100]
  /\ fst (calculate_historical_var hedged_calculator counting_generator 0%nat
            [1 / 100; 1 / 100])
     = Num 1000
  /\ 1000 = 1 / 100 * value (portfolio hedged_calculator).
Proof.
  split; [repeat constructor|split].
  - rewrite (historical_var_constant _ _ _ (1 / 100)).
    + simpl. rewrite sqrt_1. f_equal. rewrite Rabs_pos_eq; lra.
    + discriminate.
    + repeat constructor.
    + simpl. lia.
    + simpl. lra.
  - simpl. lra.
Qed.

(** Historical VaR on a non-empty series is a non-negative number. *)
Lemma historical_var_nonneg (rc : RiskCalculator) (g : Generator)
      (st : RandomState) (returns : list R) :
  returns <> [] -> (0 <= time_horizon rc)%Z -> 0 <= alpha rc * 100 <= 100 ->
  exists v, fst (calculate_historical_var rc g st returns) = Num v /\ 0 <= v.
Proof.
  intros Hne Hh Hq. rewrite historical_var_unfold by exact Hh. cbn [fst].
  rewrite percentile_in_range.
  - eexists. split; [reflexivity|apply Rabs_pos].
  - apply bootstrap_nonempty. destruct returns; [contradiction|discriminate].
  - exact Hq.
Qed.

(** ** Parametric VaR *)

Lemma ewma_covariance_like (df : DataFrame) :
  well_formed df -> (2 <= n_rows df)%nat ->
  exists M, calculate_ewma_covariance df = Num M
            /\ covariance_like (n_cols df) M.
Proof.
  intros Hwf Hn. eexists. split.
  - unfold calculate_ewma_covariance, calculate_ewma_covariance_with, dropna.
    rewrite cov_two_rows by exact Hn. simpl. rewrite ewma_loop_rows.
    reflexivity.
  - apply (covariance_like_fold (94 / 100)).
    + lra.
    + unfold well_formed in Hwf. destruct (rows df); simpl;
        [constructor|inversion Hwf; assumption].
    + apply covariance_like_scale; [lra|].
      apply covariance_like_sample. exact Hn.
Qed.

Lemma z_score_of_open (norm_ppf : R -> R) (q : R) :
  0 < q < 1 -> z_score_of norm_ppf q = Num (norm_ppf q).
Proof.
  intros [H0 H1]. unfold z_score_of.
  destruct (Rlt_dec 0 q); [|contradiction].
  destruct (Rlt_dec q 1); [reflexivity|contradiction].
Qed.

Section ParametricProperties.

Variable norm_ppf : R -> R.

(** The closed form the method evaluates on a table with at least two
    observations. *)
Lemma parametric_var_value (rc : RiskCalculator) :
  consistent (portfolio rc) ->
  (2 <= n_rows (returns_data (portfolio rc)))%nat ->
  (0 <= time_horizon rc)%Z ->
  0 < alpha rc < 1 ->
  exists M,
    calculate_ewma_covariance (returns_data (portfolio rc)) = Num M
    /\ 0 <= quad_form M (weights (portfolio rc))
    /\ calculate_parametric_var norm_ppf rc (get_returns (portfolio rc))
       = Num (Rabs (norm_ppf (alpha rc)
                    * sqrt (quad_form M (weights (portfolio rc))
                            * IZR (time_horizon rc))
                    * value (portfolio rc))).
Proof.
  intros [Hwf Hw] Hn Hh Ha.
  destruct (ewma_covariance_like _ Hwf Hn) as [M [HM [_ [_ Hpsd]]]].
  exists M. split; [exact HM|].
  assert (Hq : 0 <= quad_form M (weights (portfolio rc)))
    by (apply Hpsd; exact Hw).
  split; [exact Hq|].
  unfold calculate_parametric_var, get_returns, get_weights.
  rewrite HM. simpl.
  rewrite np_sqrt_nonneg
    by (apply Rmult_le_pos; [exact Hq|apply IZR_le in Hh; exact Hh]).
  simpl. rewrite z_score_of_open by exact Ha. reflexivity.
Qed.

End ParametricProperties.

(** C5: for a fixed portfolio and confidence level, parametric VaR at a
    positive horizon [h] is [sqrt h] times parametric VaR at horizon 1 (and
    is not a number exactly when the latter is not); on a consistent table
    with at least two observations and a confidence level in (0, 1) both
    are numbers. *)
Theorem parametric_var_horizon_scaling (norm_ppf : R -> R) (p : Portfolio)
        (c : R) (h n : Z) (rc_h rc_1 : RiskCalculator) :
  (0 < h)%Z ->
  init p c h n = Num rc_h ->
  init p c 1 n = Num rc_1 ->
  calculate_parametric_var norm_ppf rc_h (get_returns p)
  = result_map (fun v_1 => sqrt (IZR h) * v_1)
               (calculate_parametric_var norm_ppf rc_1 (get_returns p))
  /\ (consistent p -> (2 <= n_rows (returns_data p))%nat -> 0 < c < 1 ->
      exists v_1,
        calculate_parametric_var norm_ppf rc_1 (get_returns p) = Num v_1).
Proof.
  intros Hh Eh E1.
  unfold init in Eh, E1. injection Eh as <-. injection E1 as <-.
  assert (H0 : 0 < IZR h) by (apply IZR_lt; lia).
  split.
  - unfold calculate_parametric_var. simpl.
    destruct (calculate_ewma_covariance (get_returns p)) as [M| |e];
      simpl; try reflexivity.
    set (q := quad_form M (get_weights p)).
    unfold np_sqrt.
    destruct (Rlt_dec (q * IZR h) 0) as [Hq|Hq];
      destruct (Rlt_dec (q * 1) 0) as [Hq1|Hq1]; simpl;
      try reflexivity; try (exfalso; nra).
    destruct (z_score_of norm_ppf (1 - c)) as [z| |e]; simpl;
      try reflexivity.
    f_equal. rewrite Rmult_1_r.
    rewrite sqrt_mult by nra.
    rewrite !Rabs_mult.
    rewrite (Rabs_pos_eq (sqrt (IZR h))) by apply sqrt_pos.
    ring.
  - intros Hp Hn Hc.
    destruct (parametric_var_value norm_ppf (mkCalc p c 1 n (1 - c)))
      as [M [_ [_ Hv]]]; simpl; try assumption; try lia; try lra.
    eexists. exact Hv.
Qed.

(** ** Monte Carlo VaR *)

Section MonteCarloProperties.

Variable t_fit : list R -> R * R * R.
Variable t_rvs : R * R * R -> RandomState -> R.

Lemma scenarios_loop_length (params : R * R * R) (trials : nat)
      (st : RandomState) (size : nat) (v : R) (acc : list R) :
  length (fst (scenarios_loop t_rvs params trials st size v acc))
  = (length acc + trials)%nat.
Proof.
  revert st acc; induction trials as [|k IH]; intros st acc; simpl.
  - lia.
  - rewrite IH, length_app. simpl. lia.
Qed.

(** The scenario P&L set does not depend on the confidence level, and the
    method returns the absolute value of its percentile. *)
Lemma monte_carlo_var_unfold (rc : RiskCalculator) (returns : DataFrame)
      (st : RandomState) :
  (0 <= time_horizon rc)%Z ->
  fst (calculate_monte_carlo_var t_fit t_rvs rc returns st)
  = (p <- percentile
            (fst (scenarios_loop t_rvs
                    (t_fit (get_portfolio_returns (portfolio rc)))
                    (Z.to_nat (simulations rc)) st
                    (Z.to_nat (time_horizon rc))
                    (value (portfolio rc)) []))
            (alpha rc * 100) ;;
     Num (Rabs p)).
Proof.
  intro Hh. unfold calculate_monte_carlo_var.
  destruct (Z.ltb_spec (time_horizon rc) 0) as [Hneg|_]; [lia|].
  rewrite andb_false_r.
  destruct (scenarios_loop t_rvs _ _ st _ _ []) as [scenarios st'].
  reflexivity.
Qed.

Lemma scenarios_nonempty (params : R * R * R) (trials : nat)
      (st : RandomState) (size : nat) (v : R) :
  (0 < trials)%nat ->
  fst (scenarios_loop t_rvs params trials st size v []) <> [].
Proof.
  intros Ht E. apply (f_equal (@length R)) in E.
  rewrite scenarios_loop_length in E. simpl in E. lia.
Qed.

Lemma monte_carlo_var_nonneg (rc : RiskCalculator) (returns : DataFrame)
      (st : RandomState) :
  (0 < simulations rc)%Z -> (0 <= time_horizon rc)%Z ->
  0 <= alpha rc * 100 <= 100 ->
  exists v,
    fst (calculate_monte_carlo_var t_fit t_rvs rc returns st) = Num v
    /\ 0 <= v.
Proof.
  intros Hn Hh Hq. rewrite monte_carlo_var_unfold by exact Hh.
  rewrite percentile_in_range.
  - eexists. split; [reflexivity|apply Rabs_pos].
  - apply scenarios_nonempty. lia.
  - exact Hq.
Qed.

End MonteCarloProperties.

(** ** The other metrics never raise *)

Lemma volatility_no_raise (returns : list R) :
  ~ raises (calculate_volatility returns).
Proof.
  intros [e H]. unfold calculate_volatility, std in H.
  destruct (length returns <=? 1)%nat; discriminate.
Qed.

Lemma sharpe_ratio_no_raise (returns : list R) :
  ~ raises (calculate_sharpe_ratio returns).
Proof.
  intros [e H].
  unfold calculate_sharpe_ratio, calculate_sharpe_ratio_with,
    calculate_volatility, std in H.
  destruct (length returns <=? 1)%nat; simpl in H; [discriminate|].
  unfold np_div in H. destruct (Req_dec_T _ 0); discriminate.
Qed.

Lemma max_drawdown_no_raise (returns : list R) :
  ~ raises (calculate_max_drawdown returns).
Proof.
  intros [e H]. unfold calculate_max_drawdown, cell_abs in H.
  destruct (series_min _); discriminate.
Qed.

Lemma parametric_var_no_raise (norm_ppf : R -> R) (rc : RiskCalculator)
      (df : DataFrame) :
  ~ raises (calculate_parametric_var norm_ppf rc df).
Proof.
  intros [e H].
  unfold calculate_parametric_var, calculate_ewma_covariance,
    calculate_ewma_covariance_with, cov, dropna, np_sqrt, z_score_of in H.
  destruct (n_rows df <=? 1)%nat; simpl in H; [discriminate|].
  destruct (Rlt_dec _ 0); simpl in H; [discriminate|].
  destruct (Rlt_dec 0 (alpha rc)); simpl in H; [|discriminate].
  destruct (Rlt_dec (alpha rc) 1); simpl in H; discriminate.
Qed.

Lemma or_abort_no_raise {B : Type} (m : result R) (k : result R -> result B) :
  ~ raises m -> or_abort m k = k m.
Proof.
  intro H. destruct m; try reflexivity.
  exfalso. apply H. exists e. reflexivity.
Qed.

(** ** The result mapping *)

Section AllMethods.

Variable norm_ppf : R -> R.
Variable t_fit : list R -> R * R * R.
Variable t_rvs : R * R * R -> RandomState -> R.

Let returns_of (rc : RiskCalculator) := get_returns (portfolio rc).
Let series_of (rc : RiskCalculator) := get_portfolio_returns (portfolio rc).

(** A mapping that is returned holds, under each key, what the method of
    that name computed; Monte Carlo draws start where the bootstrap
    stopped. *)
Lemma all_methods_fields (rc : RiskCalculator) (g : Generator)
      (st : RandomState) (res : Results) :
  calculate_all_var_methods norm_ppf t_fit t_rvs rc g st = Num res ->
  historical res = fst (calculate_historical_var rc g st (series_of rc))
  /\ parametric res = calculate_parametric_var norm_ppf rc (returns_of rc)
  /\ monte_carlo res
     = fst (calculate_monte_carlo_var t_fit t_rvs rc (returns_of rc)
              (snd (calculate_historical_var rc g st (series_of rc))))
  /\ var_breakdown res = calculate_component_var rc (returns_of rc).
Proof.
  unfold calculate_all_var_methods, returns_of, series_of.
  destruct (calculate_historical_var rc g st _) as [h st1].
  cbn [fst snd].
  destruct (calculate_monte_carlo_var t_fit t_rvs rc _ st1) as [m st2].
  cbn [fst snd].
  destruct h, (calculate_parametric_var norm_ppf rc _), m,
    (calculate_volatility _), (calculate_sharpe_ratio _),
    (calculate_max_drawdown _);
    cbn [or_abort]; intro H; try discriminate;
    injection H as <-; repeat split.
Qed.

(** The mapping is returned as soon as neither stochastic method
    raises. *)
Lemma all_methods_returned (rc : RiskCalculator) (g : Generator)
      (st : RandomState) :
  ~ raises (fst (calculate_historical_var rc g st (series_of rc))) ->
  ~ raises (fst (calculate_monte_carlo_var t_fit t_rvs rc (returns_of rc)
                   (snd (calculate_historical_var rc g st (series_of rc)))))
  ->
  exists res,
    calculate_all_var_methods norm_ppf t_fit t_rvs rc g st = Num res.
Proof.
  unfold calculate_all_var_methods, returns_of, series_of.
  destruct (calculate_historical_var rc g st _) as [h st1].
  cbn [fst snd].
  destruct (calculate_monte_carlo_var t_fit t_rvs rc _ st1) as [m st2].
  cbn [fst snd]. intros Hh Hm.
  rewrite (or_abort_no_raise h) by exact Hh.
  rewrite or_abort_no_raise by apply parametric_var_no_raise.
  rewrite (or_abort_no_raise m) by exact Hm.
  rewrite or_abort_no_raise by apply volatility_no_raise.
  rewrite or_abort_no_raise by apply sharpe_ratio_no_raise.
  rewrite or_abort_no_raise by apply max_drawdown_no_raise.
  eexists. reflexivity.
Qed.

End AllMethods.

(** ** Non-negativity of the three VaR figures *)

Lemma not_raises_num {A : Type} (a : A) : ~ raises (Num a).
Proof. intros [e H]. discriminate. Qed.

Lemma portfolio_returns_nonempty (p : Portfolio) :
  (1 <= n_rows (returns_data p))%nat -> get_portfolio_returns p <> [].
Proof.
  unfold get_portfolio_returns, n_rows. intros Hn E.
  apply (f_equal (@length R)) in E. rewrite length_map in E.
  simpl in E. lia.
Qed.

(** C3 (amended): for every valid configuration and every consistent
    return table with at least two observations, the result mapping is
    returned and its historical, parametric and Monte Carlo entries are
    non-negative numbers. *)
Theorem var_values_nonnegative (norm_ppf : R -> R)
        (t_fit : list R -> R * R * R) (t_rvs : R * R * R -> RandomState -> R)
        (p : Portfolio) (c : R) (h n : Z) (rc : RiskCalculator)
        (g : Generator) (st : RandomState) :
  valid_configuration c h n ->
  consistent p ->
  (2 <= n_rows (returns_data p))%nat ->
  init p c h n = Num rc ->
  exists (res : Results) (hv pv mv : R),
    calculate_all_var_methods norm_ppf t_fit t_rvs rc g st = Num res
    /\ historical res = Num hv /\ 0 <= hv
    /\ parametric res = Num pv /\ 0 <= pv
    /\ monte_carlo res = Num mv /\ 0 <= mv.
Proof.
  intros [Hc [Hh Hn]] Hp Hrows E.
  unfold init in E. injection E as <-.
  set (rc := mkCalc p c h n (1 - c)).
  assert (Hq : 0 <= alpha rc * 100 <= 100) by (simpl; lra).
  destruct (historical_var_nonneg rc g st (get_portfolio_returns p))
    as [hv [Ehv Hhv]];
    [apply portfolio_returns_nonempty; lia|simpl; lia|exact Hq|].
    destruct (monte_carlo_var_nonneg t_fit t_rvs rc (get_returns p)
              (snd (calculate_historical_var rc g st
                      (get_portfolio_returns p))))
    as [mv [Emv Hmv]]; [simpl; lia|simpl; lia|exact Hq|].
  destruct (parametric_var_value norm_ppf rc) as [M [_ [_ Epv]]];
    [exact Hp|exact Hrows|simpl; lia|simpl; lra|].
  destruct (all_methods_returned norm_ppf t_fit t_rvs rc g st) as [res Eres].
  - simpl portfolio. rewrite Ehv. apply not_raises_num.
  - simpl portfolio. rewrite Emv. apply not_raises_num.
  - destruct (all_methods_fields _ _ _ _ _ _ _ Eres) as [F1 [F2 [F3 _]]].
    simpl portfolio in *.
    exists res, hv. eexists. exists mv.
    split; [exact Eres|].
    split; [rewrite F1; exact Ehv|split; [exact Hhv|]].
    split; [rewrite F2; exact Epv|split; [apply Rabs_pos|]].
    split; [rewrite F3; exact Emv|exact Hmv].
Qed.

Lemma single_observation_parametric (norm_ppf : R -> R)
      (rc : RiskCalculator) :
  calculate_parametric_var norm_ppf rc single_observation_frame = NotFinite.
Proof. reflexivity. Qed.

(** C3 (as stated) fails: a table with a single observation is non-empty
    and has no missing value, yet its sample covariance does not exist and
    the parametric entry of the result mapping is not a number. *)
Lemma var_values_nonnegative_single_observation :
  ~ (forall (norm_ppf : R -> R) (t_fit : list R -> R * R * R)
            (t_rvs : R * R * R -> RandomState -> R)
            (p : Portfolio) (c : R) (h n : Z) (rc : RiskCalculator)
            (g : Generator) (st : RandomState),
        valid_configuration c h n ->
        consistent p ->
        rows (returns_data p) <> [] ->
        init p c h n = Num rc ->
        exists (res : Results) (hv pv mv : R),
          calculate_all_var_methods norm_ppf t_fit t_rvs rc g st = Num res
          /\ historical res = Num hv /\ 0 <= hv
          /\ parametric res = Num pv /\ 0 <= pv
          /\ monte_carlo res = Num mv /\ 0 <= mv).
Proof.
  intro H.
  destruct (H (fun q => q - 1 / 2) (fun _ => (3, 0, 1)) (fun _ _ => 0)
              single_observation_portfolio (95 / 100) 1%Z 10000%Z
              (mkCalc single_observation_portfolio (95 / 100) 1 10000
                      (1 - 95 / 100))
              counting_generator 0%nat)
    as [res [hv [pv [mv [Eres [_ [_ [Epv _]]]]]]]].
  - unfold valid_configuration. repeat split; try lra; lia.
  - split; [repeat constructor|reflexivity].
  - discriminate.
  - reflexivity.
  - destruct (all_methods_fields _ _ _ _ _ _ _ Eres) as [_ [F2 _]].
    rewrite F2 in Epv. simpl in Epv.
    rewrite single_observation_parametric in Epv. discriminate.
Qed.

(** ** Confidence level and the size of VaR *)

Lemma bootstrap_split (g : Generator) (k1 k2 : nat) (st : RandomState)
      (a acc : list R) :
  bootstrap g (k1 + k2) st a acc
  = bootstrap g k2 (snd (bootstrap g k1 st a acc)) a
              (fst (bootstrap g k1 st a acc)).
Proof.
  revert st acc; induction k1 as [|k1 IH]; intros st acc; simpl.
  - reflexivity.
  - apply IH.
Qed.

Lemma map_constant_seq {T : Type} (f : nat -> T) (x : T) (s n : nat) :
  (forall k, (s <= k < s + n)%nat -> f k = x) ->
  map f (seq s n) = repeat x n.
Proof.
  revert s; induction n as [|n IH]; intros s H; simpl.
  - reflexivity.
  - rewrite H by lia. f_equal. apply IH. intros k Hk. apply H. lia.
Qed.

(** While the generator keeps selecting position [i], the loop pools
    copies of the return at that position. *)
Lemma bootstrap_block (g : Generator) (i iters : nat) (st : RandomState)
      (a acc : list R) :
  (forall k, (st <= k < st + iters * length a)%nat ->
             g k mod length a = i) ->
  fst (bootstrap g iters st a acc)
  = acc ++ repeat (nth i a 0) (iters * length a).
Proof.
  revert st acc; induction iters as [|n IH]; intros st acc H; simpl.
  - rewrite app_nil_r. reflexivity.
  - rewrite IH by (intros k Hk; apply H; simpl; lia).
    rewrite <- app_assoc. f_equal. rewrite repeat_app. f_equal.
    apply (map_constant_seq (fun k => nth (g (st + k)%nat mod length a) a 0)).
    intros k Hk. rewrite H by (simpl; lia). reflexivity.
Qed.

Lemma nth_repeat_lt {T : Type} (x d : T) (k n : nat) :
  (k < n)%nat -> nth k (repeat x n) d = x.
Proof.
  revert k; induction n as [|n IH]; intros k H; [lia|].
  destruct k; simpl; [reflexivity|apply IH; lia].
Qed.

Lemma sorted_two_blocks (a b : R) (m n : nat) :
  a <= b -> StronglySorted Rle (repeat a m ++ repeat b n).
Proof.
  intro Hab. induction m as [|m IH]; simpl.
  - induction n as [|n IHn]; simpl; constructor; [exact IHn|].
    apply Forall_forall. intros x Hx. apply repeat_spec in Hx. subst. lra.
  - constructor; [exact IH|].
    apply Forall_forall. intros x Hx. apply in_app_or in Hx.
    destruct Hx as [Hx|Hx]; apply repeat_spec in Hx; subst; lra.
Qed.

Lemma block_generator_pool (x y : R) :
  fst (bootstrap block_generator 1000 0%nat [x; y] [])
  = repeat x 1000 ++ repeat y 1000.
Proof.
  change 1000%nat with (500 + 500)%nat at 1.
  rewrite bootstrap_split, bootstrap_state.
  rewrite (bootstrap_block block_generator 0 500 0%nat [x; y] []).
  - rewrite (bootstrap_block block_generator 1 500).
    + reflexivity.
    + intros k Hk. unfold block_generator. cbn [length] in *.
      destruct (Nat.ltb_spec k 1000); [lia|reflexivity].
  - intros k Hk. unfold block_generator. cbn [length] in *.
    destruct (Nat.ltb_spec k 1000); [reflexivity|lia].
Qed.

Lemma interpolate_two_blocks_low (x y : R) (m n k : nat) (v : R) :
  INR k <= v < INR k + 1 -> (k + 1 < m)%nat ->
  interpolate (repeat x m ++ repeat y n) v = x.
Proof.
  intros Hv Hk. unfold interpolate.
  rewrite (floor_nat_unique v k Hv).
  rewrite length_app, !repeat_length.
  rewrite !app_nth1 by (rewrite repeat_length; lia).
  rewrite !nth_repeat_lt by lia. ring.
Qed.

Lemma interpolate_two_blocks_high (x y : R) (m n k : nat) (v : R) :
  INR k <= v < INR k + 1 -> (m <= k)%nat -> (k + 1 < m + n)%nat ->
  interpolate (repeat x m ++ repeat y n) v = y.
Proof.
  intros Hv Hk Hn. unfold interpolate.
  rewrite (floor_nat_unique v k Hv).
  rewrite length_app, !repeat_length.
  rewrite !app_nth2 by (rewrite repeat_length; lia).
  rewrite !nth_repeat_lt by (rewrite repeat_length; lia). ring.
Qed.

Lemma historical_var_two_blocks (rc : RiskCalculator) (x y : R) :
  time_horizon rc = 1%Z -> x <= y -> 0 <= alpha rc * 100 <= 100 ->
  fst (calculate_historical_var rc block_generator 0%nat [x; y])
  = Num (Rabs (interpolate (repeat x 1000 ++ repeat y 1000)
                           (alpha rc * 100 / 100 * 1999)
               * value (portfolio rc))).
Proof.
  intros Hh Hxy Hq. rewrite historical_var_unfold by lia. cbn [fst].
  rewrite Hh, sqrt_1. cbn [map]. rewrite !Rmult_1_r.
  rewrite block_generator_pool.
  assert (Hne : repeat x 1000 ++ repeat y 1000 <> []).
  { intro E. apply (f_equal (@length R)) in E.
    rewrite length_app, !repeat_length in E. simpl in E. lia. }
  rewrite percentile_in_range by assumption.
  rewrite sort_of_sorted by (apply sorted_two_blocks; exact Hxy).
  rewrite length_app, !repeat_length.
  replace (INR (1000 + 1000 - 1)) with 1999; [reflexivity|].
  rewrite INR_IZR_INZ. reflexivity.
Qed.

Lemma rising_series :
  get_portfolio_returns rising_portfolio = [1 / 100; 3 / 100].
Proof.
  unfold get_portfolio_returns, rising_portfolio, equal_weights. simpl.
  f_equal; [lra|f_equal; lra].
Qed.

(** C4 (as stated) fails for the historical figure: on a series of gains
    and with the same random draws, raising the confidence level from 0.25
    to 0.75 lowers historical VaR from 3000 to 1000. *)
Lemma historical_var_not_monotone :
  exists rc1 rc2 : RiskCalculator,
    init rising_portfolio (1 / 4) 1 10000 = Num rc1
    /\ init rising_portfolio (3 / 4) 1 10000 = Num rc2
    /\ fst (calculate_historical_var rc1 block_generator 0%nat
              (get_portfolio_returns (portfolio rc1))) = Num 3000
    /\ fst (calculate_historical_var rc2 block_generator 0%nat
              (get_portfolio_returns (portfolio rc2))) = Num 1000.
Proof.
  do 2 eexists. split; [reflexivity|split; [reflexivity|]].
  cbn [portfolio]. rewrite rising_series.
  rewrite !historical_var_two_blocks by (simpl; try reflexivity; lra).
  cbn [alpha value portfolio rising_portfolio].
  assert (I1499 : INR 1499 = 1499) by (rewrite INR_IZR_INZ; reflexivity).
  assert (I499 : INR 499 = 499) by (rewrite INR_IZR_INZ; reflexivity).
  rewrite (interpolate_two_blocks_high _ _ 1000 1000 1499)
    by (try lia; rewrite I1499; lra).
  rewrite (interpolate_two_blocks_low _ _ 1000 1000 499)
    by (try lia; rewrite I499; lra).
  split; f_equal; rewrite Rabs_pos_eq; lra.
Qed.

Lemma abs_loss_mono (q1 q2 v : R) :
  q2 <= q1 -> q1 <= 0 -> Rabs (q1 * v) <= Rabs (q2 * v).
Proof.
  intros H21 H1. rewrite !Rabs_mult.
  apply Rmult_le_compat_r; [apply Rabs_pos|].
  rewrite !Rabs_left1 by lra. lra.
Qed.

Lemma percentile_nonpos (a : list R) (q : R) :
  a <> [] -> 0 <= q <= 100 -> Forall (fun x => x <= 0) a ->
  exists p, percentile a q = Num p /\ p <= 0.
Proof.
  intros Ha Hq Hneg.
  rewrite percentile_in_range by assumption.
  eexists. split; [reflexivity|].
  assert (Hne : sort a <> []).
  { intro E. apply Ha. apply length_zero_iff_nil.
    rewrite <- length_sort, E. reflexivity. }
  assert (Hlen : (0 < length (sort a))%nat)
    by (destruct (sort a); simpl; [contradiction|lia]).
  assert (Hv : 0 <= q / 100 * INR (length (sort a) - 1)
                  <= INR (length (sort a) - 1)).
  { rewrite length_sort. apply virtual_index_bounds. exact Hq. }
  destruct (interpolate_between (sort a) _ (sort_sorted a) Hv Hne)
    as [_ Hhi].
  rewrite length_sort in Hhi at 1.
  eapply Rle_trans; [exact Hhi|].
  assert (Hs : Forall (fun x => x <= 0) (sort a))
    by (eapply Permutation_Forall; [apply sort_perm|exact Hneg]).
  rewrite Forall_forall in Hs. apply Hs. apply nth_In. lia.
Qed.

(** C4 (amended): for a fixed portfolio with at least two observations,
    fixed random draws, horizon and simulation count, and confidence levels
    [c1 < c2] in (0, 1).  Historical VaR at confidence [c] is the absolute
    value of the percentile [(1 - c) * 100] of the bootstrap pool (the
    thousand resamples of the scaled series) times the value, and Monte
    Carlo VaR is the absolute value of that percentile of the simulated
    outcomes; the pool and the outcomes are the same at [c1] and [c2], the
    percentile at [c2] is at most the one at [c1], so each of the two
    figures at [c2] is at least the figure at [c1] whenever the percentile
    at [c1] is a loss (non-positive), which is the case for historical VaR
    when no portfolio return is positive.  Parametric VaR at [c2] is at
    least parametric VaR at [c1] whenever [c1 >= 1/2], for a quantile
    function that is increasing and vanishes at 1/2. *)
Theorem var_monotone_in_confidence (norm_ppf : R -> R)
        (t_fit : list R -> R * R * R) (t_rvs : R * R * R -> RandomState -> R)
        (p : Portfolio) (h n : Z) (g : Generator) (st : RandomState)
        (c1 c2 : R) (rc1 rc2 : RiskCalculator) :
  (forall x y, 0 < x -> x <= y -> y < 1 -> norm_ppf x <= norm_ppf y) ->
  norm_ppf (1 / 2) = 0 ->
  consistent p ->
  (2 <= n_rows (returns_data p))%nat ->
  (0 < h)%Z -> (0 < n)%Z ->
  0 < c1 -> c1 < c2 -> c2 < 1 ->
  init p c1 h n = Num rc1 ->
  init p c2 h n = Num rc2 ->
  let pool :=
    fst (bootstrap g 1000 st
           (map (fun r => r * sqrt (IZR h)) (get_portfolio_returns p)) []) in
  let outcomes :=
    fst (scenarios_loop t_rvs (t_fit (get_portfolio_returns p))
           (Z.to_nat n) st (Z.to_nat h) (value p) []) in
  (exists q1 q2 v1 v2,
      percentile pool ((1 - c1) * 100) = Num q1
      /\ percentile pool ((1 - c2) * 100) = Num q2
      /\ q2 <= q1
      /\ fst (calculate_historical_var rc1 g st (get_portfolio_returns p))
         = Num v1
      /\ fst (calculate_historical_var rc2 g st (get_portfolio_returns p))
         = Num v2
      /\ v1 = Rabs (q1 * value p)
      /\ v2 = Rabs (q2 * value p)
      /\ (q1 <= 0 -> v1 <= v2)
      /\ (Forall (fun r => r <= 0) (get_portfolio_returns p) -> v1 <= v2))
  /\ (exists m1 m2 v1 v2,
         percentile outcomes ((1 - c1) * 100) = Num m1
         /\ percentile outcomes ((1 - c2) * 100) = Num m2
         /\ m2 <= m1
         /\ fst (calculate_monte_carlo_var t_fit t_rvs rc1 (get_returns p) st)
            = Num v1
         /\ fst (calculate_monte_carlo_var t_fit t_rvs rc2 (get_returns p) st)
            = Num v2
         /\ v1 = Rabs m1
         /\ v2 = Rabs m2
         /\ (m1 <= 0 -> v1 <= v2))
  /\ (1 / 2 <= c1 ->
      exists v1 v2,
        calculate_parametric_var norm_ppf rc1 (get_returns p) = Num v1
        /\ calculate_parametric_var norm_ppf rc2 (get_returns p) = Num v2
        /\ v1 <= v2).
Proof.
  intros Hmono Hhalf Hp Hrows Hh Hn H1 H12 H2 E1 E2 pool outcomes.
  unfold init in E1, E2. injection E1 as <-. injection E2 as <-.
  split; [|split].
  - rewrite !historical_var_unfold by (simpl; lia). cbn [fst].
    cbn [time_horizon alpha portfolio]. fold pool.
    assert (Hret : get_portfolio_returns p <> []).
    { intro E. apply (portfolio_returns_nonempty p); [lia|exact E]. }
    assert (Hpool : pool <> []).
    { apply bootstrap_nonempty. intro E.
      apply (f_equal (@length R)) in E. rewrite length_map in E.
      apply Hret. apply length_zero_iff_nil. exact E. }
    destruct (percentile_mono pool ((1 - c2) * 100) ((1 - c1) * 100))
      as [q2 [q1 [Eq2 [Eq1 Hq]]]]; try exact Hpool; try lra.
    exists q1, q2, (Rabs (q1 * value p)), (Rabs (q2 * value p)).
    rewrite Eq1, Eq2. cbn [bind].
    repeat (split; [first [reflexivity | exact Hq]|]).
    split; [apply abs_loss_mono; exact Hq|].
    intro Hneg. apply abs_loss_mono; [exact Hq|].
    destruct (percentile_nonpos pool ((1 - c1) * 100) Hpool)
      as [q [Eq Hle]]; [lra| |].
    + apply bootstrap_from; [|constructor].
      apply Forall_forall. intros x Hx. apply in_map_iff in Hx.
      destruct Hx as [r [<- Hr]]. rewrite Forall_forall in Hneg.
      pose proof (Hneg r Hr) as Hr0.
      pose proof (sqrt_pos (IZR h)) as Hs. nra.
    + rewrite Eq1 in Eq. injection Eq as <-. exact Hle.
  - rewrite !monte_carlo_var_unfold by (simpl; lia).
    cbn [time_horizon alpha portfolio simulations]. fold outcomes.
    assert (Hsc : outcomes <> []) by (apply scenarios_nonempty; lia).
    destruct (percentile_mono outcomes ((1 - c2) * 100) ((1 - c1) * 100))
      as [m2 [m1 [Em2 [Em1 Hm]]]]; try exact Hsc; try lra.
    exists m1, m2, (Rabs m1), (Rabs m2). rewrite Em1, Em2. cbn [bind].
    repeat (split; [first [reflexivity | exact Hm]|]).
    intro Hloss. rewrite <- (Rmult_1_r m1), <- (Rmult_1_r m2).
    apply abs_loss_mono; assumption.
  - clear pool outcomes. intro Hc1.
    destruct (parametric_var_value norm_ppf (mkCalc p c1 h n (1 - c1)))
      as [M [HM [Hq Hv1]]]; simpl; try assumption; try lia; try lra.
    destruct (parametric_var_value norm_ppf (mkCalc p c2 h n (1 - c2)))
      as [M' [HM' [_ Hv2]]]; simpl; try assumption; try lia; try lra.
    simpl in *. rewrite HM in HM'. injection HM' as <-.
    do 2 eexists. split; [exact Hv1|split; [exact Hv2|]].
    assert (Hz1 : norm_ppf (1 - c1) <= 0)
      by (rewrite <- Hhalf; apply Hmono; lra).
    assert (Hz2 : norm_ppf (1 - c2) <= norm_ppf (1 - c1))
      by (apply Hmono; lra).
    rewrite !(Rmult_assoc (norm_ppf _)).
    apply abs_loss_mono; assumption.
Qed.

(** ** Zero variance *)

Lemma sharpe_ratio_zero_std (returns : list R) :
  std returns = Num 0 -> calculate_sharpe_ratio returns = NotFinite.
Proof.
  intro H.
  unfold calculate_sharpe_ratio, calculate_sharpe_ratio_with,
    calculate_volatility.
  rewrite H. simpl. rewrite Rmult_0_l. apply np_div_zero.
Qed.

Lemma component_var_zero_vol (rc : RiskCalculator) (df : DataFrame)
      (i : nat) :
  (2 <= n_rows df)%nat ->
  quad_form (mat_scale 252 (cov_matrix_of df)) (weights (portfolio rc)) = 0 ->
  component_var_of rc df i = NotFinite.
Proof.
  intros Hn Hq. unfold component_var_of, get_weights.
  rewrite cov_two_rows by exact Hn. simpl.
  rewrite Hq, np_sqrt_nonneg by lra. simpl.
  rewrite sqrt_0, np_div_zero. reflexivity.
Qed.

Lemma dict_set_values (P : result R -> Prop) (d : dict) (k : string)
      (v : result R) :
  Forall P (dict_values d) -> P v -> Forall P (dict_values (dict_set d k v)).
Proof.
  unfold dict_values. induction d as [|[k' v'] d IH]; intros Hd Hv; simpl.
  - constructor; [exact Hv|constructor].
  - inversion Hd; subst.
    destruct (String.eqb k' k); simpl; constructor; auto.
Qed.

Lemma component_var_values (P : result R -> Prop) (rc : RiskCalculator)
      (df : DataFrame) :
  (forall i, P (component_var_of rc df i)) ->
  Forall P (dict_values (calculate_component_var rc df)).
Proof.
  intro H. unfold calculate_component_var.
  generalize (combine (seq 0 (n_cols df)) (columns df)).
  assert (Hnil : Forall P (dict_values [])) by constructor.
  revert Hnil. generalize (@nil (string * result R)).
  intros d Hd l; revert d Hd; induction l as [|[i a] l IH]; intros d Hd;
    simpl.
  - exact Hd.
  - apply IH. apply dict_set_values; [exact Hd|apply H].
Qed.

Lemma co_moment_constant (c : R) (s : list R) :
  Forall (eq c) s -> s <> [] -> co_moment s s = 0.
Proof.
  intros Hc Hne. unfold co_moment.
  assert (Hm : mean s = c).
  { unfold mean. assert (Hs : sum s = INR (length s) * c).
    { clear Hne. induction Hc as [|x s Hx Hc IH].
      - simpl. ring.
      - change (length (x :: s)) with (S (length s)).
        rewrite S_INR. simpl. rewrite IH, <- Hx. ring. }
    rewrite Hs. field. apply not_0_INR.
    destruct s; [contradiction|discriminate]. }
  rewrite Hm. clear Hm Hne.
  induction Hc as [|x s Hx Hc IH]; simpl; [reflexivity|].
  rewrite IH, <- Hx. ring.
Qed.

Lemma std_constant (c : R) (s : list R) :
  Forall (eq c) s -> (2 <= length s)%nat -> std s = Num 0.
Proof.
  intros Hc Hn. unfold std.
  destruct (Nat.leb_spec (length s) 1); [lia|].
  rewrite co_moment_constant with (c := c);
    [|exact Hc|destruct s; [simpl in Hn; lia|discriminate]].
  unfold Rdiv. rewrite Rmult_0_l, sqrt_0. reflexivity.
Qed.

(** C2 (as stated) fails: on the constant series 0.01, 0.01 the standard
    deviation is 0 and the Sharpe ratio is the result of a float division
    by zero, not an exception; the component VaR of the one-asset table
    with these returns is not a number either, and nothing is raised. *)
Lemma zero_variance_raises_nothing :
  std [1 / 100; 1 / 100] = Num 0
  /\ calculate_sharpe_ratio [1 / 100; 1 / 100] = NotFinite
  /\ calculate_sharpe_ratio [1 / 100; 1 / 100] <> Raised DegenerateInputError
  /\ calculate_component_var flat_calculator flat_frame
     = [("A"%string, NotFinite)].
Proof.
  assert (Hstd : std [1 / 100; 1 / 100] = Num 0)
    by (apply (std_constant (1 / 100)); [repeat constructor|simpl; lia]).
  split; [exact Hstd|].
  rewrite (sharpe_ratio_zero_std _ Hstd).
  split; [reflexivity|split; [discriminate|]].
  unfold calculate_component_var. simpl.
  rewrite component_var_zero_vol; [reflexivity|unfold n_rows; simpl; lia|].
  unfold quad_form, mat_vec, mat_scale, cov_matrix_of, co_moment, column,
    mean, flat_calculator, flat_portfolio, flat_frame, equal_weights.
  simpl. lra.
Qed.

(** C2 (amended): no method raises [DegenerateInputError].  On a series
    whose standard deviation is 0 the Sharpe ratio is the non-finite result
    of a float division by zero; with zero portfolio volatility every
    component VaR is not a number; parametric VaR never raises, and on a
    consistent table with at least two observations it is a number. *)
Theorem zero_variance_outcomes (norm_ppf : R -> R) (rc : RiskCalculator)
        (returns : list R) :
  std returns = Num 0 ->
  (2 <= n_rows (returns_data (portfolio rc)))%nat ->
  quad_form (mat_scale 252 (cov_matrix_of (returns_data (portfolio rc))))
            (weights (portfolio rc)) = 0 ->
  calculate_sharpe_ratio returns = NotFinite
  /\ Forall (eq NotFinite)
            (dict_values
               (calculate_component_var rc (get_returns (portfolio rc))))
  /\ ~ raises (calculate_parametric_var norm_ppf rc
                 (get_returns (portfolio rc)))
  /\ (consistent (portfolio rc) -> (0 <= time_horizon rc)%Z ->
      0 < alpha rc < 1 ->
      exists v,
        calculate_parametric_var norm_ppf rc (get_returns (portfolio rc))
        = Num v).
Proof.
  intros Hstd Hn Hq.
  split; [apply sharpe_ratio_zero_std; exact Hstd|].
  split.
  - apply component_var_values. intro i. symmetry.
    apply component_var_zero_vol; assumption.
  - split; [apply parametric_var_no_raise|].
    intros Hp Hh Ha.
    destruct (parametric_var_value norm_ppf rc Hp Hn Hh Ha)
      as [M [_ [_ Hv]]].
    eexists. exact Hv.
Qed.

(** ** Configuration *)

Lemma percentile_raised_error (a : list R) (q : R) (e : exn) :
  percentile a q = Raised e -> e = ValueError \/ e = IndexError.
Proof.
  unfold percentile.
  destruct (Rle_dec 0 q); [destruct (Rle_dec q 100)|];
    try (destruct a); intro H; try discriminate;
    injection H as <-; auto.
Qed.

Lemma historical_var_raised_error (rc : RiskCalculator) (g : Generator)
      (st : RandomState) (returns : list R) (e : exn) :
  fst (calculate_historical_var rc g st returns) = Raised e ->
  e = ValueError \/ e = IndexError.
Proof.
  assert (Hnan : percentile_of_nan (alpha rc * 100) = Raised e ->
                 e = ValueError \/ e = IndexError).
  { unfold percentile_of_nan.
    destruct (Rle_dec 0 _); [destruct (Rle_dec _ 100)|];
      intro H; try discriminate; injection H as <-; auto. }
  unfold calculate_historical_var.
  destruct (np_sqrt (IZR (time_horizon rc))) as [s| |e'].
  - destruct (bootstrap g 1000 st _ []) as [pool st']. cbn [fst].
    destruct (percentile pool (alpha rc * 100)) as [v| |e'] eqn:E;
      simpl; intro H; try discriminate.
    injection H as <-. apply (percentile_raised_error _ _ _ E).
  - cbn [fst]. destruct returns; [|exact Hnan].
    apply percentile_raised_error.
  - cbn [fst]. destruct returns; [|exact Hnan].
    apply percentile_raised_error.
Qed.

Lemma historical_var_out_of_range (rc : RiskCalculator) (g : Generator)
      (st : RandomState) (returns : list R) :
  alpha rc * 100 < 0 \/ 100 < alpha rc * 100 ->
  fst (calculate_historical_var rc g st returns) = Raised ValueError.
Proof.
  intro Hq. unfold calculate_historical_var.
  assert (Hnan : percentile_of_nan (alpha rc * 100) = Raised ValueError).
  { unfold percentile_of_nan.
    destruct (Rle_dec 0 _); [destruct (Rle_dec _ 100)|];
      try reflexivity; lra. }
  destruct (np_sqrt (IZR (time_horizon rc))) as [s| |e']; cbn [fst];
    try (destruct returns;
         [apply percentile_out_of_range; exact Hq|exact Hnan]).
  destruct (bootstrap g 1000 st _ []) as [pool st']. cbn [fst].
  rewrite percentile_out_of_range by exact Hq. reflexivity.
Qed.

Lemma monte_carlo_var_raised_error (t_fit : list R -> R * R * R)
            (t_rvs : R * R * R -> RandomState -> R) (rc : RiskCalculator)
      (returns : DataFrame) (st : RandomState) (e : exn) :
  fst (calculate_monte_carlo_var t_fit t_rvs rc returns st) = Raised e ->
  e = ValueError \/ e = IndexError.
Proof.
  unfold calculate_monte_carlo_var.
  destruct ((0 <? simulations rc)%Z && (time_horizon rc <? 0)%Z).
  - cbn [fst]. intro H. injection H as <-. auto.
  - destruct (scenarios_loop t_rvs _ _ st _ _ []) as [scenarios st'].
    cbn [fst].
    destruct (percentile scenarios (alpha rc * 100)) as [v| |e'] eqn:E;
      simpl; intro H; try discriminate.
    injection H as <-. apply (percentile_raised_error _ _ _ E).
Qed.

Lemma all_methods_raised_error (norm_ppf : R -> R)
      (t_fit : list R -> R * R * R) (t_rvs : R * R * R -> RandomState -> R)
      (rc : RiskCalculator) (g : Generator) (st : RandomState) (e : exn) :
  calculate_all_var_methods norm_ppf t_fit t_rvs rc g st = Raised e ->
  e = ValueError \/ e = IndexError.
Proof.
  unfold calculate_all_var_methods.
  pose proof (historical_var_raised_error rc g st
                (get_portfolio_returns (portfolio rc))) as Hh.
  destruct (calculate_historical_var rc g st _) as [hv st1].
  pose proof (monte_carlo_var_raised_error t_fit t_rvs rc
                (get_returns (portfolio rc)) st1) as Hm.
  destruct (calculate_monte_carlo_var t_fit t_rvs rc _ st1) as [mv st2].
  cbn [fst] in *.
  pose proof (parametric_var_no_raise norm_ppf rc (get_returns (portfolio rc)))
    as Hp.
  pose proof (volatility_no_raise (get_portfolio_returns (portfolio rc)))
    as Hv.
  pose proof (sharpe_ratio_no_raise (get_portfolio_returns (portfolio rc)))
    as Hs.
  pose proof (max_drawdown_no_raise (get_portfolio_returns (portfolio rc)))
    as Hd.
  destruct hv as [x| |e1]; cbn [or_abort];
    try (intro H; injection H as <-; apply Hh; reflexivity).
  all: destruct (calculate_parametric_var norm_ppf rc _) as [x1| |e2];
    cbn [or_abort];
    try (intro H; exfalso; apply Hp; eexists; reflexivity).
  all: destruct mv as [x2| |e3]; cbn [or_abort];
    try (intro H; injection H as <-; apply Hm; reflexivity).
  all: destruct (calculate_volatility _) as [x3| |e4]; cbn [or_abort];
    try (intro H; exfalso; apply Hv; eexists; reflexivity).
  all: destruct (calculate_sharpe_ratio _) as [x4| |e5]; cbn [or_abort];
    try (intro H; exfalso; apply Hs; eexists; reflexivity).
  all: destruct (calculate_max_drawdown _) as [x5| |e6]; cbn [or_abort];
    try (intro H; exfalso; apply Hd; eexists; reflexivity).
  all: intro H; discriminate.
Qed.

Lemma historical_var_zero_horizon (rc : RiskCalculator) (g : Generator)
      (st : RandomState) (returns : list R) :
  time_horizon rc = 0%Z -> returns <> [] -> 0 <= alpha rc * 100 <= 100 ->
  fst (calculate_historical_var rc g st returns) = Num 0.
Proof.
  intros Hh Hne Hq. rewrite historical_var_unfold by lia. cbn [fst].
  rewrite Hh, sqrt_0.
  rewrite (percentile_constant 0).
  - simpl. rewrite Rmult_0_l, Rabs_R0. reflexivity.
  - apply bootstrap_nonempty. destruct returns; [contradiction|discriminate].
  - apply bootstrap_from; [|constructor].
    apply Forall_forall. intros x Hx. apply in_map_iff in Hx.
    destruct Hx as [r [<- _]]. ring.
  - exact Hq.
Qed.

(** C9 (as stated) fails: with [timeHorizon = 0] the calculator is
    constructed and historical VaR returns the number 0; nothing is
    raised. *)
Lemma zero_horizon_is_accepted :
  exists rc : RiskCalculator,
    init hedged_portfolio (95 / 100) 0 10000 = Num rc
    /\ fst (calculate_historical_var rc counting_generator 0%nat
              (get_portfolio_returns (portfolio rc)))
       = Num 0.
Proof.
  eexists. split; [reflexivity|].
  apply historical_var_zero_horizon.
  - reflexivity.
  - discriminate.
  - simpl. lra.
Qed.

(** C9 (amended): the calculator validates nothing.  For every
    configuration the construction succeeds and stores
    [alpha = 1 - confidenceLevel]; no computation raises
    [InvalidConfigurationError]; a confidence level outside [0, 1] makes
    the assembly of the results stop with numpy's [ValueError] (the
    percentile is out of range); with [timeHorizon = 0], a confidence level
    in [0, 1] and a non-empty table historical VaR is the number 0. *)
Theorem configuration_is_not_validated (norm_ppf : R -> R)
        (t_fit : list R -> R * R * R) (t_rvs : R * R * R -> RandomState -> R)
        (p : Portfolio) (c : R) (h n : Z) (g : Generator)
        (st : RandomState) :
  exists rc : RiskCalculator,
    init p c h n = Num rc
    /\ alpha rc = 1 - c
    /\ calculate_all_var_methods norm_ppf t_fit t_rvs rc g st
       <> Raised InvalidConfigurationError
    /\ (c < 0 \/ 1 < c ->
        calculate_all_var_methods norm_ppf t_fit t_rvs rc g st
        = Raised ValueError)
    /\ (h = 0%Z -> 0 <= c <= 1 -> rows (returns_data p) <> [] ->
        fst (calculate_historical_var rc g st (get_portfolio_returns p))
        = Num 0).
Proof.
  eexists. split; [reflexivity|]. split; [reflexivity|]. split; [|split].
  - intro H. apply all_methods_raised_error in H.
    destruct H; discriminate.
  - intro Hc. unfold calculate_all_var_methods.
    pose proof (historical_var_out_of_range (mkCalc p c h n (1 - c)) g st
                  (get_portfolio_returns p)) as Hh.
    cbn [portfolio] in *.
    destruct (calculate_historical_var _ g st _) as [hv st1].
    cbn [fst] in Hh. rewrite Hh by (simpl; lra). reflexivity.
  - intros Hh Hc Hrows. apply historical_var_zero_horizon.
    + exact Hh.
    + unfold get_portfolio_returns. intro E. apply Hrows.
      apply map_eq_nil in E. exact E.
    + simpl. lra.
Qed.

(** ** Maximum drawdown: the running maximum *)

Lemma max_drawdown_recovery :
  calculate_max_drawdown [- 1 / 2; 1] = Num 0
  /\ max_drawdown_global [- 1 / 2; 1] = Num (1 / 2).
Proof.
  split.
  - unfold calculate_max_drawdown, cumprod, expanding_max, drawdown_series.
    simpl.
    replace (1 * (1 + - 1 / 2)) with (1 / 2) by lra.
    replace (1 / 2 * (1 + 1)) with 1 by lra.
    rewrite (Rmax_right (1 / 2) 1) by lra.
    rewrite !cell_div_finite by lra. simpl.
    rewrite Rmin_left by lra.
    rewrite Rabs_pos_eq by lra. f_equal. lra.
  - unfold max_drawdown_global, cumprod. simpl.
    replace (1 * (1 + - 1 / 2)) with (1 / 2) by lra.
    replace (1 / 2 * (1 + 1)) with 1 by lra.
    rewrite (Rmax_left 1 (1 / 2)) by lra.
    rewrite (Rmax_right (1 / 2) 1) by lra.
    rewrite !cell_div_finite by lra. simpl.
    rewrite Rmin_left by lra.
    rewrite Rabs_left by lra. f_equal. lra.
Qed.

(** C7: the maximum drawdown is the absolute value of the minimum over the
    series of [(wealth - running max) / running max], where the wealth
    curve is the cumulative product of [1 + return] and the running maximum
    at a point is the maximum of the wealth up to and including that point,
    whatever comes later; on the returns 0.10, -0.20, 0.05 it is 0.20, and
    it differs from the figure measured against the maximum of the whole
    curve (0 against 0.5 on the returns -0.5, 1). *)
Theorem max_drawdown_running_maximum :
  (forall returns,
      calculate_max_drawdown returns
      = cell_abs
          (series_min
             (drawdown_series
                (cumprod (map (fun r => 1 + r) returns))
                (expanding_max (cumprod (map (fun r => 1 + r) returns))))))
  /\ (forall (pre post : list R) (x : R),
         nth (length pre) (expanding_max (pre ++ x :: post)) 0
         = fold_right Rmax x pre)
  /\ (forall (pre post : list R) (r : R),
         nth (length pre) (cumprod (map (fun r => 1 + r) (pre ++ r :: post))) 0
         = fold_left Rmult (map (fun r => 1 + r) pre) 1 * (1 + r))
  /\ calculate_max_drawdown [10 / 100; - 20 / 100; 5 / 100] = Num (20 / 100)
  /\ calculate_max_drawdown [- 1 / 2; 1] = Num 0
  /\ max_drawdown_global [- 1 / 2; 1] = Num (1 / 2).
Proof.
  split; [reflexivity|].
  split; [exact expanding_max_nth|].
  split.
  - intros pre post r. unfold cumprod.
    rewrite map_app, cumprod_from_app. simpl.
    rewrite app_nth2; rewrite cumprod_from_length, length_map; [|lia].
    rewrite Nat.sub_diag. reflexivity.
  - split; [exact max_drawdown_scenario|exact max_drawdown_recovery].
Qed.

(** ** The decomposition and the parametric figure *)

Lemma map_Num_injective (xs ys : list R) :
  map Num xs = map Num ys -> xs = ys.
Proof.
  revert ys; induction xs as [|x xs IH]; intros [|y ys] H; simpl in H;
    try discriminate; [reflexivity|].
  injection H as Hx Hxs. rewrite Hx, (IH ys Hxs). reflexivity.
Qed.

(** C6 (as stated) fails in its second half: whatever the quantile
    function, the sum of the component VaR values of the hedged portfolio
    cannot be within 1% of parametric VaR at every horizon, since the
    former ignores the horizon and the latter doubles from horizon 1 to
    horizon 4. *)
Lemma component_var_sum_is_not_parametric_var :
  ~ exists norm_ppf : R -> R,
      forall h : Z, (0 < h)%Z ->
        exists (component_vars : list R) (v : R),
          dict_values
            (calculate_component_var
               (mkCalc hedged_portfolio (95 / 100) h 10000 (1 - 95 / 100))
               hedged_frame)
          = map Num component_vars
          /\ calculate_parametric_var norm_ppf
               (mkCalc hedged_portfolio (95 / 100) h 10000 (1 - 95 / 100))
               hedged_frame
             = Num v
          /\ Rabs (sum component_vars - v) <= 1 / 100 * Rabs v.
Proof.
  intros [norm_ppf H].
  assert (Hsum : forall h,
             exists xs,
               dict_values
                 (calculate_component_var
                    (mkCalc hedged_portfolio (95 / 100) h 10000
                            (1 - 95 / 100))
                    hedged_frame) = map Num xs
               /\ sum xs = sqrt (504 / 10000) * 100000).
  { intro h.
    destruct (component_var_sum
                (mkCalc hedged_portfolio (95 / 100) h 10000 (1 - 95 / 100))
                hedged_frame) as [xs [Hv Hs]].
    - reflexivity.
    - exact hedged_columns_distinct.
    - unfold n_rows. simpl. lia.
    - cbn [portfolio]. change (weights hedged_portfolio)
        with (weights (portfolio hedged_calculator)).
      rewrite hedged_quad_form. lra.
    - exists xs. split; [exact Hv|]. rewrite Hs. cbn [portfolio].
      change (weights hedged_portfolio)
        with (weights (portfolio hedged_calculator)).
      rewrite hedged_quad_form. reflexivity. }
  assert (Hpar : forall h, (0 < h)%Z ->
             exists M,
               0 <= quad_form M (weights hedged_portfolio)
               /\ calculate_parametric_var norm_ppf
                    (mkCalc hedged_portfolio (95 / 100) h 10000
                            (1 - 95 / 100))
                    hedged_frame
                  = Num (Rabs (norm_ppf (1 - 95 / 100)
                               * sqrt (quad_form M (weights hedged_portfolio)
                                       * IZR h)
                               * 100000))
               /\ calculate_ewma_covariance hedged_frame = Num M).
  { intros h Hh.
    destruct (parametric_var_value norm_ppf
                (mkCalc hedged_portfolio (95 / 100) h 10000 (1 - 95 / 100)))
      as [M [HM [Hq Hv]]].
    - exact hedged_consistent.
    - unfold n_rows. simpl. lia.
    - simpl. lia.
    - simpl. lra.
    - exists M. split; [exact Hq|split; [exact Hv|exact HM]]. }
  destruct (H 1%Z) as [xs1 [v1 [Hx1 [Hv1 Hc1]]]]; [lia|].
  destruct (H 4%Z) as [xs4 [v4 [Hx4 [Hv4 Hc4]]]]; [lia|].
  destruct (Hsum 1%Z) as [ys1 [Hy1 Hs1]].
  destruct (Hsum 4%Z) as [ys4 [Hy4 Hs4]].
  rewrite Hy1 in Hx1. apply map_Num_injective in Hx1. subst ys1.
  rewrite Hy4 in Hx4. apply map_Num_injective in Hx4. subst ys4.
  destruct (Hpar 1%Z) as [M [Hq [Hp1 HM]]]; [lia|].
  destruct (Hpar 4%Z) as [M' [_ [Hp4 HM']]]; [lia|].
  rewrite HM in HM'. injection HM' as <-.
  set (q := quad_form M (weights hedged_portfolio)) in *.
  set (z := norm_ppf (1 - 95 / 100)) in *.
  assert (E1 : v1 = Rabs (z * sqrt (q * 1) * 100000)) by congruence.
  assert (E4' : v4 = Rabs (z * sqrt (q * 4) * 100000)) by congruence.
  assert (E4 : v4 = 2 * v1).
  { rewrite E4', E1. rewrite Rmult_1_r.
    rewrite sqrt_mult by lra.
    replace 4 with (2 * 2) by ring. rewrite sqrt_square by lra.
    rewrite !Rabs_mult. rewrite (Rabs_pos_eq 2) by lra. ring. }
  assert (Hv1pos : 0 <= v1) by (rewrite E1; apply Rabs_pos).
  assert (HS : 0 < sqrt (504 / 10000) * 100000).
  { apply Rmult_lt_0_compat; [apply sqrt_lt_R0|]; lra. }
  rewrite Hs1 in Hc1. rewrite Hs4, E4 in Hc4.
  rewrite (Rabs_pos_eq v1) in Hc1 by exact Hv1pos.
  rewrite (Rabs_pos_eq (2 * v1)) in Hc4 by lra.
  pose proof (Rle_abs (sqrt (504 / 10000) * 100000 - v1)) as B1.
  pose proof (Rle_abs (2 * v1 - sqrt (504 / 10000) * 100000)) as B4.
  rewrite Rabs_minus_sym in B4.
  lra.
Qed.

(** * Instances on the worked portfolios *)

Lemma ewma_covariance_contract_witness :
  well_formed hedged_frame
  /\ (2 <= n_rows hedged_frame)%nat
  /\ exists M : matrix,
       calculate_ewma_covariance hedged_frame = Num M
       /\ M = fold_left
                (fun C r =>
                   mat_add (mat_scale (94 / 100) C)
                           (mat_scale (1 - 94 / 100) (outer r)))
                (tl (rows hedged_frame))
                (mat_scale 252 (cov_matrix_of hedged_frame))
       /\ cov hedged_frame = Num (cov_matrix_of hedged_frame)
       /\ square (n_cols hedged_frame) M
       /\ symmetric M
       /\ positive_semi_definite (n_cols hedged_frame) M.
Proof.
  split; [exact (proj1 hedged_consistent)|].
  split; [exact hedged_two_rows|].
  apply (ewma_covariance_contract hedged_frame).
  - exact (proj1 hedged_consistent).
  - exact hedged_two_rows.
Defined.

Lemma component_var_sums_to_total_witness :
  0 < quad_form (mat_scale 252 (cov_matrix_of hedged_frame))
                (weights (portfolio hedged_calculator))
  /\ exists component_vars : list R,
       dict_keys (calculate_component_var hedged_calculator hedged_frame)
       = columns hedged_frame
       /\ dict_values (calculate_component_var hedged_calculator hedged_frame)
          = map Num component_vars
       /\ sum component_vars
          = sqrt (quad_form (mat_scale 252 (cov_matrix_of hedged_frame))
                            (weights (portfolio hedged_calculator)))
            * value (portfolio hedged_calculator)
       /\ forall tol, 0 <= tol ->
            Rabs (sum component_vars
                  - sqrt (quad_form (mat_scale 252
                                       (cov_matrix_of hedged_frame))
                                    (weights (portfolio hedged_calculator)))
                    * value (portfolio hedged_calculator))
            <= tol
               * Rabs (sqrt (quad_form (mat_scale 252
                                          (cov_matrix_of hedged_frame))
                                       (weights (portfolio hedged_calculator)))
                       * value (portfolio hedged_calculator)).
Proof.
  assert (Hq : 0 < quad_form (mat_scale 252 (cov_matrix_of hedged_frame))
                         (weights (portfolio hedged_calculator)))
    by (rewrite hedged_quad_form; lra).
  split; [exact Hq|].
  apply (component_var_sums_to_total hedged_calculator hedged_frame).
  - reflexivity.
  - exact hedged_columns_distinct.
  - exact hedged_two_rows.
  - exact Hq.
Defined.

Lemma parametric_var_horizon_scaling_witness :
  (0 < 4)%Z
  /\ calculate_parametric_var sample_ppf
       (mkCalc hedged_portfolio (95 / 100) 4 10000 (1 - 95 / 100))
       (get_returns hedged_portfolio)
     = result_map (fun v_1 => sqrt (IZR 4) * v_1)
         (calculate_parametric_var sample_ppf
            (mkCalc hedged_portfolio (95 / 100) 1 10000 (1 - 95 / 100))
            (get_returns hedged_portfolio))
  /\ (consistent hedged_portfolio ->
      (2 <= n_rows (returns_data hedged_portfolio))%nat ->
      0 < 95 / 100 < 1 ->
      exists v_1,
        calculate_parametric_var sample_ppf
          (mkCalc hedged_portfolio (95 / 100) 1 10000 (1 - 95 / 100))
          (get_returns hedged_portfolio) = Num v_1).
Proof.
  split; [lia|].
  apply (parametric_var_horizon_scaling sample_ppf hedged_portfolio
           (95 / 100) 4 10000).
  - lia.
  - reflexivity.
  - reflexivity.
Defined.

Lemma historical_var_constant_series_witness :
  [1 / 100; 1 / 100] <> []
  /\ Forall (eq (1 / 100)) [1 / 100; 1 / 100]
  /\ (0 <= time_horizon flat_calculator)%Z
  /\ 0 <= confidence_level flat_calculator <= 1
  /\ fst (calculate_historical_var flat_calculator counting_generator 0%nat
            [1 / 100; 1 / 100])
     = Num (Rabs (1 / 100) * sqrt (IZR (time_horizon flat_calculator))
            * Rabs (value (portfolio flat_calculator)))
  /\ (1 / 100 = 0 ->
      fst (calculate_historical_var flat_calculator counting_generator 0%nat
             [1 / 100; 1 / 100]) = Num 0).
Proof.
  assert (H1 : [1 / 100; 1 / 100] <> []) by discriminate.
  assert (H2 : Forall (eq (1 / 100)) [1 / 100; 1 / 100])
    by (repeat constructor).
  assert (H3 : (0 <= time_horizon flat_calculator)%Z) by (simpl; lia).
  assert (H4 : 0 <= confidence_level flat_calculator <= 1) by (simpl; lra).
  split; [exact H1|split; [exact H2|split; [exact H3|split; [exact H4|]]]].
  apply (historical_var_constant_series flat_calculator counting_generator
           0%nat (1 / 100) [1 / 100; 1 / 100] H1 H2 H3 H4).
  reflexivity.
Defined.

Lemma flat_quad_form :
  quad_form (mat_scale 252 (cov_matrix_of (returns_data
                                              (portfolio flat_calculator))))
            (weights (portfolio flat_calculator)) = 0.
Proof.
  unfold quad_form, mat_vec, mat_scale, cov_matrix_of, co_moment, column,
    mean, flat_calculator, flat_portfolio, flat_frame, equal_weights.
  simpl. lra.
Qed.

Lemma flat_std : std [1 / 100; 1 / 100] = Num 0.
Proof. apply (std_constant (1 / 100)); [repeat constructor|simpl; lia]. Qed.

Lemma zero_variance_outcomes_witness :
  std [1 / 100; 1 / 100] = Num 0
  /\ calculate_sharpe_ratio [1 / 100; 1 / 100] = NotFinite
  /\ Forall (eq NotFinite)
            (dict_values
               (calculate_component_var flat_calculator
                  (get_returns (portfolio flat_calculator))))
  /\ ~ raises (calculate_parametric_var sample_ppf flat_calculator
                 (get_returns (portfolio flat_calculator)))
  /\ (consistent (portfolio flat_calculator) ->
      (0 <= time_horizon flat_calculator)%Z ->
      0 < alpha flat_calculator < 1 ->
      exists v,
        calculate_parametric_var sample_ppf flat_calculator
          (get_returns (portfolio flat_calculator)) = Num v).
Proof.
  split; [exact flat_std|].
  apply (zero_variance_outcomes sample_ppf flat_calculator
           [1 / 100; 1 / 100]).
  - exact flat_std.
  - unfold n_rows. simpl. lia.
  - exact flat_quad_form.
Defined.

Lemma hedged_valid_configuration : valid_configuration (95 / 100) 1 10000.
Proof. unfold valid_configuration. repeat split; try lra; lia. Defined.

Lemma var_values_nonnegative_witness :
  valid_configuration (95 / 100) 1 10000
  /\ consistent hedged_portfolio
  /\ exists (res : Results) (hv pv mv : R),
       calculate_all_var_methods sample_ppf sample_t_fit sample_t_rvs
         hedged_calculator counting_generator 0%nat = Num res
       /\ historical res = Num hv /\ 0 <= hv
       /\ parametric res = Num pv /\ 0 <= pv
       /\ monte_carlo res = Num mv /\ 0 <= mv.
Proof.
  split; [exact hedged_valid_configuration|].
  split; [exact hedged_consistent|].
  apply (var_values_nonnegative sample_ppf sample_t_fit sample_t_rvs
           hedged_portfolio (95 / 100) 1 10000 hedged_calculator
           counting_generator 0%nat).
  - exact hedged_valid_configuration.
  - exact hedged_consistent.
  - exact hedged_two_rows.
  - reflexivity.
Defined.

Lemma sample_ppf_increasing (x y : R) :
  0 < x -> x <= y -> y < 1 -> sample_ppf x <= sample_ppf y.
Proof. unfold sample_ppf. intros. lra. Defined.

Lemma sample_ppf_median : sample_ppf (1 / 2) = 0.
Proof. unfold sample_ppf. lra. Defined.

Lemma var_monotone_in_confidence_witness :
  95 / 100 < 99 / 100
  /\ (exists v1 v2,
         fst (calculate_historical_var
                (mkCalc hedged_portfolio (95 / 100) 1 10000 (1 - 95 / 100))
                counting_generator 0%nat
                (get_portfolio_returns hedged_portfolio)) = Num v1
         /\ fst (calculate_historical_var
                   (mkCalc hedged_portfolio (99 / 100) 1 10000 (1 - 99 / 100))
                   counting_generator 0%nat
                   (get_portfolio_returns hedged_portfolio)) = Num v2)
  /\ (exists v1 v2,
         fst (calculate_monte_carlo_var sample_t_fit sample_t_rvs
                (mkCalc hedged_portfolio (95 / 100) 1 10000 (1 - 95 / 100))
                (get_returns hedged_portfolio) 0%nat) = Num v1
         /\ fst (calculate_monte_carlo_var sample_t_fit sample_t_rvs
                   (mkCalc hedged_portfolio (99 / 100) 1 10000 (1 - 99 / 100))
                   (get_returns hedged_portfolio) 0%nat) = Num v2)
  /\ (exists v1 v2,
        calculate_parametric_var sample_ppf
          (mkCalc hedged_portfolio (95 / 100) 1 10000 (1 - 95 / 100))
          (get_returns hedged_portfolio) = Num v1
        /\ calculate_parametric_var sample_ppf
             (mkCalc hedged_portfolio (99 / 100) 1 10000 (1 - 99 / 100))
             (get_returns hedged_portfolio) = Num v2
        /\ v1 <= v2).
Proof.
  split; [lra|].
  assert (Hh : (0 < 1)%Z) by reflexivity.
  assert (Hn : (0 < 10000)%Z) by reflexivity.
  assert (H1 : 0 < 95 / 100) by lra.
  assert (H12 : 95 / 100 < 99 / 100) by lra.
  assert (H2 : 99 / 100 < 1) by lra.
  assert (Hc : 1 / 2 <= 95 / 100) by lra.
  destruct (var_monotone_in_confidence sample_ppf sample_t_fit sample_t_rvs
              hedged_portfolio 1 10000 counting_generator 0%nat
              (95 / 100) (99 / 100)
              (mkCalc hedged_portfolio (95 / 100) 1 10000 (1 - 95 / 100))
              (mkCalc hedged_portfolio (99 / 100) 1 10000 (1 - 99 / 100))
              sample_ppf_increasing sample_ppf_median hedged_consistent
              hedged_two_rows Hh Hn H1 H12 H2 eq_refl eq_refl)
    as [[q1 [q2 [v1 [v2 [_ [_ [_ [Ev1 [Ev2 _]]]]]]]]]
        [[m1 [m2 [w1 [w2 [_ [_ [_ [Ew1 [Ew2 _]]]]]]]]] Hpar]].
  split; [exists v1, v2; split; assumption|].
  split; [exists w1, w2; split; assumption|].
  exact (Hpar Hc).
Defined.


(** * Further properties of the engine *)

(** ** Bounds on historical VaR *)

Lemma interpolate_abs_bound (s : list R) (v B : R) :
  StronglySorted Rle s -> 0 <= v <= INR (length s - 1) -> s <> [] ->
  Forall (fun x => Rabs x <= B) s ->
  Rabs (interpolate s v) <= B.
Proof.
  intros Hs Hv Hne HB.
  assert (Hlen : (0 < length s)%nat) by (destruct s; simpl; [contradiction|lia]).
  pose proof (floor_nat_le v (length s - 1) Hv) as Hf.
  destruct (interpolate_between s v Hs Hv Hne) as [Hlo Hhi].
  rewrite Forall_forall in HB.
  assert (H1 : Rabs (nth (floor_nat v) s 0) <= B)
    by (apply HB, nth_In; lia).
  assert (H2 : Rabs (nth (Nat.min (floor_nat v + 1) (length s - 1)) s 0) <= B)
    by (apply HB, nth_In; lia).
  revert H1 H2. unfold Rabs.
  repeat destruct (Rcase_abs _); intros; lra.
Qed.

(** X1: on a non-empty series whose returns are at most [B] in absolute
    value, historical VaR is a number between 0 and
    [B * sqrt(timeHorizon) * |value|], whatever the random draws. *)
Theorem historical_var_bounded (rc : RiskCalculator) (g : Generator)
        (st : RandomState) (returns : list R) (B : R) :
  returns <> [] ->
  (0 <= time_horizon rc)%Z ->
  0 <= alpha rc * 100 <= 100 ->
  Forall (fun r => Rabs r <= B) returns ->
  exists v,
    fst (calculate_historical_var rc g st returns) = Num v
    /\ 0 <= v <= B * sqrt (IZR (time_horizon rc)) * Rabs (value (portfolio rc)).
Proof.
  intros Hne Hh Hq HB.
  rewrite historical_var_unfold by exact Hh. cbn [fst].
  set (s := sqrt (IZR (time_horizon rc))).
  assert (Hs : 0 <= s) by apply sqrt_pos.
  set (pool := fst (bootstrap g 1000 st (map (fun r => r * s) returns) [])).
  assert (Hpool : pool <> []).
  { apply bootstrap_nonempty. destruct returns; [contradiction|discriminate]. }
  assert (Hbound : Forall (fun x => Rabs x <= B * s) pool).
  { apply bootstrap_from; [|constructor].
    apply Forall_forall. intros x Hx. apply in_map_iff in Hx.
    destruct Hx as [r [<- Hr]]. rewrite Forall_forall in HB.
    rewrite Rabs_mult, (Rabs_pos_eq s) by exact Hs.
    apply Rmult_le_compat_r; [exact Hs|apply HB; exact Hr]. }
  rewrite percentile_in_range by assumption. cbn [bind].
  eexists. split; [reflexivity|]. split; [apply Rabs_pos|].
  rewrite Rabs_mult.
  apply Rmult_le_compat_r; [apply Rabs_pos|].
  apply interpolate_abs_bound.
  - apply sort_sorted.
  - rewrite length_sort. apply virtual_index_bounds. exact Hq.
  - intro E. apply Hpool. apply length_zero_iff_nil.
    rewrite <- length_sort, E. reflexivity.
  - eapply Permutation_Forall; [apply sort_perm|exact Hbound].
Qed.

(** ** When the assembly of the results raises *)

Lemma percentile_no_raise (a : list R) (q : R) :
  a <> [] -> 0 <= q <= 100 -> ~ raises (percentile a q).
Proof.
  intros Ha [H0 H1] [e H]. unfold percentile in H.
  destruct (Rle_dec 0 q); [|contradiction].
  destruct (Rle_dec q 100); [|contradiction].
  destruct a; [contradiction|discriminate].
Qed.

Lemma bind_abs_no_raise (m : result R) (f : R -> R) :
  ~ raises m -> ~ raises (x <- m ;; Num (f x)).
Proof.
  intros Hm [e H]. destruct m as [x| |e']; simpl in H; try discriminate.
  apply Hm. exists e'. reflexivity.
Qed.

Lemma historical_var_no_raise (rc : RiskCalculator) (g : Generator)
      (st : RandomState) (returns : list R) :
  returns <> [] ->
  0 <= alpha rc * 100 <= 100 ->
  ~ raises (fst (calculate_historical_var rc g st returns)).
Proof.
  intros Hne Hq. unfold calculate_historical_var.
  assert (Hnan : ~ raises (percentile_of_nan (alpha rc * 100))).
  { intros [e H]. unfold percentile_of_nan in H.
    destruct (Rle_dec 0 _); [destruct (Rle_dec _ 100)|];
      try discriminate; lra. }
  destruct (np_sqrt (IZR (time_horizon rc))) as [s| |e']; cbn [fst];
    try (destruct returns; [contradiction|exact Hnan]).
  assert (Hpool : fst (bootstrap g 1000 st (map (fun r => r * s) returns) [])
                  <> []).
  { apply bootstrap_nonempty. destruct returns; [contradiction|discriminate]. }
  destruct (bootstrap g 1000 st _ []) as [pool st']. cbn [fst] in *.
  apply bind_abs_no_raise. apply percentile_no_raise; assumption.
Qed.

Lemma monte_carlo_var_no_raise (t_fit : list R -> R * R * R)
      (t_rvs : R * R * R -> RandomState -> R) (rc : RiskCalculator)
      (returns : DataFrame) (st : RandomState) :
  0 <= alpha rc * 100 <= 100 ->
  (0 < simulations rc)%Z -> (0 <= time_horizon rc)%Z ->
  ~ raises (fst (calculate_monte_carlo_var t_fit t_rvs rc returns st)).
Proof.
  intros Hq Hn Hh. unfold calculate_monte_carlo_var.
  assert (E : (0 <? simulations rc)%Z && (time_horizon rc <? 0)%Z = false).
  { destruct (Z.ltb_spec 0 (simulations rc));
      destruct (Z.ltb_spec (time_horizon rc) 0); try reflexivity; lia. }
  rewrite E.
  assert (Hsc : fst (scenarios_loop t_rvs
                       (t_fit (get_portfolio_returns (portfolio rc)))
                       (Z.to_nat (simulations rc)) st
                       (Z.to_nat (time_horizon rc))
                       (value (portfolio rc)) []) <> [])
    by (apply scenarios_nonempty; lia).
  destruct (scenarios_loop t_rvs _ _ st _ _ []) as [scenarios st'].
  cbn [fst] in *. apply bind_abs_no_raise.
  apply percentile_no_raise; assumption.
Qed.

Lemma monte_carlo_var_negative_size (t_fit : list R -> R * R * R)
      (t_rvs : R * R * R -> RandomState -> R) (rc : RiskCalculator)
      (returns : DataFrame) (st : RandomState) :
  (0 < simulations rc)%Z -> (time_horizon rc < 0)%Z ->
  calculate_monte_carlo_var t_fit t_rvs rc returns st
  = (Raised ValueError, st).
Proof.
  intros Hn Hh. unfold calculate_monte_carlo_var.
  destruct (Z.ltb_spec 0 (simulations rc)); [|lia].
  destruct (Z.ltb_spec (time_horizon rc) 0); [|lia].
  reflexivity.
Qed.

(** X2: on a consistent, non-empty return table, the assembly of the result mapping
    stops with numpy's [ValueError] when the tail percentile [alpha * 100]
    is outside [0, 100], and when the simulation
    count is positive and the horizon negative; with the percentile in
    range, a positive simulation count and a non-negative horizon a mapping
    is returned, whatever the data. *)
Theorem all_methods_raise_exactly (norm_ppf : R -> R)
        (t_fit : list R -> R * R * R) (t_rvs : R * R * R -> RandomState -> R)
        (rc : RiskCalculator) (g : Generator) (st : RandomState) :
  consistent (portfolio rc) ->
  rows (returns_data (portfolio rc)) <> [] ->
  (alpha rc * 100 < 0 \/ 100 < alpha rc * 100 ->
   calculate_all_var_methods norm_ppf t_fit t_rvs rc g st
   = Raised ValueError)
  /\ ((0 < simulations rc)%Z -> (time_horizon rc < 0)%Z ->
      calculate_all_var_methods norm_ppf t_fit t_rvs rc g st
      = Raised ValueError)
  /\ (0 <= alpha rc * 100 <= 100 ->
      (0 < simulations rc)%Z -> (0 <= time_horizon rc)%Z ->
      exists res,
        calculate_all_var_methods norm_ppf t_fit t_rvs rc g st = Num res).
Proof.
  intros _ Hrows.
  assert (Hne : get_portfolio_returns (portfolio rc) <> []).
  { unfold get_portfolio_returns. intro E. apply Hrows.
    apply map_eq_nil in E. exact E. }
  split; [|split].
  - intro Hc. unfold calculate_all_var_methods.
    pose proof (historical_var_out_of_range rc g st
                  (get_portfolio_returns (portfolio rc)) Hc) as Hh.
    destruct (calculate_historical_var rc g st _) as [hv st1].
    cbn [fst] in Hh. rewrite Hh. reflexivity.
  - intros Hn Hneg.
    destruct (Rlt_dec (alpha rc * 100) 0) as [Hlo|Hlo];
      [|destruct (Rlt_dec 100 (alpha rc * 100)) as [Hhi|Hhi]].
    + unfold calculate_all_var_methods.
      pose proof (historical_var_out_of_range rc g st
                    (get_portfolio_returns (portfolio rc)) (or_introl Hlo))
        as Hh.
      destruct (calculate_historical_var rc g st _) as [hv st1].
      cbn [fst] in Hh. rewrite Hh. reflexivity.
    + unfold calculate_all_var_methods.
      pose proof (historical_var_out_of_range rc g st
                    (get_portfolio_returns (portfolio rc)) (or_intror Hhi))
        as Hh.
      destruct (calculate_historical_var rc g st _) as [hv st1].
      cbn [fst] in Hh. rewrite Hh. reflexivity.
    + unfold calculate_all_var_methods.
      pose proof (historical_var_no_raise rc g st
                    (get_portfolio_returns (portfolio rc)) Hne) as Hh.
      destruct (calculate_historical_var rc g st _) as [hv st1].
      cbn [fst] in Hh.
      rewrite (or_abort_no_raise hv) by (apply Hh; lra).
      rewrite or_abort_no_raise by apply parametric_var_no_raise.
      rewrite monte_carlo_var_negative_size by assumption.
      reflexivity.
  - intros Hq Hn Hh.
    apply all_methods_returned.
    + apply historical_var_no_raise; assumption.
    + apply monte_carlo_var_no_raise; assumption.
Qed.

(** ** Fewer than two observations *)

Lemma length_portfolio_returns (p : Portfolio) :
  length (get_portfolio_returns p) = n_rows (returns_data p).
Proof. unfold get_portfolio_returns, n_rows. apply length_map. Qed.

(** X3: on a consistent table with fewer than two observations nothing
    is raised: the volatility and the Sharpe ratio of the portfolio series, parametric VaR and every
    component VaR are not a number ([nan]). *)
Theorem fewer_than_two_observations (norm_ppf : R -> R)
        (rc : RiskCalculator) :
  consistent (portfolio rc) ->
  (n_rows (returns_data (portfolio rc)) <= 1)%nat ->
  calculate_volatility (get_portfolio_returns (portfolio rc)) = NotFinite
  /\ calculate_sharpe_ratio (get_portfolio_returns (portfolio rc))
     = NotFinite
  /\ calculate_parametric_var norm_ppf rc (get_returns (portfolio rc))
     = NotFinite
  /\ Forall (eq NotFinite)
            (dict_values
               (calculate_component_var rc (get_returns (portfolio rc)))).
Proof.
  intros _ Hn.
  assert (Hstd : std (get_portfolio_returns (portfolio rc)) = NotFinite).
  { unfold std. rewrite length_portfolio_returns.
    destruct (Nat.leb_spec (n_rows (returns_data (portfolio rc))) 1);
      [reflexivity|lia]. }
  assert (Hcov : cov (get_returns (portfolio rc)) = NotFinite).
  { unfold cov, get_returns.
    destruct (Nat.leb_spec (n_rows (returns_data (portfolio rc))) 1);
      [reflexivity|lia]. }
  split; [|split; [|split]].
  - unfold calculate_volatility. rewrite Hstd. reflexivity.
  - unfold calculate_sharpe_ratio, calculate_sharpe_ratio_with,
      calculate_volatility. rewrite Hstd. reflexivity.
  - unfold calculate_parametric_var, calculate_ewma_covariance,
      calculate_ewma_covariance_with, dropna. rewrite Hcov. reflexivity.
  - apply component_var_values. intro i.
    unfold component_var_of. rewrite Hcov. reflexivity.
Qed.

(** ** Volatility *)

Lemma sum_map_shift (c : R) (s : list R) :
  sum (map (fun r => r + c) s) = sum s + INR (length s) * c.
Proof.
  induction s as [|x s IH].
  - simpl. ring.
  - change (length (x :: s)) with (S (length s)). rewrite S_INR.
    simpl. rewrite IH. ring.
Qed.

Lemma sum_map_times (k : R) (s : list R) :
  sum (map (fun r => k * r) s) = k * sum s.
Proof. induction s as [|x s IH]; simpl; [|rewrite IH]; ring. Qed.

Lemma mean_shift (c : R) (s : list R) :
  s <> [] -> mean (map (fun r => r + c) s) = mean s + c.
Proof.
  intro Hne. unfold mean. rewrite length_map, sum_map_shift.
  field. apply not_0_INR. destruct s; [contradiction|discriminate].
Qed.

Lemma mean_scale (k : R) (s : list R) :
  mean (map (fun r => k * r) s) = k * mean s.
Proof.
  unfold mean. rewrite length_map, sum_map_times. unfold Rdiv. ring.
Qed.

Lemma co_moment_self_as_sum (s : list R) :
  co_moment s s = sum (map (fun x => (x - mean s) * (x - mean s)) s).
Proof.
  unfold co_moment. generalize (mean s). intro m.
  induction s as [|x s IH]; simpl; [reflexivity|].
  rewrite IH. reflexivity.
Qed.

Lemma co_moment_shift (c : R) (s : list R) :
  co_moment (map (fun r => r + c) s) (map (fun r => r + c) s)
  = co_moment s s.
Proof.
  destruct s as [|x0 s0]; [reflexivity|].
  set (s := x0 :: s0).
  rewrite !co_moment_self_as_sum, mean_shift by discriminate.
  rewrite map_map. apply sum_map_ext. intros x _. ring.
Qed.

Lemma co_moment_scale (k : R) (s : list R) :
  co_moment (map (fun r => k * r) s) (map (fun r => k * r) s)
  = k * k * co_moment s s.
Proof.
  rewrite !co_moment_self_as_sum, mean_scale, map_map.
  rewrite <- sum_map_scale. apply sum_map_ext. intros x _. ring.
Qed.

Lemma co_moment_self_nonneg (s : list R) : 0 <= co_moment s s.
Proof.
  rewrite co_moment_self_as_sum. apply sum_map_nonneg.
  intro x. apply Rle_0_sqr.
Qed.

(** X4: the annualized volatility does not change when a constant is added
    to every return, is multiplied by [|k|] when every return is
    multiplied by [k], and is never negative. *)
Theorem volatility_shift_and_scale (returns : list R) (c k : R) :
  calculate_volatility (map (fun r => r + c) returns)
  = calculate_volatility returns
  /\ calculate_volatility (map (fun r => k * r) returns)
     = result_map (fun v => Rabs k * v) (calculate_volatility returns)
  /\ (forall v, calculate_volatility returns = Num v -> 0 <= v).
Proof.
  unfold calculate_volatility, std. rewrite !length_map.
  destruct (length returns <=? 1)%nat; simpl.
  - repeat split; try reflexivity. intros v H. discriminate.
  - rewrite co_moment_shift, co_moment_scale.
    split; [reflexivity|split].
    + f_equal. unfold Rdiv. rewrite !Rmult_assoc.
      rewrite <- (Rmult_assoc k k).
      rewrite sqrt_mult_alt by (apply Rle_0_sqr).
      fold (Rsqr k). rewrite sqrt_Rsqr_abs. ring.
    + intros v H. injection H as <-.
      apply Rmult_le_pos; apply sqrt_pos.
Qed.

(** ** Range of the maximum drawdown *)

Lemma series_min_finite (P : R -> Prop) (s : list cell) :
  (forall x y, P x -> P y -> P (Rmin x y)) ->
  s <> [] ->
  Forall (fun c => exists x, c = Finite x /\ P x) s ->
  exists m, series_min s = Finite m /\ P m.
Proof.
  intros Hmin Hne Hs. induction Hs as [|c s [x [-> Hx]] Hs IH];
    [contradiction|].
  unfold series_min. simpl. fold (series_min s).
  destruct s as [|c' s'].
  - simpl. exists x. split; [reflexivity|exact Hx].
  - destruct IH as [m [-> Hm]]; [discriminate|].
    simpl. exists (Rmin x m). split; [reflexivity|apply Hmin; assumption].
Qed.

Lemma drawdown_cells (P : R * R -> Prop) (Q : R -> Prop) (w mx : list R) :
  (forall a b, P (a, b) -> b <> 0 /\ Q ((a - b) / b)) ->
  Forall P (combine w mx) ->
  Forall (fun c => exists x, c = Finite x /\ Q x) (drawdown_series w mx).
Proof.
  intros HP H. unfold drawdown_series. apply Forall_forall.
  intros c Hc. apply in_map_iff in Hc. destruct Hc as [[a b] [<- Hin]].
  rewrite Forall_forall in H. destruct (HP a b (H _ Hin)) as [Hb Hq].
  simpl. rewrite cell_div_finite by exact Hb.
  eexists. split; [reflexivity|exact Hq].
Qed.

Lemma cumprod_from_positive (acc : R) (l : list R) :
  0 < acc -> Forall (fun x => 0 < x) l ->
  Forall (fun x => 0 < x) (cumprod_from acc l).
Proof.
  intros Hacc Hl; revert acc Hacc; induction Hl as [|x l Hx Hl IH];
    intros acc Hacc; simpl; constructor.
  - apply Rmult_lt_0_compat; assumption.
  - apply IH. apply Rmult_lt_0_compat; assumption.
Qed.

Lemma below_running_max_from (m : R) (w : list R) :
  0 < m -> Forall (fun x => 0 < x) w ->
  Forall (fun p => 0 < fst p <= snd p) (combine w (expanding_max_from m w)).
Proof.
  intros Hm Hw; revert m Hm; induction Hw as [|x w Hx Hw IH]; intros m Hm;
    simpl; constructor.
  - simpl. split; [exact Hx|apply Rmax_r].
  - apply IH. apply Rlt_le_trans with x; [exact Hx|apply Rmax_r].
Qed.

Lemma below_running_max (w : list R) :
  Forall (fun x => 0 < x) w ->
  Forall (fun p => 0 < fst p <= snd p) (combine w (expanding_max w)).
Proof.
  intro Hw. destruct Hw as [|x w Hx Hw]; simpl; constructor.
  - simpl. lra.
  - apply below_running_max_from; assumption.
Qed.

Lemma length_expanding_max (w : list R) :
  length (expanding_max w) = length w.
Proof.
  destruct w as [|x w]; simpl; [reflexivity|]. f_equal.
  generalize x. induction w as [|y w IH]; intro m; simpl;
    [reflexivity|rewrite IH; reflexivity].
Qed.

Lemma drawdown_series_nonempty (w : list R) :
  w <> [] -> drawdown_series w (expanding_max w) <> [].
Proof.
  intros Hne E. apply (f_equal (@length cell)) in E.
  unfold drawdown_series in E.
  rewrite length_map, length_combine, length_expanding_max in E.
  destruct w; [contradiction|]. simpl in E. lia.
Qed.

(** X5: on a non-empty series whose returns are all above -100% the
    maximum drawdown is a number in [0, 1). *)
Theorem max_drawdown_range (returns : list R) :
  returns <> [] ->
  Forall (fun r => -1 < r) returns ->
  exists d, calculate_max_drawdown returns = Num d /\ 0 <= d < 1.
Proof.
  intros Hne Hr. unfold calculate_max_drawdown.
  set (w := cumprod (map (fun r => 1 + r) returns)).
  assert (Hw : Forall (fun x => 0 < x) w).
  { unfold w, cumprod. apply cumprod_from_positive; [lra|].
    apply Forall_forall. intros x Hx. apply in_map_iff in Hx.
    destruct Hx as [r [<- Hin]]. rewrite Forall_forall in Hr.
    specialize (Hr r Hin). lra. }
  assert (Hwne : w <> []).
  { unfold w, cumprod. intro E. apply (f_equal (@length R)) in E.
    rewrite cumprod_from_length, length_map in E.
    destruct returns; [contradiction|discriminate]. }
  destruct (series_min_finite (fun x => -1 < x <= 0)
              (drawdown_series w (expanding_max w)))
    as [m [Hm Hrange]].
  - intros x y Hx Hy. unfold Rmin. destruct (Rle_dec x y); assumption.
  - apply drawdown_series_nonempty. exact Hwne.
  - apply (drawdown_cells (fun p => 0 < fst p <= snd p)).
    + intros a b [Ha Hab]. simpl in *. split; [lra|].
      assert (Hb : 0 < b) by lra.
      split.
      * apply Rmult_lt_reg_r with b; [exact Hb|].
        unfold Rdiv. rewrite Rmult_assoc, Rinv_l by lra. lra.
      * apply Rmult_le_reg_r with b; [exact Hb|].
        unfold Rdiv. rewrite Rmult_assoc, Rinv_l by lra. lra.
    + apply below_running_max. exact Hw.
  - rewrite Hm. simpl. exists (Rabs m). split; [reflexivity|].
    rewrite Rabs_left1 by lra. lra.
Qed.

Lemma wealth_is_running_max (acc m : R) (rs : list R) :
  0 < acc -> m <= acc -> Forall (fun r => 0 <= r) rs ->
  Forall (fun p => 0 < fst p /\ snd p = fst p)
         (combine (cumprod_from acc (map (fun r => 1 + r) rs))
                  (expanding_max_from m
                     (cumprod_from acc (map (fun r => 1 + r) rs)))).
Proof.
  intros Hacc Hm Hrs; revert acc m Hacc Hm;
    induction Hrs as [|r rs Hr Hrs IH]; intros acc m Hacc Hm; simpl;
    [constructor|].
  assert (Hx : acc <= acc * (1 + r)) by nra.
  rewrite Rmax_right by lra.
  constructor.
  - simpl. split; [nra|reflexivity].
  - apply IH; lra.
Qed.

(** X6: on a non-empty series without a negative return the wealth curve
    never falls below its running maximum and the maximum drawdown is 0. *)
Theorem max_drawdown_without_losses (returns : list R) :
  returns <> [] ->
  Forall (fun r => 0 <= r) returns ->
  calculate_max_drawdown returns = Num 0.
Proof.
  intros Hne Hr. unfold calculate_max_drawdown.
  set (w := cumprod (map (fun r => 1 + r) returns)).
  assert (Hwne : w <> []).
  { unfold w, cumprod. intro E. apply (f_equal (@length R)) in E.
    rewrite cumprod_from_length, length_map in E.
    destruct returns; [contradiction|discriminate]. }
  destruct (series_min_finite (fun x => x = 0)
              (drawdown_series w (expanding_max w)))
    as [m [Hm ->]].
  - intros x y -> ->. unfold Rmin. destruct (Rle_dec 0 0); reflexivity.
  - apply drawdown_series_nonempty. exact Hwne.
  - apply (drawdown_cells (fun p => 0 < fst p /\ snd p = fst p)).
    + intros a b [Ha Hab]. simpl in *. subst b. split; [lra|].
      unfold Rdiv. ring.
    + unfold w, cumprod. destruct returns as [|r rs]; [contradiction|].
      inversion Hr as [|? ? Hr0 Hrs]; subst. simpl.
      constructor.
      * simpl. split; [nra|reflexivity].
      * apply wealth_is_running_max; [nra|lra|exact Hrs].
  - rewrite Hm. simpl. rewrite Rabs_R0. reflexivity.
Qed.

(** ** Homogeneity in the weights *)

Lemma mat_vec_scale (k : R) (M : matrix) (w : vec) :
  mat_vec M (map (fun x => k * x) w) = map (fun x => k * x) (mat_vec M w).
Proof.
  unfold mat_vec. rewrite map_map. apply map_ext. intro row.
  apply dot_scale_r.
Qed.

Lemma quad_form_scale_weights (k : R) (M : matrix) (w : vec) :
  quad_form M (map (fun x => k * x) w) = k * k * quad_form M w.
Proof.
  unfold quad_form. rewrite mat_vec_scale, dot_scale_l, dot_scale_r. ring.
Qed.

Lemma sqrt_square_times (k q : R) :
  0 <= q -> sqrt (k * k * q) = Rabs k * sqrt q.
Proof.
  intro Hq. rewrite sqrt_mult_alt by (apply Rle_0_sqr).
  fold (Rsqr k). rewrite sqrt_Rsqr_abs. reflexivity.
Qed.

(** X7: parametric VaR is positively homogeneous: multiplying every weight
    by [k <> 0] multiplies it by [|k|], and so does multiplying the
    portfolio value by [k] (it stays not-a-number when it was). *)
Theorem parametric_var_homogeneous (norm_ppf : R -> R) (rc : RiskCalculator)
        (df : DataFrame) (k : R) :
  length (weights (portfolio rc)) = n_cols df ->
  k <> 0 ->
  calculate_parametric_var norm_ppf
    (mkCalc (mkPortfolio (returns_data (portfolio rc))
                         (map (fun w => k * w) (weights (portfolio rc)))
                         (value (portfolio rc)))
            (confidence_level rc) (time_horizon rc) (simulations rc)
            (alpha rc))
    df
  = result_map (fun v => Rabs k * v)
               (calculate_parametric_var norm_ppf rc df)
  /\ calculate_parametric_var norm_ppf
       (mkCalc (mkPortfolio (returns_data (portfolio rc))
                            (weights (portfolio rc))
                            (k * value (portfolio rc)))
               (confidence_level rc) (time_horizon rc) (simulations rc)
               (alpha rc))
       df
     = result_map (fun v => Rabs k * v)
                  (calculate_parametric_var norm_ppf rc df).
Proof.
  intros _ Hk. unfold calculate_parametric_var, get_weights. cbn [portfolio
    weights value time_horizon alpha].
  destruct (calculate_ewma_covariance df) as [M| |e]; simpl;
    try (split; reflexivity).
  rewrite quad_form_scale_weights.
  set (q := quad_form M (weights (portfolio rc))).
  set (h := IZR (time_horizon rc)).
  assert (Hkk : 0 < k * k) by nra.
  unfold np_sqrt.
  destruct (Rlt_dec (q * h) 0) as [Hq|Hq].
  - destruct (Rlt_dec (k * k * q * h) 0) as [_|Hq']; [|exfalso; nra].
    simpl. split; reflexivity.
  - destruct (Rlt_dec (k * k * q * h) 0) as [Hq'|_]; [exfalso; nra|].
    simpl. destruct (z_score_of norm_ppf (alpha rc)) as [z| |e]; simpl;
      try (split; reflexivity).
    split; f_equal.
    + replace (k * k * q * h) with (k * k * (q * h)) by ring.
      rewrite sqrt_square_times by lra.
      rewrite !Rabs_mult, (Rabs_pos_eq (Rabs k)) by apply Rabs_pos.
      ring.
    + rewrite !Rabs_mult. ring.
Qed.

(** X8: each component VaR is homogeneous of degree one in the weights:
    multiplying every weight by [k > 0] multiplies every component by [k]
    (and leaves it not-a-number where it was). *)
Theorem component_var_homogeneous (rc : RiskCalculator) (df : DataFrame)
        (k : R) (i : nat) :
  length (weights (portfolio rc)) = n_cols df ->
  0 < k ->
  component_var_of
    (mkCalc (mkPortfolio (returns_data (portfolio rc))
                         (map (fun w => k * w) (weights (portfolio rc)))
                         (value (portfolio rc)))
            (confidence_level rc) (time_horizon rc) (simulations rc)
            (alpha rc))
    df i
  = result_map (fun v => k * v) (component_var_of rc df i).
Proof.
  intros _ Hk. unfold component_var_of, get_weights.
  cbn [portfolio weights value].
  destruct (cov df) as [C| |e]; simpl; try reflexivity.
  rewrite quad_form_scale_weights.
  set (M := mat_scale 252 C).
  set (w := weights (portfolio rc)).
  set (q := quad_form M w).
  assert (Hkk : 0 < k * k) by nra.
  unfold np_sqrt.
  destruct (Rlt_dec q 0) as [Hq|Hq].
  - destruct (Rlt_dec (k * k * q) 0) as [_|Hq']; [|exfalso; nra].
    reflexivity.
  - destruct (Rlt_dec (k * k * q) 0) as [Hq'|_]; [exfalso; nra|].
    simpl. rewrite sqrt_square_times by lra.
    rewrite (Rabs_pos_eq k) by lra.
    rewrite dot_scale_r, nth_map_scale.
    unfold np_div.
    destruct (Req_dec_T (sqrt q) 0) as [Hs|Hs].
    + destruct (Req_dec_T (k * sqrt q) 0) as [_|Hs'];
        [reflexivity|exfalso; apply Hs'; rewrite Hs; ring].
    + destruct (Req_dec_T (k * sqrt q) 0) as [Hs'|_];
        [exfalso; apply Hs; nra|].
      simpl. f_equal. field. split; lra.
Qed.

(** ** The component VaR mapping as a dictionary *)

Lemma dict_get_set_same (d : dict) (k : string) (v : result R) :
  dict_get (dict_set d k v) k = Some v.
Proof.
  induction d as [|[k' v'] d IH]; simpl.
  - rewrite String.eqb_refl. reflexivity.
  - destruct (String.eqb_spec k' k) as [->|Hne]; simpl.
    + rewrite String.eqb_refl. reflexivity.
    + destruct (String.eqb_spec k' k); [contradiction|exact IH].
Qed.

Lemma dict_get_set_other (d : dict) (k a : string) (v : result R) :
  a <> k -> dict_get (dict_set d k v) a = dict_get d a.
Proof.
  intro Hne. induction d as [|[k' v'] d IH]; simpl.
  - destruct (String.eqb_spec k a); [congruence|reflexivity].
  - destruct (String.eqb_spec k' k) as [->|Hk]; simpl.
    + destruct (String.eqb_spec k a); [congruence|reflexivity].
    + rewrite IH. reflexivity.
Qed.

Lemma dict_keys_set_in (d : dict) (k a : string) (v : result R) :
  In a (dict_keys (dict_set d k v)) <-> a = k \/ In a (dict_keys d).
Proof.
  induction d as [|[k' v'] d IH]; simpl.
  - intuition.
  - destruct (String.eqb_spec k' k) as [->|Hk]; simpl.
    + intuition.
    + rewrite IH. intuition.
Qed.

Lemma dict_keys_set_nodup (d : dict) (k : string) (v : result R) :
  NoDup (dict_keys d) -> NoDup (dict_keys (dict_set d k v)).
Proof.
  induction d as [|[k' v'] d IH]; simpl; intro H.
  - constructor; [intros []|constructor].
  - inversion H as [|? ? Hnin Hnd]; subst.
    destruct (String.eqb_spec k' k) as [->|Hk]; simpl.
    + constructor; assumption.
    + constructor; [|apply IH; exact Hnd].
      rewrite dict_keys_set_in. intros [E|Hin]; [congruence|contradiction].
Qed.

Section DictFold.

Variable f : nat -> result R.

Let assign (acc : dict) (ia : nat * string) : dict :=
  dict_set acc (snd ia) (f (fst ia)).

Lemma fold_assign_keys_nodup (l : list (nat * string)) (d : dict) :
  NoDup (dict_keys d) -> NoDup (dict_keys (fold_left assign l d)).
Proof.
  revert d; induction l as [|ia l IH]; intros d H; simpl; [exact H|].
  apply IH. apply dict_keys_set_nodup. exact H.
Qed.

Lemma fold_assign_keys_in (l : list (nat * string)) (d : dict) (a : string) :
  In a (dict_keys (fold_left assign l d))
  <-> In a (dict_keys d) \/ In a (map snd l).
Proof.
  revert d; induction l as [|ia l IH]; intro d; simpl.
  - intuition.
  - rewrite IH. unfold assign. rewrite dict_keys_set_in. intuition.
Qed.

Lemma fold_assign_get_absent (l : list (nat * string)) (d : dict)
      (a : string) :
  ~ In a (map snd l) ->
  dict_get (fold_left assign l d) a = dict_get d a.
Proof.
  revert d; induction l as [|ia l IH]; intros d H; simpl; [reflexivity|].
  simpl in H. rewrite IH by tauto.
  apply dict_get_set_other. intro E. apply H. left. symmetry. exact E.
Qed.

Lemma fold_assign_get_last (l1 l2 : list (nat * string)) (i : nat)
      (a : string) (d : dict) :
  ~ In a (map snd l2) ->
  dict_get (fold_left assign (l1 ++ (i, a) :: l2) d) a = Some (f i).
Proof.
  intro H. rewrite fold_left_app. simpl.
  rewrite fold_assign_get_absent by exact H.
  apply dict_get_set_same.
Qed.

End DictFold.

Lemma combine_seq_split (pre post : list string) (a : string) (s : nat) :
  combine (seq s (length (pre ++ a :: post))) (pre ++ a :: post)
  = combine (seq s (length pre)) pre
    ++ ((s + length pre)%nat, a)
    :: combine (seq (S (s + length pre)) (length post)) post.
Proof.
  revert s; induction pre as [|c pre IH]; intro s; simpl.
  - rewrite Nat.add_0_r. reflexivity.
  - rewrite IH. rewrite Nat.add_succ_r. reflexivity.
Qed.

(** X9: the component VaR mapping behaves as a Python dictionary filled in
    column order: its keys are distinct and are exactly the column labels;
    under a label it holds the component VaR of the last column that
    carries the label, so a duplicated label keeps one entry only; a label
    that is no column is absent. *)
Theorem component_var_mapping (rc : RiskCalculator) (df : DataFrame) :
  length (weights (portfolio rc)) = n_cols df ->
  NoDup (dict_keys (calculate_component_var rc df))
  /\ (forall a, In a (dict_keys (calculate_component_var rc df))
                <-> In a (columns df))
  /\ (forall pre a post,
         columns df = pre ++ a :: post -> ~ In a post ->
         dict_get (calculate_component_var rc df) a
         = Some (component_var_of rc df (length pre)))
  /\ (forall a, ~ In a (columns df) ->
                dict_get (calculate_component_var rc df) a = None).
Proof.
  intros _. unfold calculate_component_var, n_cols.
  destruct (combine_seq_columns (columns df) 0) as [_ Hsnd].
  split; [|split; [|split]].
  - apply (fold_assign_keys_nodup (component_var_of rc df)). constructor.
  - intro a.
    rewrite (fold_assign_keys_in (component_var_of rc df)), Hsnd.
    simpl. tauto.
  - intros pre a post E Hpost. rewrite E, combine_seq_split.
    apply (fold_assign_get_last (component_var_of rc df)).
    destruct (combine_seq_columns post (S (0 + length pre))) as [_ H].
    rewrite H. exact Hpost.
  - intros a Ha.
    rewrite (fold_assign_get_absent (component_var_of rc df))
      by (rewrite Hsnd; exact Ha).
    reflexivity.
Qed.

(** ** The weights of the EWMA recursion *)

Lemma square_step (lambda_param : R) (n : nat) (C : matrix) (r : vec) :
  square n C -> length r = n -> square n (ewma_step lambda_param C r).
Proof.
  intros HC Hr. unfold ewma_step. apply square_add.
  - apply square_scale. exact HC.
  - apply square_scale. rewrite <- Hr. apply square_outer.
Qed.

Lemma quad_form_step (lambda_param : R) (n : nat) (C : matrix) (r w : vec) :
  square n C -> length r = n ->
  quad_form (ewma_step lambda_param C r) w
  = lambda_param * quad_form C w
    + (1 - lambda_param) * (dot r w * dot r w).
Proof.
  intros HC Hr. unfold ewma_step.
  rewrite (quad_form_add n).
  - rewrite !quad_form_scale, quad_form_outer. reflexivity.
  - apply square_scale. exact HC.
  - apply square_scale. rewrite <- Hr. apply square_outer.
Qed.

Lemma ewma_fold_quad_form (lambda_param : R) (n : nat) (l : list (list R))
      (C : matrix) (w : vec) :
  square n C -> Forall (fun r => length r = n) l ->
  quad_form (fold_left (ewma_step lambda_param) l C) w
  = lambda_param ^ length l * quad_form C w
    + (1 - lambda_param)
      * sum (map (fun t => lambda_param ^ (length l - 1 - t)
                           * (dot (nth t l []) w * dot (nth t l []) w))
                 (seq 0 (length l))).
Proof.
  intros HC Hl; revert C HC; induction Hl as [|r l Hr Hl IH]; intros C HC.
  - simpl. ring.
  - simpl fold_left. rewrite IH by (apply square_step; assumption).
    rewrite (quad_form_step lambda_param n) by assumption.
    change (length (r :: l)) with (S (length l)).
    rewrite <- cons_seq, <- seq_shift. simpl map at 2. simpl sum.
    rewrite map_map.
    rewrite (sum_map_ext
               (fun t => lambda_param ^ (S (length l) - 1 - S t)
                         * (dot (nth (S t) (r :: l) []) w
                            * dot (nth (S t) (r :: l) []) w))
               (fun t => lambda_param ^ (length l - 1 - t)
                         * (dot (nth t l []) w * dot (nth t l []) w))).
    + simpl pow. replace (length l - 0 - 0)%nat with (length l) by lia.
      ring.
    + intros t _. simpl nth. f_equal. f_equal. lia.
Qed.

(** X10: on a table with at least two observations the quadratic form of
    the EWMA covariance is the annualized sample variance of the weighted
    portfolio damped by [0.94^(n-1)], plus [0.06] times the squared raw
    portfolio returns of the observations after the first, the one at
    position [t] damped by [0.94^(n-1-t)]: a later observation weighs
    more. *)
Theorem ewma_quadratic_form (df : DataFrame) (w : vec) :
  well_formed df ->
  (2 <= n_rows df)%nat ->
  length w = n_cols df ->
  exists M,
    calculate_ewma_covariance df = Num M
    /\ quad_form M w
       = (94 / 100) ^ (n_rows df - 1)
         * (252 * quad_form (cov_matrix_of df) w)
         + (1 - 94 / 100)
           * sum (map (fun t => (94 / 100) ^ (n_rows df - 1 - t)
                                * (dot (iloc df t) w * dot (iloc df t) w))
                      (seq 1 (n_rows df - 1))).
Proof.
  intros Hwf Hn Hw. eexists. split.
  - unfold calculate_ewma_covariance, calculate_ewma_covariance_with, dropna.
    rewrite cov_two_rows by exact Hn. simpl. rewrite ewma_loop_rows.
    reflexivity.
  - unfold well_formed in Hwf. unfold iloc, n_rows in *.
    destruct (rows df) as [|r0 l]; [simpl in Hn; lia|].
    inversion Hwf as [|? ? Hr0 Hl]; subst.
    simpl tl. simpl length.
    replace (S (length l) - 1)%nat with (length l) by lia.
    rewrite (ewma_fold_quad_form (94 / 100) (n_cols df)).
    + rewrite quad_form_scale. f_equal. f_equal.
      rewrite <- seq_shift, map_map.
      apply sum_map_ext. intros t _. simpl nth. f_equal. f_equal. lia.
    + apply square_scale. apply square_cov.
    + exact Hl.
Qed.

(** ** A horizon of zero periods *)

Lemma scenarios_loop_empty_draws (t_rvs : R * R * R -> RandomState -> R)
      (params : R * R * R) (trials : nat) (st : RandomState) (v : R)
      (acc : list R) :
  Forall (eq 0) acc ->
  Forall (eq 0) (fst (scenarios_loop t_rvs params trials st 0 v acc)).
Proof.
  revert st acc; induction trials as [|k IH]; intros st acc Hacc; simpl.
  - exact Hacc.
  - apply IH. apply Forall_app. split; [exact Hacc|].
    constructor; [ring|constructor].
Qed.

(** X11: with [timeHorizon = 0], a confidence level in (0, 1), a positive
    simulation count and a consistent table of at least two observations,
    the historical, parametric and Monte Carlo figures are all the number
    0. *)
Theorem zero_horizon_var_is_zero (norm_ppf : R -> R)
        (t_fit : list R -> R * R * R) (t_rvs : R * R * R -> RandomState -> R)
        (rc : RiskCalculator) (g : Generator) (st st' : RandomState) :
  time_horizon rc = 0%Z ->
  0 < alpha rc < 1 ->
  (0 < simulations rc)%Z ->
  consistent (portfolio rc) ->
  (2 <= n_rows (returns_data (portfolio rc)))%nat ->
  fst (calculate_historical_var rc g st
         (get_portfolio_returns (portfolio rc))) = Num 0
  /\ calculate_parametric_var norm_ppf rc (get_returns (portfolio rc))
     = Num 0
  /\ fst (calculate_monte_carlo_var t_fit t_rvs rc
            (get_returns (portfolio rc)) st') = Num 0.
Proof.
  intros Hh Ha Hn Hp Hrows.
  assert (Hq : 0 <= alpha rc * 100 <= 100) by lra.
  split; [|split].
  - apply historical_var_zero_horizon; [exact Hh| |exact Hq].
    apply portfolio_returns_nonempty. lia.
  - destruct (parametric_var_value norm_ppf rc Hp Hrows) as [M [_ [_ Hv]]];
      [lia|exact Ha|].
    rewrite Hv, Hh. rewrite Rmult_0_r, sqrt_0.
    f_equal. rewrite Rmult_0_r, Rmult_0_l. apply Rabs_R0.
  - rewrite monte_carlo_var_unfold by lia. rewrite Hh. simpl Z.to_nat.
    rewrite (percentile_constant 0).
    + simpl. rewrite Rabs_R0. reflexivity.
    + apply scenarios_nonempty. lia.
    + apply scenarios_loop_empty_draws. constructor.
    + exact Hq.
Qed.

(** * Properties of the portfolio manager *)

(** ** Weighting schemes *)

Lemma sum_repeat (x : R) (n : nat) : sum (repeat x n) = INR n * x.
Proof.
  induction n as [|n IH].
  - simpl. ring.
  - rewrite S_INR. simpl. rewrite IH. ring.
Qed.

Lemma map_Finite_repeat (x : R) (n : nat) :
  repeat (Finite x) n = map Finite (repeat x n).
Proof. induction n as [|n IH]; simpl; [|rewrite IH]; reflexivity. Qed.

Lemma calculate_weights_falls_back (assets : list string)
      (price_data returns_data : DataFrame) (method : string) :
  method = "equal"%string
  \/ (method <> "market_cap"%string /\ method <> "risk_parity"%string) ->
  calculate_weights assets price_data returns_data method
  = if (length assets =? 0)%nat then inl ZeroDivisionError
    else inr (repeat (Finite (1 / INR (length assets))) (length assets)).
Proof.
  intros [->|[H1 H2]]; unfold calculate_weights.
  - reflexivity.
  - destruct (String.eqb_spec method "equal"); [reflexivity|].
    destruct (String.eqb_spec method "market_cap"); [contradiction|].
    destruct (String.eqb_spec method "risk_parity"); [contradiction|].
    reflexivity.
Qed.

(** X12: the method ["equal"] and every method name the code does not
    know give the same result: with no asset the integer division
    [1/n_assets] raises [ZeroDivisionError]; otherwise each of the [n]
    weights is [1/n], all are positive and they sum to 1. *)
Theorem equal_weighting (assets : list string)
        (price_data returns_data : DataFrame) (method : string) :
  method = "equal"%string
  \/ (method <> "market_cap"%string /\ method <> "risk_parity"%string) ->
  (assets = [] ->
   calculate_weights assets price_data returns_data method
   = inl ZeroDivisionError)
  /\ (assets <> [] ->
      calculate_weights assets price_data returns_data method
      = inr (map Finite (equal_weights (length assets)))
      /\ length (equal_weights (length assets)) = length assets
      /\ Forall (fun w => 0 < w) (equal_weights (length assets))
      /\ sum (equal_weights (length assets)) = 1).
Proof.
  intro Hm. rewrite (calculate_weights_falls_back _ _ _ _ Hm).
  split.
  - intros ->. reflexivity.
  - intro Hne.
    assert (Hn : (0 < length assets)%nat)
      by (destruct assets; [contradiction|simpl; lia]).
    assert (Hpos : 0 < INR (length assets)) by (apply lt_0_INR; exact Hn).
    destruct (Nat.eqb_spec (length assets) 0) as [E|_]; [lia|].
    unfold equal_weights.
    split; [rewrite map_Finite_repeat; reflexivity|].
    split; [apply repeat_length|].
    split.
    + apply Forall_forall. intros w Hw. apply repeat_spec in Hw. subst w.
      apply Rdiv_lt_0_compat; lra.
    + rewrite sum_repeat. field. lra.
Qed.

Lemma sum_positive (l : list R) :
  l <> [] -> Forall (fun x => 0 < x) l -> 0 < sum l.
Proof.
  intros Hne H. induction H as [|x l Hx H IH]; [contradiction|].
  simpl. destruct l as [|y l'].
  - simpl. lra.
  - assert (0 < sum (y :: l')) by (apply IH; discriminate). lra.
Qed.

Lemma sum_map_div (total : R) (l : list R) :
  sum (map (fun p => p / total) l) = sum l / total.
Proof.
  induction l as [|x l IH]; simpl.
  - unfold Rdiv. ring.
  - rewrite IH. unfold Rdiv. ring.
Qed.

Lemma map_cell_div_finite (total : R) (l : list R) :
  total <> 0 ->
  map (fun p => cell_div p total) l
  = map Finite (map (fun p => p / total) l).
Proof.
  intro H. rewrite map_map. apply map_ext. intro p.
  apply cell_div_finite. exact H.
Qed.

(** X13: the method ["market_cap"] raises [IndexError] on an empty price
    table; otherwise, when the prices of the last row do not sum to zero,
    the weights are these prices divided by their sum, one per price
    column, they sum to 1, and they are positive when the prices are. *)
Theorem market_cap_weighting (assets : list string)
        (price_data returns_data : DataFrame) :
  (rows price_data = [] ->
   calculate_weights assets price_data returns_data "market_cap"
   = inl IndexError)
  /\ (rows price_data <> [] ->
      sum (last (rows price_data) []) <> 0 ->
      let recent_prices := last (rows price_data) [] in
      let ws := map (fun p => p / sum recent_prices) recent_prices in
      calculate_weights assets price_data returns_data "market_cap"
      = inr (map Finite ws)
      /\ length ws = length recent_prices
      /\ sum ws = 1
      /\ (Forall (fun p => 0 < p) recent_prices ->
          Forall (fun w => 0 < w) ws)).
Proof.
  split.
  - intros E. unfold calculate_weights. simpl String.eqb. rewrite E.
    reflexivity.
  - intros Hne Hsum. cbv zeta.
    set (recent := last (rows price_data) []) in *.
    set (ws := map (fun p => p / sum recent) recent).
    split; [|split; [|split]].
    + unfold calculate_weights. simpl String.eqb.
      destruct (rows price_data) as [|r0 l] eqn:E; [contradiction|].
      cbv zeta. f_equal. fold recent. unfold ws.
      apply map_cell_div_finite. exact Hsum.
    + apply length_map.
    + unfold ws. rewrite sum_map_div. field. exact Hsum.
    + intro Hpos. unfold ws. apply Forall_forall. intros w Hw.
      apply in_map_iff in Hw. destruct Hw as [p [<- Hp]].
      rewrite Forall_forall in Hpos.
      assert (Htot : 0 < sum recent).
      { apply sum_positive.
        - intro E. rewrite E in Hp. destruct Hp.
        - apply Forall_forall. exact Hpos. }
      apply Rdiv_lt_0_compat; [apply Hpos; exact Hp|exact Htot].
Qed.

Lemma fold_cell_add_finite (xs : list R) (a : R) :
  fold_left cell_add (map Finite xs) (Finite a) = Finite (a + sum xs).
Proof.
  revert a; induction xs as [|x xs IH]; intro a; simpl.
  - f_equal. ring.
  - rewrite IH. f_equal. ring.
Qed.

Lemma series_sum_finite (xs : list R) :
  series_sum (map Finite xs) = Finite (sum xs).
Proof.
  unfold series_sum.
  assert (E : filter (fun c => negb (is_nan c)) (map Finite xs)
              = map Finite xs).
  { induction xs as [|x xs IH]; simpl; [|rewrite IH]; reflexivity. }
  rewrite E, fold_cell_add_finite. f_equal. ring.
Qed.

(** X14: the method ["risk_parity"], when every return column has a
    positive standard deviation [sigma_j], gives one finite positive
    weight per column, [(1/sigma_j) / sum_i (1/sigma_i)]; the weights sum
    to 1 and [weight_j * sigma_j] is the same for every column. *)
Theorem risk_parity_weighting (assets : list string)
        (price_data returns_data : DataFrame) (sigma : nat -> R) :
  (1 <= n_cols returns_data)%nat ->
  (forall j, (j < n_cols returns_data)%nat ->
             std (column returns_data j) = Num (sigma j) /\ 0 < sigma j) ->
  let total :=
    sum (map (fun j => 1 / sigma j) (seq 0 (n_cols returns_data))) in
  let ws :=
    map (fun j => 1 / sigma j / total) (seq 0 (n_cols returns_data)) in
  calculate_weights assets price_data returns_data "risk_parity"
  = inr (map Finite ws)
  /\ length ws = n_cols returns_data
  /\ Forall (fun w => 0 < w) ws
  /\ sum ws = 1
  /\ (forall j, (j < n_cols returns_data)%nat ->
                nth j ws 0 * sigma j = 1 / total).
Proof.
  intros HN Hsig. cbv zeta.
  set (N := n_cols returns_data) in *.
  set (inv := map (fun j => 1 / sigma j) (seq 0 N)).
  set (total := sum inv).
  assert (Hinv : Forall (fun x => 0 < x) inv).
  { apply Forall_forall. intros x Hx. apply in_map_iff in Hx.
    destruct Hx as [j [<- Hj]]. apply in_seq in Hj.
    destruct (Hsig j) as [_ Hpos]; [lia|].
    apply Rdiv_lt_0_compat; lra. }
  assert (Htot : 0 < total).
  { apply sum_positive; [|exact Hinv].
    intro E. apply (f_equal (@length R)) in E. unfold inv in E.
    rewrite length_map, length_seq in E. simpl in E. lia. }
  assert (Hcells :
    map (fun j => match std (column returns_data j) with
                  | Num s => cell_div 1 s
                  | _ => NaN
                  end) (seq 0 N)
    = map Finite inv).
  { unfold inv. rewrite map_map. apply map_ext_in. intros j Hj.
    apply in_seq in Hj. destruct (Hsig j) as [-> Hpos]; [lia|].
    apply cell_div_finite. lra. }
  split; [|split; [|split; [|split]]].
  - unfold calculate_weights. simpl String.eqb. cbv zeta. fold N.
    rewrite Hcells, series_sum_finite. fold total. f_equal.
    unfold inv. rewrite !map_map. apply map_ext. intro j. simpl.
    apply cell_div_finite. lra.
  - rewrite length_map, length_seq. reflexivity.
  - apply Forall_forall. intros w Hw. apply in_map_iff in Hw.
    destruct Hw as [j [<- Hj]]. apply in_seq in Hj.
    destruct (Hsig j) as [_ Hpos]; [lia|].
    apply Rdiv_lt_0_compat; [apply Rdiv_lt_0_compat; lra|exact Htot].
  - change (map (fun j => 1 / sigma j / total) (seq 0 N))
      with (map (fun j => (fun x => x / total) ((fun j => 1 / sigma j) j))
                (seq 0 N)).
    rewrite <- (map_map (fun j => 1 / sigma j) (fun x => x / total)).
    fold inv. rewrite sum_map_div. fold total. field. lra.
  - intros j Hj.
    rewrite (nth_map_seq (fun j => 1 / sigma j / total)) by exact Hj.
    destruct (Hsig j Hj) as [_ Hpos]. field. split; lra.
Qed.

(** ** Portfolio returns under equal weights *)

Lemma dot_repeat (x : R) (r : vec) :
  dot r (repeat x (length r)) = sum r * x.
Proof. induction r as [|y r IH]; simpl; [|rewrite IH]; ring. Qed.

(** X15: with the default equal weights and at least one asset, every
    portfolio return is the arithmetic mean of the asset returns of its
    period. *)
Theorem equal_weight_portfolio_returns (p : Portfolio) :
  well_formed (returns_data p) ->
  (1 <= n_cols (returns_data p))%nat ->
  weights p = equal_weights (n_cols (returns_data p)) ->
  get_portfolio_returns p = map mean (rows (returns_data p)).
Proof.
  intros Hwf HN Hw. unfold get_portfolio_returns. rewrite Hw.
  apply map_ext_in. intros r Hr.
  unfold well_formed in Hwf. rewrite Forall_forall in Hwf.
  specialize (Hwf r Hr). unfold equal_weights, mean.
  rewrite <- Hwf, dot_repeat. unfold Rdiv. ring.
Qed.

(** ** Log returns *)

Lemma ratios_of_positive_rows (n : nat) (previous : list R)
      (rest : list (list R)) :
  length previous = n -> Forall (fun x => 0 < x) previous ->
  Forall (fun r => length r = n) rest ->
  Forall (Forall (fun x => 0 < x)) rest ->
  map (map cell_log) (ratios_from previous rest)
  = map (map Finite) (log_ratios previous rest).
Proof.
  intros Hlen Hpos Hl Hp; revert previous Hlen Hpos Hp;
    induction Hl as [|cur rest Hcur Hl IH]; intros previous Hlen Hpos Hp;
    simpl; [reflexivity|].
  apply Forall_cons_iff in Hp. destruct Hp as [Hcp Hrp].
  f_equal; [|apply IH; assumption].
  rewrite !map_map. apply map_ext_in. intros [a b] Hab. simpl.
  assert (Ha : 0 < a).
  { apply in_combine_l in Hab. rewrite Forall_forall in Hcp.
    apply Hcp. exact Hab. }
  assert (Hb : 0 < b).
  { apply in_combine_r in Hab. rewrite Forall_forall in Hpos.
    apply Hpos. exact Hab. }
  rewrite cell_div_finite by lra. simpl.
  destruct (Rlt_dec 0 (a / b)) as [_|Hn]; [reflexivity|].
  exfalso. apply Hn. apply Rdiv_lt_0_compat; assumption.
Qed.

Lemma dropna_rows_finite (rs : list (list R)) :
  dropna_rows (map (map Finite) rs) = map (map Finite) rs.
Proof.
  unfold dropna_rows. induction rs as [|r rs IH]; simpl; [reflexivity|].
  assert (E : existsb is_nan (map Finite r) = false).
  { induction r as [|x r IHr]; simpl; [reflexivity|exact IHr]. }
  rewrite E. simpl. rewrite IH. reflexivity.
Qed.

Lemma length_log_ratios (previous : list R) (rest : list (list R)) :
  length (log_ratios previous rest) = length rest.
Proof.
  revert previous; induction rest as [|cur rest IH]; intro previous; simpl;
    [reflexivity|rewrite IH; reflexivity].
Qed.

Lemma nth_log_ratio (n j : nat) (cur prev : list R) :
  length cur = n -> length prev = n -> (j < n)%nat ->
  nth j (map (fun p => ln (fst p / snd p)) (combine cur prev)) 0
  = ln (nth j cur 0 / nth j prev 0).
Proof.
  intros Hc Hp Hj.
  pose proof (map_nth (fun p : R * R => ln (fst p / snd p))
                      (combine cur prev) (0, 0) j) as H.
  cbv beta in H.
  rewrite (nth_indep _ 0 (ln (fst (0, 0) / snd (0, 0))))
    by (rewrite length_map, length_combine; lia).
  rewrite H, combine_nth by lia. reflexivity.
Qed.

Lemma log_ratios_telescope (n j : nat) (previous : list R)
      (rest : list (list R)) :
  (j < n)%nat ->
  length previous = n -> Forall (fun x => 0 < x) previous ->
  Forall (fun r => length r = n) rest ->
  Forall (Forall (fun x => 0 < x)) rest ->
  sum (map (fun r => nth j r 0) (log_ratios previous rest))
  = ln (nth j (last rest previous) 0 / nth j previous 0).
Proof.
  intros Hj Hlen Hpos Hl Hp; revert previous Hlen Hpos Hp;
    induction Hl as [|cur rest Hcur Hl IH]; intros previous Hlen Hpos Hp.
  - simpl. unfold Rdiv. rewrite Rinv_r, ln_1; [reflexivity|].
    rewrite Forall_forall in Hpos. apply Rgt_not_eq.
    apply Hpos. apply nth_In. lia.
  - apply Forall_cons_iff in Hp. destruct Hp as [Hcp Hrp].
    simpl map. simpl sum.
    rewrite (nth_log_ratio n) by assumption.
    rewrite IH by assumption.
    assert (Hlast : last (cur :: rest) previous = last rest cur).
    { clear. revert cur previous. induction rest as [|r rest IH];
        intros cur previous; [reflexivity|].
      change (last (cur :: r :: rest) previous)
        with (last (r :: rest) previous).
      rewrite (IH r previous), (IH r cur). reflexivity. }
    rewrite Hlast.
    assert (Hpj : 0 < nth j previous 0).
    { rewrite Forall_forall in Hpos. apply Hpos. apply nth_In. lia. }
    assert (Hcj : 0 < nth j cur 0).
    { rewrite Forall_forall in Hcp. apply Hcp. apply nth_In. lia. }
    assert (Hlj : 0 < nth j (last rest cur) 0).
    { assert (Hall : Forall (fun x => 0 < x) (last rest cur)).
      { clear - Hcp Hrp. revert cur Hcp.
        induction Hrp as [|r rest Hr Hrp IH]; intros cur Hcp;
          [exact Hcp|].
        destruct rest as [|r' rest']; [exact Hr|].
        change (last (r :: r' :: rest') cur) with (last (r' :: rest') cur).
        apply (IH cur Hcp). }
      assert (Hlen' : length (last rest cur) = n).
      { clear - Hcur Hl. revert cur Hcur.
        induction Hl as [|r rest Hr Hl IH]; intros cur Hcur;
          [exact Hcur|].
        destruct rest as [|r' rest']; [exact Hr|].
        change (last (r :: r' :: rest') cur) with (last (r' :: rest') cur).
        apply (IH cur Hcur). }
      rewrite Forall_forall in Hall. apply Hall. apply nth_In. lia. }
    rewrite <- ln_mult by (apply Rdiv_lt_0_compat; assumption).
    f_equal. field. split; lra.
Qed.

Lemma last_cons {T : Type} (x d : T) (l : list T) :
  last (x :: l) d = last l x.
Proof.
  revert x d; induction l as [|y l IH]; intros x d; [reflexivity|].
  change (last (x :: y :: l) d) with (last (y :: l) d).
  rewrite (IH y d), (IH y x). reflexivity.
Qed.

(** X16: on a price table with at least one column whose prices are all
    positive, the returns are finite: the row without predecessor is
    dropped, one row per later period remains, holding the logarithms of
    the price ratios, and the returns of a column add up to the logarithm
    of its last price over its first price. *)
Theorem log_returns_of_positive_prices (price_data : DataFrame)
        (first : list R) (rest : list (list R)) :
  rows price_data = first :: rest ->
  well_formed price_data ->
  (1 <= n_cols price_data)%nat ->
  Forall (Forall (fun x => 0 < x)) (rows price_data) ->
  calculate_returns price_data = map (map Finite) (log_ratios first rest)
  /\ length (calculate_returns price_data) = (n_rows price_data - 1)%nat
  /\ (forall j, (j < n_cols price_data)%nat ->
        sum (map (fun r => nth j r 0) (log_ratios first rest))
        = ln (nth j (last (rows price_data) []) 0 / nth j first 0)).
Proof.
  intros E Hwf HN Hpos. unfold well_formed in Hwf. rewrite E in Hwf, Hpos.
  apply Forall_cons_iff in Hwf. destruct Hwf as [Hf Hl].
  apply Forall_cons_iff in Hpos. destruct Hpos as [Hfp Hrp].
  assert (Hret : calculate_returns price_data
                 = map (map Finite) (log_ratios first rest)).
  { unfold calculate_returns, price_ratios. rewrite E. simpl map.
    rewrite (ratios_of_positive_rows (n_cols price_data)) by assumption.
    unfold dropna_rows. simpl filter.
    assert (Hnan : existsb is_nan
                     (map cell_log (map (fun _ : R => NaN) first)) = true).
    { destruct first as [|x first']; [simpl in Hf; lia|reflexivity]. }
    rewrite Hnan. simpl negb. cbv iota.
    apply dropna_rows_finite. }
  split; [exact Hret|split].
  - rewrite Hret, length_map, length_log_ratios. unfold n_rows.
    rewrite E. simpl. lia.
  - intros j Hj.
    rewrite (log_ratios_telescope (n_cols price_data)) by assumption.
    rewrite E, last_cons. reflexivity.
Qed.

(** ** The correlation matrix *)

Lemma cauchy_schwarz_sum {T : Type} (f g : T -> R) (l : list T) :
  sum (map (fun x => f x * g x) l) * sum (map (fun x => f x * g x) l)
  <= sum (map (fun x => f x * f x) l) * sum (map (fun x => g x * g x) l).
Proof.
  induction l as [|x l IH]; simpl; [lra|].
  set (C := sum (map (fun x => f x * g x) l)) in *.
  set (A := sum (map (fun x => f x * f x) l)) in *.
  set (B := sum (map (fun x => g x * g x) l)) in *.
  assert (HA : 0 <= A) by (apply sum_map_nonneg; intro; apply Rle_0_sqr).
  assert (HB : 0 <= B) by (apply sum_map_nonneg; intro; apply Rle_0_sqr).
  set (a := f x). set (b := g x).
  assert (Hcross : 2 * (a * b) * C <= a * a * B + A * (b * b)).
  { destruct (Req_dec_T B 0) as [HB0|HB0].
    - assert (HC : C = 0) by nra. rewrite HC, HB0. nra.
    - assert (HBpos : 0 < B) by lra.
      assert (H1 : 0 <= (a * B - b * C) * (a * B - b * C)) by apply Rle_0_sqr.
      assert (H2 : 0 <= b * b * (A * B - C * C))
        by (apply Rmult_le_pos; [apply Rle_0_sqr|lra]).
      assert (H3 : 0 <= B * (a * a * B + A * (b * b) - 2 * (a * b) * C))
        by nra.
      assert (H4 : 0 <= a * a * B + A * (b * b) - 2 * (a * b) * C).
      { apply Rmult_le_reg_l with B; [exact HBpos|]. lra. }
      lra. }
  nra.
Qed.

Lemma co_moment_columns_bound (df : DataFrame) (i j : nat) :
  co_moment (column df i) (column df j)
  * co_moment (column df i) (column df j)
  <= co_moment (column df i) (column df i)
     * co_moment (column df j) (column df j).
Proof.
  rewrite !co_moment_columns.
  apply (cauchy_schwarz_sum (fun r => deviation df r i)
                            (fun r => deviation df r j)).
Qed.

Lemma correlation_sym (x y : list R) : correlation x y = correlation y x.
Proof.
  unfold correlation.
  rewrite (Rmult_comm (co_moment x x)), (co_moment_sym x y). reflexivity.
Qed.

Lemma correlation_nan_iff (x y : list R) :
  correlation x y = NaN <-> co_moment x x = 0 \/ co_moment y y = 0.
Proof.
  unfold correlation.
  pose proof (co_moment_self_nonneg x) as Hx.
  pose proof (co_moment_self_nonneg y) as Hy.
  destruct (Req_dec_T (sqrt (co_moment x x * co_moment y y)) 0) as [E|E].
  - split; [intros _|reflexivity].
    apply sqrt_eq_0 in E; [|apply Rmult_le_pos; assumption].
    apply Rmult_integral. exact E.
  - split; [discriminate|]. intros [H|H]; exfalso; apply E;
      rewrite H; [rewrite Rmult_0_l|rewrite Rmult_0_r]; apply sqrt_0.
Qed.

Lemma correlation_diagonal (x : list R) :
  correlation x x = Finite 1 \/ correlation x x = NaN.
Proof.
  unfold correlation.
  pose proof (co_moment_self_nonneg x) as Hx.
  rewrite sqrt_square by exact Hx.
  destruct (Req_dec_T (co_moment x x) 0) as [E|E]; [right; reflexivity|].
  left. f_equal. field. exact E.
Qed.

Lemma correlation_columns_bound (df : DataFrame) (i j : nat) (rho : R) :
  correlation (column df i) (column df j) = Finite rho -> -1 <= rho <= 1.
Proof.
  unfold correlation.
  set (A := co_moment (column df i) (column df i)).
  set (B := co_moment (column df j) (column df j)).
  set (C := co_moment (column df i) (column df j)).
  destruct (Req_dec_T (sqrt (A * B)) 0) as [E|E]; [discriminate|].
  intro H. injection H as <-.
  assert (HAB : 0 <= A * B).
  { apply Rmult_le_pos; apply co_moment_self_nonneg. }
  assert (Hs : 0 < sqrt (A * B)).
  { pose proof (sqrt_pos (A * B)). lra. }
  assert (Hbound : Rabs C <= sqrt (A * B)).
  { rewrite <- sqrt_Rsqr_abs. apply sqrt_le_1_alt. unfold Rsqr.
    apply co_moment_columns_bound. }
  assert (Hc : - sqrt (A * B) <= C <= sqrt (A * B)).
  { revert Hbound. unfold Rabs. destruct (Rcase_abs C); intro; lra. }
  split.
  - apply Rmult_le_reg_r with (sqrt (A * B)); [exact Hs|].
    unfold Rdiv. rewrite Rmult_assoc, Rinv_l by lra. lra.
  - apply Rmult_le_reg_r with (sqrt (A * B)); [exact Hs|].
    unfold Rdiv. rewrite Rmult_assoc, Rinv_l by lra. lra.
Qed.

(** X17: the correlation matrix is symmetric; a cell that is a number
    lies between -1 and 1; a diagonal cell is 1 or [nan]; and a cell is
    [nan] exactly when one of its two columns has no variation. *)
Theorem correlation_matrix_properties (df : DataFrame) (i j : nat) :
  (i < n_cols df)%nat -> (j < n_cols df)%nat ->
  let c := nth j (nth i (get_correlation_matrix df) []) NaN in
  nth i (nth j (get_correlation_matrix df) []) NaN = c
  /\ (forall rho, c = Finite rho -> -1 <= rho <= 1)
  /\ (i = j -> c = Finite 1 \/ c = NaN)
  /\ (c = NaN <-> co_moment (column df i) (column df i) = 0
                  \/ co_moment (column df j) (column df j) = 0).
Proof.
  intros Hi Hj. cbv zeta.
  assert (Hcell : forall a b, (a < n_cols df)%nat -> (b < n_cols df)%nat ->
            nth b (nth a (get_correlation_matrix df) []) NaN
            = correlation (column df a) (column df b)).
  { intros a b Ha Hb. unfold get_correlation_matrix.
    rewrite (nth_map_seq
               (fun i => map (fun j => correlation (column df i)
                                                   (column df j))
                             (seq 0 (n_cols df)))) by exact Ha.
    apply (nth_map_seq (fun j => correlation (column df a) (column df j))).
    exact Hb. }
  rewrite !Hcell by assumption.
  split; [apply correlation_sym|split; [|split]].
  - intro rho. apply correlation_columns_bound.
  - intros ->. apply correlation_diagonal.
  - apply correlation_nan_iff.
Qed.

(** * Instances of the further properties *)

Lemma historical_var_bounded_witness :
  exists v,
    fst (calculate_historical_var flat_calculator counting_generator 0%nat
           [1 / 100; 1 / 100]) = Num v
    /\ 0 <= v <= 1 / 100 * sqrt (IZR (time_horizon flat_calculator))
                  * Rabs (value (portfolio flat_calculator)).
Proof.
  apply (historical_var_bounded flat_calculator counting_generator 0%nat
           [1 / 100; 1 / 100] (1 / 100)).
  - discriminate.
  - simpl. lia.
  - simpl. lra.
  - repeat constructor; rewrite Rabs_pos_eq; lra.
Defined.

Lemma all_methods_raise_exactly_witness :
  rows (returns_data (portfolio hedged_calculator)) <> []
  /\ (0 <= alpha hedged_calculator * 100 <= 100 ->
      (0 < simulations hedged_calculator)%Z ->
      (0 <= time_horizon hedged_calculator)%Z ->
      exists res,
        calculate_all_var_methods sample_ppf sample_t_fit sample_t_rvs
          hedged_calculator counting_generator 0%nat = Num res).
Proof.
  split; [discriminate|].
  apply (all_methods_raise_exactly sample_ppf sample_t_fit sample_t_rvs
           hedged_calculator counting_generator 0%nat).
  - exact hedged_consistent.
  - discriminate.
Defined.

Lemma fewer_than_two_observations_witness :
  calculate_volatility
    (get_portfolio_returns single_observation_portfolio) = NotFinite
  /\ calculate_sharpe_ratio
       (get_portfolio_returns single_observation_portfolio) = NotFinite.
Proof.
  destruct (fewer_than_two_observations sample_ppf
              (mkCalc single_observation_portfolio (95 / 100) 1 10000
                      (1 - 95 / 100)))
    as [H1 [H2 _]].
  - split; [repeat constructor|reflexivity].
  - unfold n_rows. simpl. lia.
  - split; [exact H1|exact H2].
Defined.

Lemma max_drawdown_range_witness :
  exists d,
    calculate_max_drawdown [10 / 100; - 20 / 100; 5 / 100] = Num d
    /\ 0 <= d < 1.
Proof.
  apply (max_drawdown_range [10 / 100; - 20 / 100; 5 / 100]).
  - discriminate.
  - repeat constructor; lra.
Defined.

Lemma max_drawdown_without_losses_witness :
  calculate_max_drawdown [1 / 100; 3 / 100] = Num 0.
Proof.
  apply (max_drawdown_without_losses [1 / 100; 3 / 100]).
  - discriminate.
  - repeat constructor; lra.
Defined.

Lemma parametric_var_homogeneous_witness :
  calculate_parametric_var sample_ppf
    (mkCalc (mkPortfolio hedged_frame
                         (map (fun w => 2 * w) (equal_weights 2)) 100000)
            (95 / 100) 1 10000 (1 - 95 / 100))
    hedged_frame
  = result_map (fun v => Rabs 2 * v)
               (calculate_parametric_var sample_ppf hedged_calculator
                  hedged_frame).
Proof.
  apply (parametric_var_homogeneous sample_ppf hedged_calculator
           hedged_frame 2).
  - reflexivity.
  - lra.
Defined.

Lemma component_var_homogeneous_witness :
  component_var_of
    (mkCalc (mkPortfolio hedged_frame
                         (map (fun w => 2 * w) (equal_weights 2)) 100000)
            (95 / 100) 1 10000 (1 - 95 / 100))
    hedged_frame 0
  = result_map (fun v => 2 * v)
               (component_var_of hedged_calculator hedged_frame 0).
Proof.
  apply (component_var_homogeneous hedged_calculator hedged_frame 2 0).
  - reflexivity.
  - lra.
Defined.

Lemma component_var_mapping_witness :
  NoDup (dict_keys (calculate_component_var hedged_calculator hedged_frame))
  /\ forall a,
       In a (dict_keys (calculate_component_var hedged_calculator
                          hedged_frame))
       <-> In a (columns hedged_frame).
Proof.
  destruct (component_var_mapping hedged_calculator hedged_frame)
    as [H1 [H2 _]].
  - reflexivity.
  - split; [exact H1|exact H2].
Defined.

Lemma ewma_quadratic_form_witness :
  exists M,
    calculate_ewma_covariance hedged_frame = Num M
    /\ quad_form M [1 / 2; 1 / 2]
       = (94 / 100) ^ (n_rows hedged_frame - 1)
         * (252 * quad_form (cov_matrix_of hedged_frame) [1 / 2; 1 / 2])
         + (1 - 94 / 100)
           * sum (map (fun t =>
                         (94 / 100) ^ (n_rows hedged_frame - 1 - t)
                         * (dot (iloc hedged_frame t) [1 / 2; 1 / 2]
                            * dot (iloc hedged_frame t) [1 / 2; 1 / 2]))
                      (seq 1 (n_rows hedged_frame - 1))).
Proof.
  apply (ewma_quadratic_form hedged_frame [1 / 2; 1 / 2]).
  - exact (proj1 hedged_consistent).
  - exact hedged_two_rows.
  - reflexivity.
Defined.

Lemma zero_horizon_var_is_zero_witness :
  fst (calculate_historical_var
         (mkCalc hedged_portfolio (95 / 100) 0 10000 (1 - 95 / 100))
         counting_generator 0%nat
         (get_portfolio_returns hedged_portfolio)) = Num 0
  /\ calculate_parametric_var sample_ppf
       (mkCalc hedged_portfolio (95 / 100) 0 10000 (1 - 95 / 100))
       (get_returns hedged_portfolio) = Num 0
  /\ fst (calculate_monte_carlo_var sample_t_fit sample_t_rvs
            (mkCalc hedged_portfolio (95 / 100) 0 10000 (1 - 95 / 100))
            (get_returns hedged_portfolio) 0%nat) = Num 0.
Proof.
  apply (zero_horizon_var_is_zero sample_ppf sample_t_fit sample_t_rvs
           (mkCalc hedged_portfolio (95 / 100) 0 10000 (1 - 95 / 100))
           counting_generator 0%nat 0%nat).
  - reflexivity.
  - simpl. lra.
  - simpl. lia.
  - exact hedged_consistent.
  - exact hedged_two_rows.
Defined.

Lemma equal_weighting_witness :
  calculate_weights ["A"%string; "B"%string] hedged_frame hedged_frame
    "equal"
  = inr (map Finite (equal_weights 2))
  /\ sum (equal_weights 2) = 1.
Proof.
  destruct (equal_weighting ["A"%string; "B"%string] hedged_frame
              hedged_frame "equal") as [_ H].
  - left. reflexivity.
  - destruct H as [H1 [_ [_ H4]]]; [discriminate|].
    split; [exact H1|exact H4].
Defined.

Lemma hedged_sigma_spec (j : nat) :
  (j < n_cols hedged_frame)%nat ->
  std (column hedged_frame j) = Num (hedged_sigma j) /\ 0 < hedged_sigma j.
Proof.
  intro Hj. split; [reflexivity|].
  unfold hedged_sigma. apply sqrt_lt_R0.
  unfold n_cols in Hj. simpl in Hj.
  destruct j as [|[|j]]; [| |lia];
    unfold co_moment, column, mean, hedged_frame; simpl; lra.
Defined.

Lemma risk_parity_weighting_witness :
  exists ws,
    calculate_weights ["A"%string; "B"%string] hedged_frame hedged_frame
      "risk_parity"
    = inr (map Finite ws)
    /\ Forall (fun w => 0 < w) ws
    /\ sum ws = 1.
Proof.
  destruct (risk_parity_weighting ["A"%string; "B"%string] hedged_frame
              hedged_frame hedged_sigma) as [H1 [_ [H3 [H4 _]]]].
  - unfold n_cols. simpl. lia.
  - exact hedged_sigma_spec.
  - eexists. split; [exact H1|split; [exact H3|exact H4]].
Defined.

Lemma equal_weight_portfolio_returns_witness :
  get_portfolio_returns hedged_portfolio
  = map mean (rows (returns_data hedged_portfolio)).
Proof.
  apply (equal_weight_portfolio_returns hedged_portfolio).
  - exact (proj1 hedged_consistent).
  - unfold n_cols. simpl. lia.
  - reflexivity.
Defined.

Lemma log_returns_of_positive_prices_witness :
  calculate_returns sample_prices
  = map (map Finite) (log_ratios [100] [[110]; [99]])
  /\ length (calculate_returns sample_prices) = 2%nat.
Proof.
  destruct (log_returns_of_positive_prices sample_prices [100]
              [[110]; [99]]) as [H1 [H2 _]].
  - reflexivity.
  - unfold well_formed. simpl. repeat constructor.
  - unfold n_cols. simpl. lia.
  - simpl. repeat constructor; lra.
  - split; [exact H1|exact H2].
Defined.

Lemma correlation_matrix_properties_witness :
  nth 0 (nth 1 (get_correlation_matrix hedged_frame) []) NaN
  = nth 1 (nth 0 (get_correlation_matrix hedged_frame) []) NaN
  /\ forall rho,
       nth 1 (nth 0 (get_correlation_matrix hedged_frame) []) NaN
       = Finite rho ->
       -1 <= rho <= 1.
Proof.
  destruct (correlation_matrix_properties hedged_frame 0 1) as [H1 [H2 _]].
  - unfold n_cols. simpl. lia.
  - unfold n_cols. simpl. lia.
  - split; [exact H1|exact H2].
Defined.

(** * Properties of the data handler *)

(** ** Outlier detection by z-score *)

Lemma sum_app (l1 l2 : list R) : sum (l1 ++ l2) = sum l1 + sum l2.
Proof. induction l1 as [|x l1 IH]; simpl; [|rewrite IH]; ring. Qed.

Lemma sum_map_one {T : Type} (l : list T) :
  sum (map (fun _ => 1 * 1) l) = INR (length l).
Proof.
  induction l as [|x l IH].
  - reflexivity.
  - change (length (x :: l)) with (S (length l)). rewrite S_INR.
    simpl. rewrite IH. ring.
Qed.

Lemma deviations_sum_to_zero (s : list R) :
  s <> [] -> sum (map (fun y => y - mean s) s) = 0.
Proof.
  intro Hne. unfold mean.
  assert (Hn : INR (length s) <> 0)
    by (apply not_0_INR; destruct s; [contradiction|discriminate]).
  assert (E : forall m, sum (map (fun y => y - m) s)
                        = sum s - INR (length s) * m).
  { clear. intro m. induction s as [|x s IH].
    - simpl. ring.
    - change (length (x :: s)) with (S (length s)). rewrite S_INR.
      simpl. rewrite IH. ring. }
  rewrite E. field. exact Hn.
Qed.

(** No observation deviates from the mean by more than its share of the
    total squared deviation allows. *)
Lemma deviation_share (s : list R) (x : R) :
  In x s ->
  INR (length s) * ((x - mean s) * (x - mean s))
  <= (INR (length s) - 1) * co_moment s s.
Proof.
  intro Hx.
  assert (Hne : s <> []) by (intro E; rewrite E in Hx; destruct Hx).
  pose proof (deviations_sum_to_zero s Hne) as Hzero.
  rewrite co_moment_self_as_sum.
  set (m := mean s) in *.
  destruct (in_split x s Hx) as [pre [post E]].
  rewrite E in Hzero |- *.
  rewrite length_app. simpl length.
  rewrite Nat.add_succ_r, S_INR, <- length_app.
  rewrite !map_app, !sum_app in *. simpl in *.
  set (others := pre ++ post).
  pose proof (cauchy_schwarz_sum (fun _ : R => 1) (fun y => y - m) others)
    as CS.
  rewrite sum_map_one in CS.
  rewrite (sum_map_ext (fun y => 1 * (y - m)) (fun y => y - m)) in CS
    by (intros; ring).
  unfold others in CS. rewrite !map_app, !sum_app in CS.
  set (P := sum (map (fun y => y - m) pre)) in *.
  set (Q := sum (map (fun y => y - m) post)) in *.
  set (P2 := sum (map (fun y => (y - m) * (y - m)) pre)) in *.
  set (Q2 := sum (map (fun y => (y - m) * (y - m)) post)) in *.
  set (n := INR (length (pre ++ post))) in *.
  set (d := x - m) in *.
  assert (Hd : P + Q = - d) by lra.
  rewrite Hd in CS.
  change (INR (length others)) with n.
  replace (n + 1 - 1) with n by ring.
  nra.
Qed.

Lemma z_score_not_exceeding (data : list R) (x threshold : R) :
  In x data ->
  0 <= threshold ->
  (INR (length data) - 1) * (INR (length data) - 1)
  <= threshold * threshold * INR (length data) ->
  DataHandler.exceeds (DataHandler.z_score data x) threshold = false.
Proof.
  intros Hx Ht Hn. unfold DataHandler.z_score, std.
  destruct (Nat.leb_spec (length data) 1) as [Hle|Hgt]; [reflexivity|].
  pose proof (deviation_share data x Hx) as Hshare.
  pose proof (co_moment_self_nonneg data) as HSS.
  rewrite minus_INR by lia. simpl INR.
  set (n := INR (length data)) in *.
  set (SS := co_moment data data) in *.
  set (d := x - mean data) in *.
  assert (Hn2 : 2 <= n).
  { unfold n. replace 2 with (INR 2) by (simpl; ring). apply le_INR. lia. }
  assert (Hvar : 0 <= SS / (n - 1)).
  { apply Rmult_le_pos; [exact HSS|].
    left. apply Rinv_0_lt_compat. lra. }
  pose proof (sqrt_sqrt _ Hvar) as Hsq.
  pose proof (sqrt_pos (SS / (n - 1))) as Hs0.
  set (s := sqrt (SS / (n - 1))) in *.
  assert (HSSs : SS = s * s * (n - 1)).
  { rewrite Hsq. field. lra. }
  unfold cell_div.
  destruct (Req_dec_T s 0) as [Es|Es].
  - assert (HSS0 : SS = 0) by (rewrite HSSs, Es; ring).
    assert (Hd : d = 0) by nra.
    destruct (Req_dec_T d 0); [reflexivity|contradiction].
  - simpl. unfold DataHandler.Rltb.
    destruct (Rlt_dec threshold (Rabs (d / s))) as [Hlt|_]; [|reflexivity].
    exfalso.
    assert (Hs : 0 < s) by lra.
    assert (Habs : Rabs (d / s) = Rabs d / s).
    { unfold Rdiv. rewrite Rabs_mult, (Rabs_pos_eq (/ s)); [reflexivity|].
      left. apply Rinv_0_lt_compat. exact Hs. }
    rewrite Habs in Hlt.
    assert (H1 : threshold * s < Rabs d).
    { apply Rmult_lt_reg_r with (/ s); [apply Rinv_0_lt_compat; exact Hs|].
      rewrite Rmult_assoc, Rinv_r by lra. unfold Rdiv in Hlt. lra. }
    assert (H2 : threshold * s * (threshold * s) < d * d).
    { assert (Hd2 : Rabs d * Rabs d = d * d).
      { unfold Rabs. destruct (Rcase_abs d); ring. }
      rewrite <- Hd2.
      assert (0 <= threshold * s) by (apply Rmult_le_pos; lra).
      nra. }
    assert (H3 : threshold * threshold * SS < d * d * (n - 1)).
    { rewrite HSSs. nra. }
    assert (H4 : threshold * threshold * n * SS < n * (d * d) * (n - 1))
      by nra.
    assert (H5 : n * (d * d) * (n - 1) <= (n - 1) * (n - 1) * SS) by nra.
    assert (H6 : (n - 1) * (n - 1) * SS <= threshold * threshold * n * SS)
      by (apply Rmult_le_compat_r; [exact HSS|exact Hn]).
    lra.
Qed.

(** X18: with a non-negative threshold [t] and [n] observations such that
    [(n-1)^2 <= t^2 * n], the z-score method flags no observation; in
    particular the default threshold 3 (or any larger one) flags nothing
    in a series of at most 10 observations. *)
Theorem zscore_flags_nothing_in_small_samples (data : list R)
        (threshold : R) :
  (0 <= threshold ->
   (INR (length data) - 1) * (INR (length data) - 1)
   <= threshold * threshold * INR (length data) ->
   Forall (eq false) (DataHandler.detect_outliers data "zscore" threshold))
  /\ ((length data <= 10)%nat -> 3 <= threshold ->
      Forall (eq false)
             (DataHandler.detect_outliers data "zscore" threshold)).
Proof.
  assert (Hgen : 0 <= threshold ->
    (INR (length data) - 1) * (INR (length data) - 1)
    <= threshold * threshold * INR (length data) ->
    Forall (eq false) (DataHandler.detect_outliers data "zscore" threshold)).
  { intros Ht Hn. unfold DataHandler.detect_outliers. simpl String.eqb.
    apply Forall_forall. intros b Hb. apply in_map_iff in Hb.
    destruct Hb as [x [<- Hx]]. symmetry.
    apply z_score_not_exceeding; assumption. }
  split; [exact Hgen|].
  intros Hlen Ht.
  destruct data as [|x0 data0] eqn:E; [constructor|].
  rewrite <- E in *. apply Hgen; [lra|].
  assert (H1 : 1 <= INR (length data)).
  { replace 1 with (INR 1) by reflexivity. apply le_INR.
    rewrite E. simpl. lia. }
  assert (H10 : INR (length data) <= 10).
  { replace 10 with (INR 10) by (simpl; ring). apply le_INR. exact Hlen. }
  set (n := INR (length data)) in *.
  assert (Ht2 : 9 <= threshold * threshold) by nra.
  assert (H9 : 9 * n <= threshold * threshold * n)
    by (apply Rmult_le_compat_r; lra).
  nra.
Qed.

(** ** Outlier detection by interquartile range *)

Lemma quartiles_ordered (data : list R) :
  data <> [] ->
  exists Q1 Q3,
    DataHandler.quantile data (25 / 100) = Num Q1
    /\ DataHandler.quantile data (75 / 100) = Num Q3
    /\ Q1 <= Q3.
Proof.
  intro Hne. unfold DataHandler.quantile.
  destruct data as [|x data0] eqn:E; [contradiction|]. rewrite <- E in *.
  do 2 eexists. split; [reflexivity|split; [reflexivity|]].
  assert (Hs : sort data <> []).
  { intro H. apply Hne. apply length_zero_iff_nil.
    rewrite <- length_sort, H. reflexivity. }
  pose proof (pos_INR (length (sort data) - 1)) as Hpos.
  apply interpolate_mono; try apply sort_sorted; try exact Hs; nra.
Qed.

(** X19: every method returns one flag per observation and a method name
    the code does not know flags nothing.  On a non-empty series the
    interquartile rule has [Q1 <= Q3], flags exactly the values below
    [Q1 - 1.5 IQR] or above [Q3 + 1.5 IQR], and so never flags a value
    between the two quartiles, whatever the threshold argument. *)
Theorem iqr_detection (data : list R) (threshold : R) :
  (forall method,
      length (DataHandler.detect_outliers data method threshold)
      = length data)
  /\ (forall method,
         method <> "iqr"%string -> method <> "zscore"%string ->
         Forall (eq false)
                (DataHandler.detect_outliers data method threshold))
  /\ (data <> [] ->
      exists Q1 Q3,
        DataHandler.quantile data (25 / 100) = Num Q1
        /\ DataHandler.quantile data (75 / 100) = Num Q3
        /\ Q1 <= Q3
        /\ DataHandler.detect_outliers data "iqr" threshold
           = map (fun x =>
                    DataHandler.Rltb x (Q1 - 15 / 10 * (Q3 - Q1))
                    || DataHandler.Rltb (Q3 + 15 / 10 * (Q3 - Q1)) x)
                 data
        /\ (forall x, Q1 <= x <= Q3 ->
              DataHandler.Rltb x (Q1 - 15 / 10 * (Q3 - Q1))
              || DataHandler.Rltb (Q3 + 15 / 10 * (Q3 - Q1)) x
              = false)).
Proof.
  split; [|split].
  - intro method. unfold DataHandler.detect_outliers.
    destruct (String.eqb method "iqr").
    + destruct (DataHandler.quantile data (25 / 100));
        destruct (DataHandler.quantile data (75 / 100));
        apply length_map.
    + destruct (String.eqb method "zscore"); apply length_map.
  - intros method H1 H2. unfold DataHandler.detect_outliers.
    destruct (String.eqb_spec method "iqr"); [contradiction|].
    destruct (String.eqb_spec method "zscore"); [contradiction|].
    apply Forall_forall. intros b Hb. apply in_map_iff in Hb.
    destruct Hb as [x [<- _]]. reflexivity.
  - intro Hne. destruct (quartiles_ordered data Hne) as [Q1 [Q3 [E1 [E3 Hq]]]].
    exists Q1, Q3. split; [exact E1|split; [exact E3|split; [exact Hq|]]].
    split.
    + unfold DataHandler.detect_outliers. simpl String.eqb.
      rewrite E1, E3. reflexivity.
    + intros x [Hlo Hhi]. unfold DataHandler.Rltb.
      destruct (Rlt_dec x (Q1 - 15 / 10 * (Q3 - Q1))) as [H|_]; [lra|].
      destruct (Rlt_dec (Q3 + 15 / 10 * (Q3 - Q1)) x) as [H|_]; [lra|].
      reflexivity.
Qed.

(** ** Cleaning a table *)

Lemma filter_idempotent {T : Type} (f : T -> bool) (l : list T) :
  filter f (filter f l) = filter f l.
Proof.
  induction l as [|x l IH]; simpl; [reflexivity|].
  destruct (f x) eqn:E; simpl; [rewrite E, IH|rewrite IH]; reflexivity.
Qed.

Lemma filter_all {T : Type} (f : T -> bool) (l : list T) :
  Forall (fun x => f x = true) l -> filter f l = l.
Proof.
  induction 1 as [|x l Hx Hl IH]; simpl; [reflexivity|].
  rewrite Hx, IH. reflexivity.
Qed.

(** X20: the method ["drop"], and every method name other than
    ["forward_fill"] and ["interpolate"], keeps the labels and exactly the
    rows without a missing cell, in their order: the result holds no
    missing cell, cleaning it again changes nothing, and a table without
    missing cells is returned as it is. *)
Theorem clean_data_drop (pandas_interpolate : DataHandler.Table ->
                                              DataHandler.Table)
        (data : DataHandler.Table) :
  let cleaned := DataHandler.clean_data pandas_interpolate data "drop" in
  DataHandler.labels cleaned = DataHandler.labels data
  /\ (forall r, In r (DataHandler.cells cleaned)
                <-> In r (DataHandler.cells data)
                    /\ existsb is_nan r = false)
  /\ DataHandler.clean_data pandas_interpolate cleaned "drop" = cleaned
  /\ (Forall (fun r => existsb is_nan r = false) (DataHandler.cells data) ->
      cleaned = data)
  /\ (forall method,
         method <> "forward_fill"%string -> method <> "interpolate"%string ->
         DataHandler.clean_data pandas_interpolate data method = cleaned).
Proof.
  cbv zeta. unfold DataHandler.clean_data. simpl String.eqb.
  cbn [DataHandler.labels DataHandler.cells].
  split; [reflexivity|split; [|split; [|split]]].
  - intro r. unfold dropna_rows. rewrite filter_In.
    destruct (existsb is_nan r); simpl; intuition congruence.
  - unfold dropna_rows. rewrite filter_idempotent. reflexivity.
  - intro H. unfold dropna_rows. rewrite filter_all.
    + destruct data. reflexivity.
    + eapply Forall_impl; [|exact H]. intros r Hr. simpl in Hr.
      rewrite Hr. reflexivity.
  - intros method H1 H2.
    destruct (String.eqb method "drop"); [reflexivity|].
    destruct (String.eqb_spec method "forward_fill"); [contradiction|].
    destruct (String.eqb_spec method "interpolate"); [contradiction|].
    reflexivity.
Qed.

Lemma fill_row_length (r above : list cell) :
  length (DataHandler.fill_row r above) = Nat.min (length r) (length above).
Proof.
  unfold DataHandler.fill_row. rewrite length_map, length_combine.
  reflexivity.
Qed.

Lemma fill_row_nth (r above : list cell) (j : nat) :
  (j < length r)%nat -> (j < length above)%nat ->
  nth j (DataHandler.fill_row r above) NaN
  = if is_nan (nth j r NaN) then nth j above NaN else nth j r NaN.
Proof.
  revert above j; induction r as [|c r IH]; intros [|a above] j Hr Ha;
    simpl in *; try lia.
  destruct j as [|j]; [reflexivity|].
  apply IH; lia.
Qed.

Lemma fill_row_idempotent (r above : list cell) :
  DataHandler.fill_row (DataHandler.fill_row r above) above
  = DataHandler.fill_row r above.
Proof.
  unfold DataHandler.fill_row.
  revert above; induction r as [|c r IH]; intros [|a above]; simpl;
    try reflexivity.
  rewrite IH. f_equal.
  destruct c; simpl; try reflexivity. destruct a; reflexivity.
Qed.

Lemma fill_row_complete (r above : list cell) :
  existsb is_nan above = false ->
  existsb is_nan (DataHandler.fill_row r above) = false.
Proof.
  unfold DataHandler.fill_row.
  revert above; induction r as [|c r IH]; intros [|a above] H; simpl in *;
    try reflexivity.
  apply orb_false_iff in H. destruct H as [Ha Habove].
  rewrite (IH above Habove).
  destruct c; simpl; try reflexivity. rewrite Ha. reflexivity.
Qed.

Lemma fill_row_of_complete (r above : list cell) :
  length above = length r -> existsb is_nan r = false ->
  DataHandler.fill_row r above = r.
Proof.
  unfold DataHandler.fill_row.
  revert above; induction r as [|c r IH]; intros [|a above] Hl H;
    simpl in *; try reflexivity; try discriminate.
  apply orb_false_iff in H. destruct H as [Hc Hr].
  rewrite Hc, IH by (try lia; assumption). reflexivity.
Qed.

Section ForwardFill.

Variable n : nat.

Let shaped (rows : list (list cell)) : Prop :=
  Forall (fun r => length r = n) rows.

Lemma forward_fill_from_shape (carry : list cell) (rows : list (list cell)) :
  length carry = n -> shaped rows ->
  length (DataHandler.forward_fill_from carry rows) = length rows
  /\ shaped (DataHandler.forward_fill_from carry rows).
Proof.
  intros Hc Hrows; revert carry Hc;
    induction Hrows as [|r rows Hr Hrows IH]; intros carry Hc; simpl.
  - split; [reflexivity|constructor].
  - assert (Hf : length (DataHandler.fill_row r carry) = n)
      by (rewrite fill_row_length; lia).
    destruct (IH _ Hf) as [H1 H2].
    split; [rewrite H1; reflexivity|constructor; assumption].
Qed.

Lemma forward_fill_from_idempotent (carry : list cell)
      (rows : list (list cell)) :
  DataHandler.forward_fill_from carry
    (DataHandler.forward_fill_from carry rows)
  = DataHandler.forward_fill_from carry rows.
Proof.
  revert carry; induction rows as [|r rows IH]; intro carry; simpl;
    [reflexivity|].
  rewrite fill_row_idempotent, IH. reflexivity.
Qed.

Lemma forward_fill_from_complete (carry : list cell)
      (rows : list (list cell)) :
  existsb is_nan carry = false ->
  Forall (fun r => existsb is_nan r = false)
         (DataHandler.forward_fill_from carry rows).
Proof.
  revert carry; induction rows as [|r rows IH]; intros carry Hc; simpl;
    constructor.
  - apply fill_row_complete. exact Hc.
  - apply IH. apply fill_row_complete. exact Hc.
Qed.

Lemma forward_fill_from_adjacent (carry : list cell)
      (rows pre post : list (list cell)) (a b : list cell) :
  length carry = n -> shaped rows ->
  DataHandler.forward_fill_from carry rows = pre ++ a :: b :: post ->
  length a = n
  /\ exists r, length r = n /\ b = DataHandler.fill_row r a.
Proof.
  intros Hc Hrows; revert carry pre Hc;
    induction Hrows as [|r rows Hr Hrows IH]; intros carry pre Hc E;
    simpl in E.
  - destruct pre; discriminate.
  - assert (Hf : length (DataHandler.fill_row r carry) = n)
      by (rewrite fill_row_length; lia).
    destruct pre as [|p pre]; simpl in E.
    + injection E as Ea Eb. subst a.
      split; [exact Hf|].
      destruct Hrows as [|r2 rows2 Hr2 Hrows2]; simpl in Eb;
        [discriminate|].
      injection Eb as Eb _. exists r2. split; [exact Hr2|].
      symmetry. exact Eb.
    + injection E as _ E. apply (IH _ pre Hf E).
Qed.

Lemma forward_fill_from_row (carry : list cell) (rows : list (list cell))
      (t : nat) :
  length carry = n -> shaped rows -> (t < length rows)%nat ->
  exists above,
    length above = n
    /\ nth t (DataHandler.forward_fill_from carry rows) []
       = DataHandler.fill_row (nth t rows []) above.
Proof.
  intros Hc Hrows; revert carry t Hc;
    induction Hrows as [|r rows Hr Hrows IH]; intros carry t Hc Ht;
    simpl in *; [lia|].
  destruct t as [|t].
  - exists carry. split; [exact Hc|reflexivity].
  - apply IH; [rewrite fill_row_length; lia|lia].
Qed.

End ForwardFill.

Lemma nan_row_length (r : list cell) :
  length (map (fun _ : cell => NaN) r) = length r.
Proof. apply length_map. Qed.

Lemma nan_row_by_length (r r' : list cell) :
  length r = length r' ->
  map (fun _ : cell => NaN) r = map (fun _ : cell => NaN) r'.
Proof.
  revert r'; induction r as [|c r IH]; intros [|c' r'] H; simpl in *;
    try discriminate; [reflexivity|].
  f_equal. apply IH. lia.
Qed.

(** X21: on a table whose rows all have [n] cells, the method
    ["forward_fill"] keeps the labels and the shape; filling again changes
    nothing; a cell that is not missing keeps its value; in the result a
    column never has a missing cell below a present one; and when the
    first row is complete no missing cell is left. *)
Theorem clean_data_forward_fill (pandas_interpolate : DataHandler.Table ->
                                                      DataHandler.Table)
        (data : DataHandler.Table) (n : nat) :
  Forall (fun r => length r = n) (DataHandler.cells data) ->
  let filled :=
    DataHandler.clean_data pandas_interpolate data "forward_fill" in
  DataHandler.labels filled = DataHandler.labels data
  /\ length (DataHandler.cells filled) = length (DataHandler.cells data)
  /\ Forall (fun r => length r = n) (DataHandler.cells filled)
  /\ DataHandler.clean_data pandas_interpolate filled "forward_fill"
     = filled
  /\ (forall t j,
         (t < length (DataHandler.cells data))%nat -> (j < n)%nat ->
         is_nan (nth j (nth t (DataHandler.cells data) []) NaN) = false ->
         nth j (nth t (DataHandler.cells filled) []) NaN
         = nth j (nth t (DataHandler.cells data) []) NaN)
  /\ (forall pre a b post j,
         DataHandler.cells filled = pre ++ a :: b :: post -> (j < n)%nat ->
         is_nan (nth j a NaN) = false -> is_nan (nth j b NaN) = false)
  /\ (forall first rest,
         DataHandler.cells data = first :: rest ->
         existsb is_nan first = false ->
         Forall (fun r => existsb is_nan r = false)
                (DataHandler.cells filled)).
Proof.
  intro Hshape. cbv zeta. unfold DataHandler.clean_data.
  simpl String.eqb. cbn [DataHandler.labels DataHandler.cells].
  unfold DataHandler.forward_fill.
  destruct (DataHandler.cells data) as [|first rest] eqn:E.
  - split; [reflexivity|]. split; [reflexivity|]. split; [constructor|].
    split; [reflexivity|]. split; [intros t j Ht; simpl in Ht; lia|].
    split; [intros [|] ? ? ? ? H; discriminate|].
    intros ? ? H. discriminate.
  - set (carry := map (fun _ : cell => NaN) first).
    assert (Hfirst : length first = n) by exact (Forall_inv Hshape).
    assert (Hc : length carry = n)
      by (unfold carry; rewrite nan_row_length; exact Hfirst).
    destruct (forward_fill_from_shape n carry (first :: rest) Hc Hshape)
      as [Hlen Hout].
    split; [reflexivity|]. split; [exact Hlen|]. split; [exact Hout|].
    split; [|split; [|split]].
    + f_equal.
      pose proof (forward_fill_from_idempotent carry (first :: rest))
        as Hidem.
      destruct (DataHandler.forward_fill_from carry (first :: rest))
        as [|o out]; [reflexivity|].
      assert (Ho : length o = length first).
      { rewrite Hfirst. exact (Forall_inv Hout). }
      rewrite (nan_row_by_length o first Ho). fold carry.
      exact Hidem.
    + intros t j Ht Hj Hnan.
      destruct (forward_fill_from_row n carry (first :: rest) t Hc Hshape Ht)
        as [above [Ha ->]].
      assert (Hr : length (nth t (first :: rest) []) = n).
      { rewrite Forall_forall in Hshape. apply Hshape. apply nth_In.
        exact Ht. }
      rewrite fill_row_nth by lia. rewrite Hnan. reflexivity.
    + intros pre a b post j Eab Hj Ha.
      destruct (forward_fill_from_adjacent n carry (first :: rest) pre post
                  a b Hc Hshape Eab) as [Hla [r [Hr ->]]].
      rewrite fill_row_nth by lia.
      destruct (is_nan (nth j r NaN)) eqn:Er; [exact Ha|exact Er].
    + intros first' rest' Ef Hcomplete. injection Ef as <- <-.
      simpl. rewrite fill_row_of_complete
        by (try exact Hcomplete; unfold carry; apply nan_row_length).
      constructor; [exact Hcomplete|].
      apply forward_fill_from_complete. exact Hcomplete.
Qed.

Lemma clean_data_forward_fill_witness :
  DataHandler.cells
    (DataHandler.clean_data (fun t => t) sample_table "forward_fill")
  = [[Finite 1; Finite 5]; [Finite 1; Finite 2]; [Finite 3; Finite 2]]
  /\ Forall (fun r => existsb is_nan r = false)
            (DataHandler.cells
               (DataHandler.clean_data (fun t => t) sample_table
                                       "forward_fill")).
Proof.
  split; [reflexivity|].
  assert (Hshape : Forall (fun r => length r = 2%nat)
                          (DataHandler.cells sample_table)).
  { repeat constructor. }
  destruct (clean_data_forward_fill (fun t => t) sample_table 2 Hshape)
    as [_ [_ [_ [_ [_ [_ Hfull]]]]]].
  exact (Hfull [Finite 1; Finite 5] [[NaN; Finite 2]; [Finite 3; NaN]]
               eq_refl eq_refl).
Defined.

(** ** Validation *)

Lemma existsb_false_iff {T : Type} (f : T -> bool) (l : list T) :
  existsb f l = false <-> forall x, In x l -> f x = false.
Proof.
  induction l as [|a l IH]; simpl.
  - split; [intros _ x []|reflexivity].
  - rewrite orb_false_iff, IH. split.
    + intros [Ha Hl] x [<-|Hx]; [exact Ha|apply Hl; exact Hx].
    + intro H. split; [apply H; left; reflexivity|].
      intros x Hx. apply H. right. exact Hx.
Qed.

Lemma missing_share_exceeds (c len : nat) :
  (1 <= len)%nat ->
  DataHandler.Rltb (1 / 10) (INR c / INR len) = false
  <-> (10 * c <= len)%nat.
Proof.
  intro Hlen. unfold DataHandler.Rltb.
  assert (Hpos : 0 < INR len) by (apply lt_0_INR; lia).
  assert (H10 : INR (10 * c) = 10 * INR c).
  { rewrite mult_INR. f_equal. simpl. ring. }
  destruct (Rlt_dec (1 / 10) (INR c / INR len)) as [H|H].
  - split; [discriminate|]. intro Hle. exfalso.
    apply le_INR in Hle. rewrite H10 in Hle.
    assert (INR c / INR len <= 1 / 10); [|lra].
    apply Rmult_le_reg_r with (INR len); [exact Hpos|].
    unfold Rdiv. rewrite Rmult_assoc, Rinv_l by lra. lra.
  - split; [intros _|reflexivity].
    apply INR_le. rewrite H10.
    assert (Hle : INR c / INR len <= 1 / 10) by lra.
    apply Rmult_le_compat_r with (r := INR len) in Hle; [|lra].
    unfold Rdiv in Hle. rewrite Rmult_assoc, Rinv_l in Hle by lra. lra.
Qed.

(** X22: the validation passes exactly when the table has a column and a
    row, at least [min_observations] rows, in every column at most one
    missing cell per ten rows, and no column whose standard deviation
    tests equal to zero; the message is then ["Data validation passed"].
    A table without row or column is reported as empty before anything
    else, and a table with too few rows as insufficient, with both
    counts in the message, whatever its missing cells. *)
Theorem validate_data_outcomes (zero_std : list cell -> bool)
        (data : DataHandler.Table) (min_observations : Z) :
  let n_obs := length (DataHandler.cells data) in
  let n_labels := length (DataHandler.labels data) in
  (fst (DataHandler.validate_data zero_std data min_observations) = true
   <-> (1 <= n_labels)%nat /\ (1 <= n_obs)%nat
       /\ (min_observations <= Z.of_nat n_obs)%Z
       /\ (forall j, (j < n_labels)%nat ->
             (10 * DataHandler.missing_count
                     (DataHandler.column_cells data j) <= n_obs)%nat)
       /\ (forall j, (j < n_labels)%nat ->
             zero_std (DataHandler.column_cells data j) = false))
  /\ (fst (DataHandler.validate_data zero_std data min_observations) = true
      -> snd (DataHandler.validate_data zero_std data min_observations)
         = "Data validation passed"%string)
  /\ (n_labels = 0%nat \/ n_obs = 0%nat ->
      DataHandler.validate_data zero_std data min_observations
      = (false, "Data is empty"%string))
  /\ ((1 <= n_labels)%nat -> (1 <= n_obs)%nat ->
      (Z.of_nat n_obs < min_observations)%Z ->
      DataHandler.validate_data zero_std data min_observations
      = (false,
         ("Insufficient data: " ++ DataHandler.str_of_int (Z.of_nat n_obs)
          ++ " observations (minimum: "
          ++ DataHandler.str_of_int min_observations ++ ")")%string)).
Proof.
  cbv zeta. unfold DataHandler.validate_data, DataHandler.empty.
  set (n_obs := length (DataHandler.cells data)).
  set (n_labels := length (DataHandler.labels data)).
  destruct (Nat.eqb_spec n_labels 0) as [El|El]; simpl orb.
  - repeat split; try discriminate; try reflexivity; intros; simpl in *;
      try lia; try discriminate.
  - destruct (Nat.eqb_spec n_obs 0) as [Eo|Eo].
    + repeat split; try discriminate; try reflexivity; intros; simpl in *;
        try lia; try discriminate.
    + destruct (Z.ltb_spec (Z.of_nat n_obs) min_observations) as [Hlt|Hge].
      * repeat split; try discriminate; try reflexivity; intros;
          simpl in *; try lia; try discriminate.
      * set (pcts := map _ (seq 0 n_labels)).
        assert (Hp : existsb (fun pct => DataHandler.Rltb (1 / 10) pct) pcts
                     = false
                     <-> forall j, (j < n_labels)%nat ->
                           (10 * DataHandler.missing_count
                                   (DataHandler.column_cells data j)
                            <= n_obs)%nat).
        { rewrite existsb_false_iff. unfold pcts. split.
          - intros H j Hj.
            apply (missing_share_exceeds _ n_obs); [lia|].
            apply H. apply in_map_iff. exists j. split; [reflexivity|].
            apply in_seq. lia.
          - intros H pct Hpct. apply in_map_iff in Hpct.
            destruct Hpct as [j [<- Hj]]. apply in_seq in Hj.
            apply (missing_share_exceeds _ n_obs); [lia|].
            apply H. lia. }
        assert (Hz : existsb (fun j => zero_std
                                         (DataHandler.column_cells data j))
                             (seq 0 n_labels) = false
                     <-> forall j, (j < n_labels)%nat ->
                           zero_std (DataHandler.column_cells data j)
                           = false).
        { rewrite existsb_false_iff. split.
          - intros H j Hj. apply H. apply in_seq. lia.
          - intros H j Hj. apply in_seq in Hj. apply H. lia. }
        destruct (existsb (fun pct => DataHandler.Rltb (1 / 10) pct) pcts)
          eqn:Ep.
        { repeat split; try discriminate; try reflexivity; intros;
            simpl in *; try lia; try discriminate.
          destruct H as [_ [_ [_ [H _]]]].
          apply Hp in H. discriminate. }
        destruct (existsb (fun j => zero_std
                                      (DataHandler.column_cells data j))
                          (seq 0 n_labels)) eqn:Ez.
        { repeat split; try discriminate; try reflexivity; intros;
            simpl in *; try lia; try discriminate.
          destruct H as [_ [_ [_ [_ H]]]].
          apply Hz in H. discriminate. }
        split; [|split; [reflexivity|split; intros; lia]].
        simpl. split; [intros _|reflexivity].
        split; [lia|]. split; [lia|]. split; [exact Hge|].
        split; [apply Hp; reflexivity|apply Hz; reflexivity].
Qed.

(** ** Returns of a price table *)

Lemma length_ratios_from (previous : list R) (rest : list (list R)) :
  length (ratios_from previous rest) = length rest.
Proof.
  revert previous; induction rest as [|cur rest IH]; intro previous; simpl;
    [reflexivity|rewrite IH; reflexivity].
Qed.

Lemma length_price_ratios (price_rows : list (list R)) :
  length (price_ratios price_rows) = length price_rows.
Proof.
  destruct price_rows as [|first rest]; simpl;
    [reflexivity|rewrite length_ratios_from; reflexivity].
Qed.

Lemma ratios_from_adjacent (previous : list R)
      (pre : list (list R)) (prev cur : list R) (post : list (list R)) :
  nth (S (length pre)) (ratios_from previous (pre ++ prev :: cur :: post)) []
  = map (fun p => cell_div (fst p) (snd p)) (combine cur prev).
Proof.
  revert previous; induction pre as [|a pre IH]; intro previous.
  - reflexivity.
  - simpl app. simpl ratios_from. simpl length.
    change (nth (S (length pre))
                (ratios_from a (pre ++ prev :: cur :: post)) []
            = map (fun p => cell_div (fst p) (snd p)) (combine cur prev)).
    apply IH.
Qed.

Lemma price_ratios_adjacent
      (pre : list (list R)) (prev cur : list R) (post : list (list R)) :
  nth (S (length pre)) (price_ratios (pre ++ prev :: cur :: post)) []
  = map (fun p => cell_div (fst p) (snd p)) (combine cur prev).
Proof.
  destruct pre as [|a pre].
  - reflexivity.
  - simpl app. unfold price_ratios. simpl length.
    change (nth (S (length pre))
                (ratios_from a (pre ++ prev :: cur :: post)) []
            = map (fun p => cell_div (fst p) (snd p)) (combine cur prev)).
    apply ratios_from_adjacent.
Qed.

Lemma nth_map_combine {T : Type} (f : R * R -> T) (d : T) (n j : nat)
      (cur prev : list R) :
  length cur = n -> length prev = n -> (j < n)%nat ->
  nth j (map f (combine cur prev)) d = f (nth j cur 0, nth j prev 0).
Proof.
  intros Hc Hp Hj.
  pose proof (map_nth f (combine cur prev) (0, 0) j) as H.
  rewrite (nth_indep _ d (f (0, 0)))
    by (rewrite length_map, length_combine; lia).
  rewrite H, combine_nth by lia. reflexivity.
Qed.

Lemma calculate_returns_not_simple (prices : DataFrame) (method : string) :
  method <> "simple"%string ->
  DataHandler.calculate_returns prices method
  = map (map cell_log) (price_ratios (rows prices)).
Proof.
  intro Hm. unfold DataHandler.calculate_returns.
  destruct (String.eqb method "log"); [reflexivity|].
  destruct (String.eqb_spec method "simple") as [E|_]; [contradiction|].
  destruct (String.eqb method "continuous"); reflexivity.
Qed.

(** X23: on a table of positive prices, the simple returns and the returns
    of any other method (["log"], ["continuous"] or an unknown name, which
    all give log returns) have one row per price row, the first of them all
    [nan]; at every later row the simple return of a column is
    [p_t / p_(t-1) - 1], above -1, and the log return is the logarithm of
    one plus that simple return. *)
Theorem returns_log_versus_simple (prices : DataFrame) (n : nat)
        (method : string) :
  Forall (fun r => length r = n) (rows prices) ->
  Forall (Forall (fun x => 0 < x)) (rows prices) ->
  method <> "simple"%string ->
  let simple := DataHandler.calculate_returns prices "simple" in
  let logs := DataHandler.calculate_returns prices method in
  length simple = length (rows prices)
  /\ length logs = length (rows prices)
  /\ (forall first rest, rows prices = first :: rest ->
        hd [] simple = map (fun _ => NaN) first
        /\ hd [] logs = map (fun _ => NaN) first)
  /\ (forall pre prev cur post j,
        rows prices = pre ++ prev :: cur :: post -> (j < n)%nat ->
        let r := nth j cur 0 / nth j prev 0 - 1 in
        -1 < r
        /\ nth j (nth (S (length pre)) simple []) NaN = Finite r
        /\ nth j (nth (S (length pre)) logs []) NaN = Finite (ln (1 + r))).
Proof.
  intros Hshape Hpos Hm. cbv zeta.
  rewrite (calculate_returns_not_simple prices method Hm).
  unfold DataHandler.calculate_returns.
  change (String.eqb "simple" "log") with false.
  change (String.eqb "simple" "simple") with true. cbv iota.
  split; [rewrite length_map; apply length_price_ratios|].
  split; [rewrite length_map; apply length_price_ratios|].
  split.
  - intros first rest E. rewrite E. simpl.
    rewrite !map_map. split; reflexivity.
  - intros pre prev cur post j E Hj. rewrite E.
    rewrite E in Hshape, Hpos.
    rewrite Forall_forall in Hshape, Hpos.
    assert (Hinp : In prev (pre ++ prev :: cur :: post)).
    { apply in_or_app. right. left. reflexivity. }
    assert (Hinc : In cur (pre ++ prev :: cur :: post)).
    { apply in_or_app. right. right. left. reflexivity. }
    pose proof (Hshape _ Hinp) as Hlp. pose proof (Hshape _ Hinc) as Hlc.
    pose proof (Hpos _ Hinp) as Hpp. pose proof (Hpos _ Hinc) as Hpc.
    rewrite Forall_forall in Hpp, Hpc.
    assert (Hp : 0 < nth j prev 0) by (apply Hpp; apply nth_In; lia).
    assert (Hc : 0 < nth j cur 0) by (apply Hpc; apply nth_In; lia).
    assert (Hq : 0 < nth j cur 0 / nth j prev 0)
      by (apply Rdiv_lt_0_compat; assumption).
    split; [lra|].
    pose proof (map_nth (map DataHandler.cell_minus_one)
                  (price_ratios (pre ++ prev :: cur :: post)) []
                  (S (length pre))) as Hs.
    pose proof (map_nth (map cell_log)
                  (price_ratios (pre ++ prev :: cur :: post)) []
                  (S (length pre))) as Hl.
    change (map DataHandler.cell_minus_one []) with (@nil cell) in Hs.
    change (map cell_log []) with (@nil cell) in Hl.
    rewrite Hs, Hl, price_ratios_adjacent, !map_map.
    rewrite !(nth_map_combine _ NaN n) by assumption.
    cbn [fst snd]. rewrite cell_div_finite by lra.
    split; [reflexivity|].
    simpl. destruct (Rlt_dec 0 (nth j cur 0 / nth j prev 0)) as [_|Hn];
      [|contradiction].
    f_equal. f_equal. ring.
Qed.

Lemma returns_log_versus_simple_witness :
  length (DataHandler.calculate_returns sample_prices "simple") = 3%nat
  /\ nth 0 (nth 1 (DataHandler.calculate_returns sample_prices "log") [])
         NaN
     = Finite (ln (1 + (110 / 100 - 1))).
Proof.
  assert (Hshape : Forall (fun r => length r = 1%nat) (rows sample_prices)).
  { repeat constructor. }
  assert (Hpos : Forall (Forall (fun x => 0 < x)) (rows sample_prices)).
  { repeat constructor; lra. }
  assert (Hm : "log"%string <> "simple"%string) by discriminate.
  destruct (returns_log_versus_simple sample_prices 1 "log" Hshape Hpos Hm)
    as [Hlen [_ [_ Hadj]]].
  split; [exact Hlen|].
  destruct (Hadj [] [100] [110] [[99]] 0%nat eq_refl (Nat.lt_0_succ 0))
    as [_ [_ Hlog]].
  exact Hlog.
Defined.
